(** * LibCat / Sphynx: a shallow embedding of the client handshake, the
      clock-drift estimator, the connection-table probe and the intrusive
      linked lists, with the properties the specification states of them.

    Sources embedded here:
    - [_attic_/SphynxClient_DriftCalculations.cpp]  ([Client::OnRead],
      [Connect], [OnResolve], [PostHello], [ThreadFunction], [OnInternal],
      [Disconnect], [ConnectFail], [UpdateTimeSynch]);
    - [include/cat/net/SphynxTransport.hpp]  (protocol constants);
    - [include/cat/net/SphynxServer.hpp]     ([Map::next_collision_key]);
    - the linked-list headers (the [CAT_FDLL_*] / [CAT_BDLL_*] /
      [CAT_FSLL_*] macros, the iterators, and the [DListForward], [DList],
      [SList] classes);
    - the reference-object header ([RefObject::AddRef], [ReleaseRef],
      [Singleton<T>::GetRef]);
    - [BigPseudoMersenne::MrInvert]. *)

From stdpp Require Import gmap list.
From Stdlib Require Import ZArith QArith Qround Lia Permutation.

#[local] Open Scope Z_scope.

(** ** Machine integers

    C++ fixed-width integers are carried as [Z] with the wrap-around written
    out where the code can wrap. *)

Module MachineInt.

Definition u8  (z : Z) : Z := z mod 2^8.
Definition u16 (z : Z) : Z := z mod 2^16.
Definition u32 (z : Z) : Z := z mod 2^32.

(** Two's-complement reading of the low [w] bits. *)
Definition signed (w : Z) (z : Z) : Z :=
  let m := z mod 2^w in
  if m <? 2^(w-1) then m else m - 2^w.

Definition s32 (z : Z) : Z := signed 32 z.
Definition s64 (z : Z) : Z := signed 64 z.

Definition in_u8  (z : Z) : Prop := 0 <= z < 2^8.
Definition in_u16 (z : Z) : Prop := 0 <= z < 2^16.
Definition in_u32 (z : Z) : Prop := 0 <= z < 2^32.
Definition in_s32 (z : Z) : Prop := - 2^31 <= z < 2^31.
Definition in_s64 (z : Z) : Prop := - 2^63 <= z < 2^63.

End MachineInt.

(** ** Intrusive linked lists

    The list macros act on objects through their [next]/[prev] members.  The
    objects live in a store keyed by address; address [0] is the null
    pointer.  Dereferencing null or an address that holds no object has no
    defined behaviour in C++: the model returns [None]. *)

Module LinkedLists.

#[local] Open Scope nat_scope.

Definition ptr := nat.
Definition null : ptr := 0.

Record DListItem := mkItem { _next : ptr; _prev : ptr }.

Definition is_null (p : ptr) : bool := Nat.eqb p null.

Definition load (h : gmap ptr DListItem) (p : ptr) : option DListItem :=
  if is_null p then None else h !! p.

Definition store_next (p v : ptr) (h : gmap ptr DListItem)
  : option (gmap ptr DListItem) :=
  match load h p with
  | Some it => Some (<[p := mkItem v (_prev it)]> h)
  | None => None
  end.

Definition store_prev (p v : ptr) (h : gmap ptr DListItem)
  : option (gmap ptr DListItem) :=
  match load h p with
  | Some it => Some (<[p := mkItem (_next it) v]> h)
  | None => None
  end.

(** The variables a macro invocation names: the list's [head] and [tail]
    pointers and the objects they reach. *)
Record lstate := mkL { head : ptr; tail : ptr; objs : gmap ptr DListItem }.

Notation "'do' x <- e ; k" :=
  (match e with Some x => k | None => None end)
  (at level 10, x name, e at level 99, k at level 200, only parsing).

(** [CAT_FDLL_PUSH_FRONT(head, obj, next, prev)] *)
Definition CAT_FDLL_PUSH_FRONT (obj : ptr) (s : lstate) : option lstate :=
  do h1 <- store_prev obj null (objs s);
  do h2 <- store_next obj (head s) h1;
  do h3 <- (if is_null (head s) then Some h2 else store_prev (head s) obj h2);
  Some (mkL obj (tail s) h3).

(** [CAT_FDLL_INSERT_BEFORE(head, obj, another, next, prev)] *)
Definition CAT_FDLL_INSERT_BEFORE (obj another : ptr) (s : lstate)
  : option lstate :=
  do a <- load (objs s) another;
  do h1 <- store_prev obj (_prev a) (objs s);
  do h2 <- store_next obj another h1;
  do a2 <- load h2 another;
  let hd := if is_null (_prev a2) then obj else head s in
  do h3 <- store_prev another obj h2;
  Some (mkL hd (tail s) h3).

(** [CAT_FDLL_INSERT_AFTER(head, obj, another, next, prev)] *)
Definition CAT_FDLL_INSERT_AFTER (obj another : ptr) (s : lstate)
  : option lstate :=
  do a <- load (objs s) another;
  do h1 <- store_next obj (_next a) (objs s);
  do h2 <- store_prev obj another h1;
  do h3 <- store_next another obj h2;
  Some (mkL (head s) (tail s) h3).

(** [CAT_BDLL_PUSH_FRONT(head, tail, obj, next, prev)] *)
Definition CAT_BDLL_PUSH_FRONT (obj : ptr) (s : lstate) : option lstate :=
  do h1 <- store_prev obj null (objs s);
  do h2 <- store_next obj (head s) h1;
  if is_null (head s) then Some (mkL obj obj h2)
  else do h3 <- store_prev (head s) obj h2; Some (mkL obj (tail s) h3).

(** [CAT_BDLL_PUSH_BACK(head, tail, obj, next, prev)] *)
Definition CAT_BDLL_PUSH_BACK (obj : ptr) (s : lstate) : option lstate :=
  do h1 <- store_prev obj (tail s) (objs s);
  do h2 <- store_next obj null h1;
  if is_null (tail s) then Some (mkL obj obj h2)
  else do h3 <- store_next (tail s) obj h2; Some (mkL (head s) obj h3).

(** [CAT_BDLL_INSERT_BEFORE(head, tail, obj, another, next, prev)] *)
Definition CAT_BDLL_INSERT_BEFORE (obj another : ptr) (s : lstate)
  : option lstate :=
  do a <- load (objs s) another;
  do h1 <- store_prev obj (_prev a) (objs s);
  do h2 <- store_next obj another h1;
  do a2 <- load h2 another;
  let hd := if is_null (_prev a2) then obj else head s in
  do h3 <- store_prev another obj h2;
  Some (mkL hd (tail s) h3).

(** [CAT_BDLL_INSERT_AFTER(head, tail, obj, another, next, prev)] *)
Definition CAT_BDLL_INSERT_AFTER (obj another : ptr) (s : lstate)
  : option lstate :=
  do a <- load (objs s) another;
  do h1 <- store_next obj (_next a) (objs s);
  do h2 <- store_prev obj another h1;
  do a2 <- load h2 another;
  let tl := if is_null (_next a2) then obj else tail s in
  do h3 <- store_next another obj h2;
  Some (mkL (head s) tl h3).

(** Forward iteration, [for (item = head; item; item = item->next)], and
    backward iteration, [for (item = tail; item; item = item->prev)].  The
    fuel bounds the walk so that a cyclic store still yields a list. *)
Fixpoint walk (step : DListItem -> ptr) (fuel : nat)
         (h : gmap ptr DListItem) (p : ptr) : list ptr :=
  match fuel with
  | O => []
  | S n =>
      match load h p with
      | Some it => p :: walk step n h (step it)
      | None => []
      end
  end.

Definition forward (s : lstate) : list ptr :=
  walk _next (S (size (objs s))) (objs s) (head s).

Definition backward (s : lstate) : list ptr :=
  walk _prev (S (size (objs s))) (objs s) (tail s).

(** Well-formedness of a bi-directional list holding exactly the items [l],
    in order: [head] is the first, [tail] the last, every [next] names the
    successor and every [prev] the predecessor, null at the two ends. *)
Fixpoint linked (h : gmap ptr DListItem) (before : ptr) (l : list ptr)
         (after : ptr) : Prop :=
  match l with
  | [] => True
  | p :: rest =>
      p <> null /\
      h !! p = Some (mkItem (List.hd after rest) before) /\
      linked h p rest after
  end.

Definition well_formed (s : lstate) (l : list ptr) : Prop :=
  NoDup l /\ head s = List.hd null l /\ tail s = List.last l null /\
  linked (objs s) null l null.

(** A chain of [step] links: each item of [l] is an object whose [step]
    member names the item after it, [after] for the last. *)
Fixpoint chain (step : DListItem -> ptr) (h : gmap ptr DListItem)
         (l : list ptr) (after : ptr) : Prop :=
  match l with
  | [] => True
  | p :: rest =>
      p <> null /\
      (exists it, h !! p = Some it /\ step it = List.hd after rest) /\
      chain step h rest after
  end.

(** The list classes keep only the end pointers. *)
Record DListForward := mkDListForward { fl_head : ptr }.
Record DList := mkDList { dl_head : ptr; dl_tail : ptr }.
Record SList := mkSList { sl_head : ptr }.

(** [DListForward::Clear], [DList::Clear], [SList::Clear] *)
Definition DListForward_Clear (l : DListForward) : DListForward :=
  mkDListForward null.
Definition DList_Clear (l : DList) : DList := mkDList null null.
Definition SList_Clear (l : SList) : SList := mkSList null.

(** [bool empty() { return _head != 0; }] in each of the three classes. *)
Definition DListForward_empty (l : DListForward) : bool :=
  negb (Nat.eqb (fl_head l) 0).
Definition DList_empty (l : DList) : bool := negb (Nat.eqb (dl_head l) 0).
Definition SList_empty (l : SList) : bool := negb (Nat.eqb (sl_head l) 0).

(** [CAT_FDLL_ERASE(head, obj, next, prev)].  Each member is read when the
    statement that names it runs, so a store made by the first statement is
    seen by the second. *)
Definition CAT_FDLL_ERASE (obj : ptr) (s : lstate) : option lstate :=
  do o <- load (objs s) obj;
  do r <- (if is_null (_prev o) then Some (_next o, objs s)
           else do h1 <- store_next (_prev o) (_next o) (objs s);
                Some (head s, h1));
  do o2 <- load (snd r) obj;
  do h2 <- (if is_null (_next o2) then Some (snd r)
            else store_prev (_next o2) (_prev o2) (snd r));
  Some (mkL (fst r) (tail s) h2).

(** [CAT_BDLL_ERASE(head, tail, obj, next, prev)] *)
Definition CAT_BDLL_ERASE (obj : ptr) (s : lstate) : option lstate :=
  do o <- load (objs s) obj;
  do r <- (if is_null (_prev o) then Some (_next o, objs s)
           else do h1 <- store_next (_prev o) (_next o) (objs s);
                Some (head s, h1));
  do o2 <- load (snd r) obj;
  if is_null (_next o2) then Some (mkL (fst r) (_prev o2) (snd r))
  else do h2 <- store_prev (_next o2) (_prev o2) (snd r);
       Some (mkL (fst r) (tail s) h2).

(** Well-formedness of a forward-only list: [head] and the links, there
    being no [tail] variable. *)
Definition well_formed_forward (s : lstate) (l : list ptr) : Prop :=
  NoDup l /\ head s = List.hd null l /\ linked (objs s) null l null.

(** [DListIteratorBase::IterateNext] and [IteratePrev], on the [_item] the
    iterator holds. *)
Definition IterateNext (h : gmap ptr DListItem) (_item : ptr) : option ptr :=
  do it <- load h _item; Some (_next it).

Definition IteratePrev (h : gmap ptr DListItem) (_item : ptr) : option ptr :=
  do it <- load h _item; Some (_prev it).

End LinkedLists.

(** ** Singly linked lists

    The forward-only singly linked list of the same header: items have a
    [next] member only, and the list is its [head]. *)

Module SinglyLinkedLists.

#[local] Open Scope nat_scope.

Definition ptr := nat.
Definition null : ptr := 0.

Definition is_null (p : ptr) : bool := Nat.eqb p null.

Record SListItem := mkSItem { _next : ptr }.

Definition load (h : gmap ptr SListItem) (p : ptr) : option SListItem :=
  if is_null p then None else h !! p.

Definition store_next (p v : ptr) (h : gmap ptr SListItem)
  : option (gmap ptr SListItem) :=
  match load h p with
  | Some _ => Some (<[p := mkSItem v]> h)
  | None => None
  end.

Record sstate := mkS { head : ptr; objs : gmap ptr SListItem }.

(** [CAT_FSLL_PUSH_FRONT(head, obj, next, prev)] *)
Definition CAT_FSLL_PUSH_FRONT (obj : ptr) (s : sstate) : option sstate :=
  match store_next obj (head s) (objs s) with
  | Some h1 => Some (mkS obj h1)
  | None => None
  end.

(** [CAT_FSLL_INSERT_AFTER(head, obj, another, next, prev)] *)
Definition CAT_FSLL_INSERT_AFTER (obj another : ptr) (s : sstate)
  : option sstate :=
  match load (objs s) another with
  | Some a =>
      match store_next obj (_next a) (objs s) with
      | Some h1 =>
          match store_next another obj h1 with
          | Some h2 => Some (mkS (head s) h2)
          | None => None
          end
      | None => None
      end
  | None => None
  end.

(** [CAT_FSLL_ERASE_AFTER(head, obj, another, next, prev)]: [another] is the
    item before [obj], or 0 when [obj] is the head. *)
Definition CAT_FSLL_ERASE_AFTER (obj another : ptr) (s : sstate)
  : option sstate :=
  match load (objs s) obj with
  | Some o =>
      if is_null another then Some (mkS (_next o) (objs s))
      else
        match store_next another (_next o) (objs s) with
        | Some h1 => Some (mkS (head s) h1)
        | None => None
        end
  | None => None
  end.

(** [for (item = head; item; item = item->next)] *)
Fixpoint walk (fuel : nat) (h : gmap ptr SListItem) (p : ptr) : list ptr :=
  match fuel with
  | O => []
  | S n =>
      match load h p with
      | Some it => p :: walk n h (_next it)
      | None => []
      end
  end.

Definition forward (s : sstate) : list ptr :=
  walk (S (size (objs s))) (objs s) (head s).

(** [SListIteratorBase]: the item the iterator is on and the one it was on
    before. *)
Record SListIteratorBase := mkSIter { _item : ptr; _prev : ptr }.

(** [Iterator(SListItem *item)] *)
Definition Iterator (item : ptr) : SListIteratorBase := mkSIter item null.

(** [SListIteratorBase::IterateNext] *)
Definition IterateNext (h : gmap ptr SListItem) (it : SListIteratorBase)
  : option SListIteratorBase :=
  match load h (_item it) with
  | Some o => Some (mkSIter (_next o) (_item it))
  | None => None
  end.

(** [++ii], [k] times. *)
Fixpoint advance (h : gmap ptr SListItem) (k : nat) (it : SListIteratorBase)
  : option SListIteratorBase :=
  match k with
  | O => Some it
  | S k' =>
      match IterateNext h it with
      | Some it' => advance h k' it'
      | None => None
      end
  end.

(** A list holding exactly the items [l], in order. *)
Fixpoint linked (h : gmap ptr SListItem) (l : list ptr) (after : ptr) : Prop :=
  match l with
  | [] => True
  | p :: rest =>
      p <> null /\ h !! p = Some (mkSItem (List.hd after rest)) /\
      linked h rest after
  end.

Definition well_formed (s : sstate) (l : list ptr) : Prop :=
  NoDup l /\ head s = List.hd null l /\ linked (objs s) l null.

End SinglyLinkedLists.

(** ** Reference-counted objects and singletons *)

Module RefObjects.

Import MachineInt.

#[local] Open Scope Z_scope.

(** [class RefObject]: the two [volatile u32] members.  [OnZeroReferences]
    is declared only; the calls made to it are counted. *)
Record RefObject := mkRefObject {
  _ref_count : Z;
  _shutdown : Z;
  zero_references : nat
}.

(** [RefObject::IsShutdown] *)
Definition IsShutdown (o : RefObject) : bool := negb (_shutdown o =? 0).

Definition OnZeroReferences (o : RefObject) : RefObject :=
  mkRefObject (_ref_count o) (_shutdown o) (S (zero_references o)).

(** [RefObject::AddRef(file_line, times)], as compiled under
    [CAT_NO_ATOMIC_REF_OBJECT]: [_ref_count += times] inside the lock. *)
Definition AddRef (times : Z) (o : RefObject) : RefObject :=
  mkRefObject (u32 (_ref_count o + times)) (_shutdown o) (zero_references o).

(** [RefObject::ReleaseRef(file_line, times)], same branch: the count is
    read, then decremented, inside the lock; the value read is compared
    with [times], converted to [u32]. *)
Definition ReleaseRef (times : Z) (o : RefObject) : RefObject :=
  let ref_count := _ref_count o in
  let o := mkRefObject (u32 (_ref_count o - times)) (_shutdown o)
                       (zero_references o) in
  if ref_count =? u32 times then OnZeroReferences o else o.

(** Calls on one object, one after the other. *)
Inductive RefCall :=
| CallAddRef (times : Z)
| CallReleaseRef (times : Z).

Definition ref_call (call : RefCall) (o : RefObject) : RefObject :=
  match call with
  | CallAddRef times => AddRef times o
  | CallReleaseRef times => ReleaseRef times o
  end.

Definition ref_calls (calls : list RefCall) (o : RefObject) : RefObject :=
  fold_left (fun o call => ref_call call o) calls o.

(** The number of references a call adds: the bookkeeping a caller does. *)
Definition references_added (call : RefCall) : Z :=
  match call with
  | CallAddRef times => times
  | CallReleaseRef times => - times
  end.

(** The references outstanding after each call of a list, from [held]. *)
Fixpoint references_after (held : Z) (calls : list RefCall) : list Z :=
  match calls with
  | [] => []
  | call :: rest =>
      (held + references_added call)
        :: references_after (held + references_added call) rest
  end.

(** [template<class T> class Singleton]: the [_init] flag, the mutex (who
    holds it, if anyone), and the calls of [OnSingletonStartup] made on the
    instance. *)
Record Singleton := mkSingleton {
  _init : bool;
  _lock : option nat;
  startups : nat
}.

(** [Singleton<T>::GetRef], run by one thread from beginning to end. *)
Definition GetRef (s : Singleton) : Singleton :=
  if _init s then s
  else
    (* AutoMutex lock(_lock) *)
    if _init s then s
    else
      (* _instance.OnSingletonStartup(); _init = true *)
      mkSingleton true (_lock s) (S (startups s)).

(** Several threads in [GetRef] at once.  Where a thread stands: *)
Inductive GetRefPc :=
| AtFirstCheck          (* if (_init) return &_instance; *)
| AtLock                (* AutoMutex lock(_lock); *)
| AtSecondCheck         (* if (_init) return &_instance; *)
| AtStartup             (* _instance.OnSingletonStartup(); *)
| AtSetInit             (* _init = true; *)
| AtUnlock              (* the destructor of [lock], on return *)
| Returned.

(** Thread [i] runs its next statement; a thread that waits for the mutex
    stays where it is. *)
Definition GetRef_step (i : nat) (st : list GetRefPc * Singleton)
  : list GetRefPc * Singleton :=
  let '(threads, s) := st in
  match threads !! i with
  | Some AtFirstCheck =>
      (<[i := if _init s then Returned else AtLock]> threads, s)
  | Some AtLock =>
      match _lock s with
      | None => (<[i := AtSecondCheck]> threads,
                 mkSingleton (_init s) (Some i) (startups s))
      | Some _ => st
      end
  | Some AtSecondCheck =>
      (<[i := if _init s then AtUnlock else AtStartup]> threads, s)
  | Some AtStartup =>
      (<[i := AtSetInit]> threads,
       mkSingleton (_init s) (_lock s) (S (startups s)))
  | Some AtSetInit =>
      (<[i := AtUnlock]> threads, mkSingleton true (_lock s) (startups s))
  | Some AtUnlock =>
      (<[i := Returned]> threads, mkSingleton (_init s) None (startups s))
  | Some Returned | None => st
  end.

Definition GetRef_run (schedule : list nat) (st : list GetRefPc * Singleton)
  : list GetRefPc * Singleton :=
  fold_left (fun st i => GetRef_step i st) schedule st.

End RefObjects.

(** ** Modular inversion in a pseudo-Mersenne field

    [BigPseudoMersenne::MrInvert] raises its input to a fixed power with the
    field's square and multiply.  The field operations, the register size
    and the modulus constant belong to classes that are not among the
    sources: they stay parameters.  The input is taken not to alias the two
    work registers [S] and [T]. *)

Module BigPseudoMersenne.

#[local] Open Scope Z_scope.

Class Field := {
  (** the contents of a register *)
  Reg : Type;
  (** [MrSquare(in, out)] and [MrMultiply(a, b, out)] *)
  MrSquare : Reg -> Reg;
  MrMultiply : Reg -> Reg -> Reg;
  (** [RegBytes()], [modulus_c], and the width of a [Leg] in bits *)
  RegBytes : Z;
  modulus_c : Z;
  Leg_bits : Z
}.

Section MrInvert.

Context `{F : Field}.

(** [const int w = 16] *)
Definition w : Z := 16.

(** [while (ctr--) { MrSquare(S, S); MrMultiply(S, in, S); }] *)
Fixpoint first_window (ctr : nat) (in_ S : Reg) : Reg :=
  match ctr with
  | O => S
  | S ctr' => first_window ctr' in_ (MrMultiply (MrSquare S) in_)
  end.

(** The body of [while (one_frames--)]: sixteen squarings, then
    [MrMultiply(S, T, S)]. *)
Definition one_frame (T S : Reg) : Reg :=
  MrMultiply (Nat.iter 16 MrSquare S) T.

Fixpoint frames (one_frames : nat) (T S : Reg) : Reg :=
  match one_frames with
  | O => S
  | S n => frames n T (one_frame T S)
  end.

(** [for (Leg bit = (Leg)1 << (w - 1); bit; bit >>= 1)]: [bits] counts the
    bits still to come, the next one being bit [bits - 1] of [m_low]. *)
Fixpoint final_leg (bits : nat) (m_low : Z) (in_ S : Reg) : Reg :=
  match bits with
  | O => S
  | S b =>
      let S := MrSquare S in
      let S := if Z.testbit m_low (Z.of_nat b) then MrMultiply S in_ else S in
      final_leg b m_low in_ S
  end.

(** [BigPseudoMersenne::MrInvert(in, out)]; the result is what is copied to
    [out].  A negative [one_frames] would count down through the whole
    range of [int]: the model gives no result. *)
Definition MrInvert (in_ : Reg) : option Reg :=
  let S := first_window (Z.to_nat (w - 1)) in_ in_ in
  let T := S in
  let one_frames := Z.quot (RegBytes * 8 - w * 2) w in
  if one_frames <? 0 then None
  else
    let S := frames (Z.to_nat one_frames) T S in
    let m_low := (0 - (modulus_c + 2)) mod 2 ^ Leg_bits in
    Some (final_leg (Z.to_nat w) m_low in_ S).

(** [x] to the power [e], for [0 < e], by the field's multiplication. *)
Definition power (x : Reg) (e : Z) : Reg := Pos.iter_op MrMultiply (Z.to_pos e) x.

End MrInvert.

End BigPseudoMersenne.

(** ** Connection table: the collision probe *)

Module ConnectionMap.

(** Constants of [SphynxTransport.hpp]. *)
Definition HASH_TABLE_SIZE : Z := 32768.
Definition MAX_POPULATION : Z := HASH_TABLE_SIZE / 2.
Definition COLLISION_MULTIPLIER : Z := 71*5861 * 4 + 1.
Definition COLLISION_INCREMENTER : Z := 1013904223.

(** Modelled from the spec: the body of [Map::next_collision_key], which
    [SphynxServer.hpp] only declares, is not among the sources.  The
    specification gives the probe as
    [next = (COLLISION_MULTIPLIER * key + COLLISION_INCREMENTER) mod TABLE_SIZE]. *)
Definition next_collision_key (key : Z) : Z :=
  (COLLISION_MULTIPLIER * key + COLLISION_INCREMENTER) mod HASH_TABLE_SIZE.

(** The slots a probe walk visits: the start slot, then each next key. *)
Fixpoint probe_walk (step : Z -> Z) (steps : nat) (key : Z) : list Z :=
  match steps with
  | O => []
  | S m => key :: probe_walk step m (step key)
  end.

(** [avoids_zero step n k]: none of [step k], ..., [step^n k] is slot 0. *)
Fixpoint avoids_zero (step : Z -> Z) (steps : nat) (key : Z) : bool :=
  match steps with
  | O => true
  | S m => negb (step key =? 0) && avoids_zero step m (step key)
  end.

Definition TABLE_SLOTS : nat := Z.to_nat HASH_TABLE_SIZE.

End ConnectionMap.

(** ** The Sphynx client *)

Module Sphynx.

Import MachineInt.

(** *** Protocol constants ([SphynxTransport.hpp]) *)

Definition PROTOCOL_MAGIC : Z := 0xC47D0001.
Definition PUBLIC_KEY_BYTES : Z := 64.
Definition PRIVATE_KEY_BYTES : Z := 32.
Definition CHALLENGE_BYTES : Z := PUBLIC_KEY_BYTES.
Definition ANSWER_BYTES : Z := PUBLIC_KEY_BYTES * 2.

(** [enum HandshakeType] *)
Definition C2S_HELLO : Z := 0.
Definition S2C_COOKIE : Z := 1.
Definition C2S_CHALLENGE : Z := 2.
Definition S2C_ANSWER : Z := 3.
Definition S2C_ERROR : Z := 4.

(** [enum HandshakeError] *)
Definition ERR_SERVER_FULL : Z := 0.

(** [class Transport] *)
Definition TIMEOUT_DISCONNECT : Z := 15000.
Definition MINIMUM_MTU : Z := 576.
Definition MEDIUM_MTU : Z := 1400.
Definition MAXIMUM_MTU : Z := 1500.
Definition TICK_RATE : Z := 20.

(** Modelled from the spec: the handshake packet lengths, whose declarations
    are not among the sources; section 6 of the specification lists them. *)
Definition C2S_HELLO_LEN : Z := 1 + 4 + PUBLIC_KEY_BYTES.
Definition S2C_COOKIE_LEN : Z := 1 + 4.
Definition C2S_CHALLENGE_LEN : Z := 1 + 4 + 4 + CHALLENGE_BYTES.
Definition S2C_ANSWER_LEN : Z := 1 + 2 + ANSWER_BYTES.
Definition S2C_ERROR_LEN : Z := 1 + 1.

(** Constants the client source names and whose declarations (the client
    header) are not among the sources.  They stay parameters. *)
Class ClientConstants := {
  ERR_CLIENT_OUT_OF_MEMORY : Z;
  ERR_CLIENT_BROKEN_PIPE : Z;
  ERR_CLIENT_TIMEOUT : Z;
  ERR_CLIENT_ICMP : Z;
  ERR_NUM_CLIENT_ERRORS : Z;
  DISCO_TIMEOUT : Z;
  CONNECT_TIMEOUT : Z;
  INITIAL_HELLO_POST_INTERVAL : Z;
  HANDSHAKE_TICK_RATE : Z;
  IOP_S2C_MTU_SET : Z;
  IOP_S2C_MTU_SET_LEN : Z;
  IOP_S2C_TIME_PONG : Z;
  IOP_S2C_TIME_PONG_LEN : Z;
  IOP_DISCO : Z;
  IOP_DISCO_LEN : Z;
  MAX_TS_SAMPLES : Z;
  MIN_TS_SAMPLES : Z;
  MIN_DRIFT_SAMPLES : Z;
  TIME_SYNC_INTERVAL : Z;
  TIME_SYNC_FAST : Z;
  TIME_SYNC_FAST_COUNT : Z;
  MTU_PROBE_INTERVAL : Z;
  SILENCE_LIMIT : Z;
  IOP_C2S_TIME_PING : Z
}.

(** The cryptographic collaborators, by the calls the client makes on them.
    A call that writes through a pointer returns the written object beside
    its [bool] result. *)
Class Collaborators := {
  AuthenticatedEncryption : Type;
  KeyAgreementInitiator : Type;
  Skein : Type;
  (** [ProcessAnswer(math, answer, ANSWER_BYTES, &key_hash)] *)
  ProcessAnswer : KeyAgreementInitiator -> list Z -> option Skein;
  (** [KeyEncryption(&key_hash, &_auth_enc, _session_key)] *)
  KeyEncryption : KeyAgreementInitiator -> Skein -> AuthenticatedEncryption ->
                  list Z -> bool * AuthenticatedEncryption;
  (** [_auth_enc.Decrypt(data, buf_bytes)] *)
  Decrypt : AuthenticatedEncryption -> list Z ->
            bool * AuthenticatedEncryption * list Z;
  (** [_auth_enc.Encrypt(buffer, buf_bytes, msg_bytes)] *)
  Encrypt : AuthenticatedEncryption -> list Z ->
            bool * AuthenticatedEncryption * list Z
}.

(** *** Bytes on the wire

    A datagram is the list of its bytes, each a [Z] in [0 .. 255]; the
    [bytes] argument that goes with a [data] pointer is the length of the
    list. *)

Definition byte_at (data : list Z) (i : nat) : Z := nth i data 0.

Definition slice (data : list Z) (off len : nat) : list Z :=
  firstn len (skipn off data).

(** Little-endian value of a byte string ([getLE] of the integer read at that
    address, on a little-endian host). *)
Fixpoint le_decode (l : list Z) : Z :=
  match l with
  | [] => 0
  | b :: rest => b + 256 * le_decode rest
  end.

Fixpoint le_bytes (n : nat) (z : Z) : list Z :=
  match n with
  | O => []
  | S m => z mod 256 :: le_bytes m (z / 256)
  end.

(** *** Addresses *)

Record NetAddr := mkAddr { addr_ip : Z; addr_port : Z }.

Definition NetAddr_eqb (a b : NetAddr) : bool :=
  (addr_ip a =? addr_ip b) && (addr_port a =? addr_port b).

Definition EqualsIPOnly (a b : NetAddr) : bool := addr_ip a =? addr_ip b.

Definition SetPort (p : Z) (a : NetAddr) : NetAddr := mkAddr (addr_ip a) p.
Definition GetPort (a : NetAddr) : Z := addr_port a.

(** *** What the client does to the world around it

    Calls into the socket layer, the transport layer and the subclass
    (the upcalls) are recorded, in order, in the client's [trace]. *)
Inductive Event :=
| Post (dst : NetAddr) (pkt : list Z)
| IgnoreUnreachable
| OnConnect
| OnConnectFail (err : Z)
| OnDisconnect (reason : Z)
| OnDatagram (data : list Z)
| OnTick (now : Z)
| OnTimestampDeltaUpdate
| PostDisconnect (reason : Z)
| TransportDisconnected
| Close
| TickTransport (now : Z)
| WriteUnreliableOOB (opcode : Z) (data : list Z)
| DontFragment (df : bool)
| PostMTUProbe (payload_bytes : Z).

(** What a call reads from its environment: the clock, and whether the
    buffer allocation, the socket post, setting the DF bit and the first MTU
    probe of a pair succeed. *)
Record Env := mkEnv {
  msec : Z;
  acquire_ok : bool;
  post_ok : bool;
  dont_fragment_ok : bool;
  probe_ok : bool
}.

(** *** Clock synchronisation state *)

Record TimesPingSample := mkSample { when : Z; rtt : Z; delta : Z }.

(** A [double] is carried as an exact rational in lowest terms: rounding is
    not modelled.  The results below that name a [double] concern the value
    0 and quotients of integers that divide exactly, on which binary64
    arithmetic rounds nothing. *)
Definition double := Q.
Definition double_of_s64 (z : Z) : double := inject_Z z.
Definition dmul (a b : double) : double := Qred (a * b).
Definition dsub (a b : double) : double := Qred (a - b).
Definition ddiv (a b : double) : double := Qred (a / b).
(** [(s32)x] for a double [x]: truncation toward zero. *)
Definition double_to_s32 (x : double) : Z := s32 (Z.quot (Qnum x) (Zpos (Qden x))).

Record ClockSync := mkClockSync {
  _ts_base : Z;
  _ts_B0 : double;
  _ts_B1 : Z;
  _ts_sample_count : Z;
  _ts_next_index : Z;
  _ts_samples : list TimesPingSample;
  _ts_delta_test1 : Z;
  _ts_delta_test2 : Z
}.

(** [Client::UpdateTimeSynch] and the loops it is made of. *)
Section ClockSynchronization.

Context `{K : ClientConstants}.

Definition sample_at (samples : list TimesPingSample) (i : nat)
  : TimesPingSample := nth i samples (mkSample 0 0 0).

(** [BestSamples] holds pointers into [_ts_samples]: they are carried as the
    indices they point at.  [best_count] is the number of filled entries. *)
Record Selection := mkSel {
  BestSamples : list nat;
  highest_rtt : Z;
  highest_index : nat
}.

Definition best_count (s : Selection) : Z := Z.of_nat (length (BestSamples s)).

(** [for (ii = 1; ii < _ts_sample_count && best_count < num_samples; ++ii)] *)
Fixpoint fill_spots (fuel : nat) (samples : list TimesPingSample)
         (count num_samples ii : Z) (s : Selection) : Z * Selection :=
  match fuel with
  | O => (ii, s)
  | S fuel' =>
      if (ii <? count) && (best_count s <? num_samples) then
        let r := rtt (sample_at samples (Z.to_nat ii)) in
        let hr := if r >? highest_rtt s then r else highest_rtt s in
        let hi := if r >? highest_rtt s then Z.to_nat ii else highest_index s in
        fill_spots fuel' samples count num_samples (ii + 1)
                   (mkSel (BestSamples s ++ [Z.to_nat ii]) hr hi)
      else (ii, s)
  end.

(** [for (u32 jj = 0; jj < best_count; ++jj)]: find the new highest RTT. *)
Fixpoint rescan (samples : list TimesPingSample) (best : list nat) (jj : nat)
         (hr : Z) (hi : nat) : Z * nat :=
  match best with
  | [] => (hr, hi)
  | b :: rest =>
      let r := rtt (sample_at samples b) in
      if r >? hr then rescan samples rest (S jj) r jj
      else rescan samples rest (S jj) hr hi
  end.

(** [for (; ii < _ts_sample_count; ++ii)]: fight over spots. *)
Fixpoint fight_over_spots (fuel : nat) (samples : list TimesPingSample)
         (count ii : Z) (s : Selection) : Selection :=
  match fuel with
  | O => s
  | S fuel' =>
      if ii <? count then
        let sample_rtt := rtt (sample_at samples (Z.to_nat ii)) in
        let s' :=
          if sample_rtt <? highest_rtt s then
            let best := <[highest_index s := Z.to_nat ii]> (BestSamples s) in
            let '(hr, hi) := rescan samples best 0 sample_rtt (highest_index s) in
            mkSel best hr hi
          else s in
        fight_over_spots fuel' samples count (ii + 1) s'
      else s
  end.

(** The lowest-RTT subset: the two loops, from [BestSamples[0] = &_ts_samples[0]]. *)
Definition select_best (samples : list TimesPingSample) (count : Z) : Selection :=
  let num_samples :=
    if count / 4 <? MIN_TS_SAMPLES then MIN_TS_SAMPLES else count / 4 in
  let s0 := mkSel [0%nat] (rtt (sample_at samples 0)) 0%nat in
  let '(ii, s1) := fill_spots (Z.to_nat count) samples count num_samples 1 s0 in
  fight_over_spots (Z.to_nat count) samples count ii s1.

(** [sum_delta += BestSamples[ii]->delta], an [s64] accumulator. *)
Definition sum_best_delta (samples : list TimesPingSample) (best : list nat) : Z :=
  fold_left (fun acc b => s64 (acc + delta (sample_at samples b))) best 0.

(** The sums of the regression: [sum_when] starts from the unsigned
    difference of entry 0 and adds the signed differences of the others. *)
Definition regression_sums (samples : list TimesPingSample) (best : list nat)
           (base_time : Z) : Z * Z :=
  match best with
  | [] => (0, 0)
  | b0 :: rest =>
      fold_left
        (fun '(sum_when, sum_delta) b =>
           (s64 (sum_when + s32 (when (sample_at samples b) - base_time)),
            s64 (sum_delta + delta (sample_at samples b))))
        rest
        (u32 (when (sample_at samples b0) - base_time),
         delta (sample_at samples b0))
  end.

(** [B0_numerator] and [B0_denominator]. *)
Definition regression_terms (samples : list TimesPingSample) (best : list nat)
           (base_time n sum_when sum_delta : Z) : Z * Z :=
  fold_left
    (fun '(B0_numerator, B0_denominator) b =>
       let when_term :=
         s64 (s64 (u32 (when (sample_at samples b) - base_time) * n) - sum_when) in
       let delta_term :=
         s64 (s64 (delta (sample_at samples b) * n) - sum_delta) in
       (s64 (B0_numerator + s64 (when_term * delta_term)),
        s64 (B0_denominator + s64 (when_term * when_term))))
    best (0, 0).

Definition UpdateTimeSynch (pong_time rtt_ delta_ : Z) (ts : ClockSync) : ClockSync :=
  (* Increment the sample count if the array is not exhausted *)
  let count :=
    if _ts_sample_count ts <? MAX_TS_SAMPLES then u32 (_ts_sample_count ts + 1)
    else _ts_sample_count ts in
  (* Insert sample *)
  let samples :=
    <[Z.to_nat (_ts_next_index ts) := mkSample pong_time rtt_ delta_]> (_ts_samples ts) in
  let next_index := u32 (_ts_next_index ts + 1) mod MAX_TS_SAMPLES in
  if count <=? 1 then
    mkClockSync (_ts_base ts) 0%Q delta_ count next_index samples
                (_ts_delta_test1 ts) (_ts_delta_test2 ts)
  else
    let sel := select_best samples count in
    let best := BestSamples sel in
    let n := best_count sel in
    (* the average delta, published first *)
    let sum_delta := sum_best_delta samples best in
    let test2 :=
      if existsb (fun b => delta (sample_at samples b) =? delta_) best
      then delta_ else _ts_delta_test2 ts in
    let avg_delta := u32 (Z.quot sum_delta n) in
    if n <? MIN_DRIFT_SAMPLES then
      mkClockSync (_ts_base ts) 0%Q (s32 avg_delta) count next_index samples
                  avg_delta test2
    else
      let base_time :=
        u32 (pong_time - MAX_TS_SAMPLES * TIME_SYNC_INTERVAL - TIME_SYNC_INTERVAL) in
      let '(sum_when, sum_delta) := regression_sums samples best base_time in
      let '(B0_numerator, B0_denominator) :=
        regression_terms samples best base_time n sum_when sum_delta in
      if B0_denominator <=? 0 then
        mkClockSync (_ts_base ts) 0%Q delta_ count next_index samples
                    avg_delta test2
      else
        let B0 := ddiv (double_of_s64 B0_numerator) (double_of_s64 B0_denominator) in
        let B1 :=
          double_to_s32
            (ddiv (dsub (double_of_s64 sum_delta) (dmul B0 (double_of_s64 sum_when)))
                  (double_of_s64 n)) in
        mkClockSync base_time B0 B1 count next_index samples avg_delta test2.

End ClockSynchronization.

(** *** The client object and its member functions *)
Section ClientModel.

Context `{K : ClientConstants} `{X : Collaborators}.

Record Client := mkClient {
  _connected : bool;
  _destroyed : Z;
  _kill_flag : bool;
  _server_addr : NetAddr;
  _auth_enc : AuthenticatedEncryption;
  _key_agreement_initiator : KeyAgreementInitiator;
  _session_key : list Z;
  _server_public_key : list Z;
  _cached_challenge : list Z;
  _last_send_mstsc : Z;
  _last_recv_tsc : Z;
  _max_payload_bytes : Z;
  _overhead_bytes : Z;
  _ts : ClockSync;
  trace : list Event
}.

Definition set_connected (b : bool) (c : Client) : Client :=
  mkClient b (_destroyed c) (_kill_flag c) (_server_addr c) (_auth_enc c)
           (_key_agreement_initiator c) (_session_key c)
           (_server_public_key c) (_cached_challenge c) (_last_send_mstsc c)
           (_last_recv_tsc c) (_max_payload_bytes c) (_overhead_bytes c)
           (_ts c) (trace c).

Definition set_destroyed (v : Z) (c : Client) : Client :=
  mkClient (_connected c) v (_kill_flag c) (_server_addr c) (_auth_enc c)
           (_key_agreement_initiator c) (_session_key c)
           (_server_public_key c) (_cached_challenge c) (_last_send_mstsc c)
           (_last_recv_tsc c) (_max_payload_bytes c) (_overhead_bytes c)
           (_ts c) (trace c).

Definition set_kill_flag (b : bool) (c : Client) : Client :=
  mkClient (_connected c) (_destroyed c) b (_server_addr c) (_auth_enc c)
           (_key_agreement_initiator c) (_session_key c)
           (_server_public_key c) (_cached_challenge c) (_last_send_mstsc c)
           (_last_recv_tsc c) (_max_payload_bytes c) (_overhead_bytes c)
           (_ts c) (trace c).

Definition set_server_addr (a : NetAddr) (c : Client) : Client :=
  mkClient (_connected c) (_destroyed c) (_kill_flag c) a (_auth_enc c)
           (_key_agreement_initiator c) (_session_key c)
           (_server_public_key c) (_cached_challenge c) (_last_send_mstsc c)
           (_last_recv_tsc c) (_max_payload_bytes c) (_overhead_bytes c)
           (_ts c) (trace c).

Definition set_auth_enc (ae : AuthenticatedEncryption) (c : Client) : Client :=
  mkClient (_connected c) (_destroyed c) (_kill_flag c) (_server_addr c) ae
           (_key_agreement_initiator c) (_session_key c)
           (_server_public_key c) (_cached_challenge c) (_last_send_mstsc c)
           (_last_recv_tsc c) (_max_payload_bytes c) (_overhead_bytes c)
           (_ts c) (trace c).

Definition set_last_send_mstsc (t : Z) (c : Client) : Client :=
  mkClient (_connected c) (_destroyed c) (_kill_flag c) (_server_addr c)
           (_auth_enc c) (_key_agreement_initiator c) (_session_key c)
           (_server_public_key c) (_cached_challenge c) t (_last_recv_tsc c)
           (_max_payload_bytes c) (_overhead_bytes c) (_ts c) (trace c).

Definition set_last_recv_tsc (t : Z) (c : Client) : Client :=
  mkClient (_connected c) (_destroyed c) (_kill_flag c) (_server_addr c)
           (_auth_enc c) (_key_agreement_initiator c) (_session_key c)
           (_server_public_key c) (_cached_challenge c) (_last_send_mstsc c) t
           (_max_payload_bytes c) (_overhead_bytes c) (_ts c) (trace c).

Definition set_max_payload_bytes (v : Z) (c : Client) : Client :=
  mkClient (_connected c) (_destroyed c) (_kill_flag c) (_server_addr c)
           (_auth_enc c) (_key_agreement_initiator c) (_session_key c)
           (_server_public_key c) (_cached_challenge c) (_last_send_mstsc c)
           (_last_recv_tsc c) v (_overhead_bytes c) (_ts c) (trace c).

Definition set_ts (ts : ClockSync) (c : Client) : Client :=
  mkClient (_connected c) (_destroyed c) (_kill_flag c) (_server_addr c)
           (_auth_enc c) (_key_agreement_initiator c) (_session_key c)
           (_server_public_key c) (_cached_challenge c) (_last_send_mstsc c)
           (_last_recv_tsc c) (_max_payload_bytes c) (_overhead_bytes c) ts
           (trace c).

(** Append one call to the trace. *)
Definition emit (ev : Event) (c : Client) : Client :=
  mkClient (_connected c) (_destroyed c) (_kill_flag c) (_server_addr c)
           (_auth_enc c) (_key_agreement_initiator c) (_session_key c)
           (_server_public_key c) (_cached_challenge c) (_last_send_mstsc c)
           (_last_recv_tsc c) (_max_payload_bytes c) (_overhead_bytes c)
           (_ts c) (trace c ++ [ev]).

(** Modelled from the spec: [Atomic::Set(&_destroyed, v)], whose header is
    not among the sources, is the one-shot atomic of the specification: it
    stores [v] and returns the value it replaced. *)
Definition Atomic_Set_destroyed (v : Z) (c : Client) : Z * Client :=
  (_destroyed c, set_destroyed v c).

(** [Client::Disconnect(u8 reason, bool notify)] *)
Definition Disconnect (reason : Z) (notify : bool) (c : Client) : Client :=
  let '(old, c) := Atomic_Set_destroyed 1 c in
  if old =? 0 then
    let c := if notify then emit (PostDisconnect reason) c else c in
    let c := emit TransportDisconnected c in
    let c := emit (OnDisconnect reason) c in
    let c := set_kill_flag true c in
    emit Close c
  else c.

(** [Client::ConnectFail(HandshakeError err)] *)
Definition ConnectFail (err : Z) (c : Client) : Client :=
  let '(old, c) := Atomic_Set_destroyed 1 c in
  if old =? 0 then
    let c := emit TransportDisconnected c in
    let c := emit (OnConnectFail err) c in
    let c := set_kill_flag true c in
    emit Close c
  else c.

(** [Client::OnUnreachable(const NetAddr &src)] *)
Definition OnUnreachable (src : NetAddr) (c : Client) : Client :=
  if negb (_connected c) && EqualsIPOnly (_server_addr c) src
  then ConnectFail ERR_CLIENT_ICMP c
  else c.

(** The challenge packet [OnRead] builds from a cookie packet. *)
Definition challenge_packet (data : list Z) (c : Client) : list Z :=
  [C2S_CHALLENGE] ++ le_bytes 4 PROTOCOL_MAGIC ++ slice data 1 4
    ++ firstn (Z.to_nat CHALLENGE_BYTES) (_cached_challenge c).

(** [Client::OnRead(tls, src, data, bytes)]; [bytes] is the length of [data]. *)
Definition OnRead (e : Env) (src : NetAddr) (data : list Z) (c : Client) : Client :=
  let bytes := Z.of_nat (length data) in
  (* If packet source is not the server, ignore this packet *)
  if negb (NetAddr_eqb (_server_addr c) src) then c
  else if _connected c then
    let '(ok, ae, plain) := Decrypt (_auth_enc c) data in
    let c := set_auth_enc ae c in
    if ok then emit (OnDatagram plain) (set_last_recv_tsc (msec e) c)
    else c
  else if (bytes =? S2C_COOKIE_LEN) && (byte_at data 0 =? S2C_COOKIE) then
    if negb (acquire_ok e) then ConnectFail ERR_CLIENT_OUT_OF_MEMORY c
    else
      let c := emit IgnoreUnreachable c in
      if post_ok e then emit (Post (_server_addr c) (challenge_packet data c)) c
      else ConnectFail ERR_CLIENT_BROKEN_PIPE c
  else if (bytes =? S2C_ANSWER_LEN) && (byte_at data 0 =? S2C_ANSWER) then
    let server_session_port := le_decode (slice data 1 2) in
    (* Ignore packet if the port doesn't make sense *)
    if server_session_port >? GetPort (_server_addr c) then
      match ProcessAnswer (_key_agreement_initiator c)
                          (slice data 3 (Z.to_nat ANSWER_BYTES)) with
      | Some key_hash =>
          let '(ok, ae) := KeyEncryption (_key_agreement_initiator c) key_hash
                                         (_auth_enc c) (_session_key c) in
          let c := set_auth_enc ae c in
          if ok then
            let c := set_connected true c in
            let c := set_server_addr (SetPort server_session_port (_server_addr c)) c in
            emit OnConnect c
          else c
      | None => c
      end
    else c
  else if (bytes =? S2C_ERROR_LEN) && (byte_at data 0 =? S2C_ERROR) then
    let err := byte_at data 1 in
    if err <=? ERR_NUM_CLIENT_ERRORS then c
    else ConnectFail err c
  else c.

(** The hello packet. *)
Definition hello_packet (c : Client) : list Z :=
  [C2S_HELLO] ++ le_bytes 4 PROTOCOL_MAGIC
    ++ firstn (Z.to_nat PUBLIC_KEY_BYTES) (_server_public_key c).

(** [Client::PostHello()] *)
Definition PostHello (e : Env) (c : Client) : bool * Client :=
  if _connected c then (false, c)
  else if negb (acquire_ok e) then (false, c)
  else if negb (post_ok e) then (false, c)
  else (true, emit (Post (_server_addr c) (hello_packet c)) c).

(** [Client::PostPacket(buffer, buf_bytes, msg_bytes)] *)
Definition PostPacket (e : Env) (buffer : list Z) (c : Client) : bool * Client :=
  let '(ok, ae, cipher) := Encrypt (_auth_enc c) buffer in
  let c := set_auth_enc ae c in
  if negb ok then (false, c)
  else if post_ok e then
    (true, set_last_send_mstsc (msec e) (emit (Post (_server_addr c) cipher) c))
  else (false, c).

(** [Client::OnInternal(tls, data, bytes)].  The [switch] on [data[0]] reads
    as a cascade over its three case labels.  The diagnostic output of the
    pong case (log lines and the CSV file) is left out. *)
Definition OnInternal (e : Env) (data : list Z) (c : Client) : Client :=
  let bytes := Z.of_nat (length data) in
  let opcode := byte_at data 0 in
  if opcode =? IOP_S2C_MTU_SET then
    if bytes =? IOP_S2C_MTU_SET_LEN then
      let max_payload_bytes := le_decode (slice data 1 2) in
      (* If new maximum payload is greater than the previous one *)
      if max_payload_bytes >? _max_payload_bytes c
      then set_max_payload_bytes max_payload_bytes c
      else c
    else c
  else if opcode =? IOP_S2C_TIME_PONG then
    if bytes =? IOP_S2C_TIME_PONG_LEN then
      let client_now := msec e in
      let client_ping_send_time := le_decode (slice data 1 4) in
      let server_ping_recv_time := le_decode (slice data 5 4) in
      let rtt_ := u32 (client_now - client_ping_send_time) in
      (* If RTT is not impossible *)
      if rtt_ <? TIMEOUT_DISCONNECT then
        let delta_ := s32 (server_ping_recv_time - client_ping_send_time - rtt_ / 2) in
        emit OnTimestampDeltaUpdate
             (set_ts (UpdateTimeSynch client_now rtt_ delta_ (_ts c)) c)
      else c
    else c
  else if opcode =? IOP_DISCO then
    if bytes =? IOP_DISCO_LEN then Disconnect (byte_at data 1) false c
    else c
  else c.

(** How one pass through the body of a loop of [ThreadFunction] ends. *)
Inductive LoopStep := Returns (result : bool) | Breaks | Continues.

(** *** The handshake loop of [Client::ThreadFunction] *)

(** The loop's local variables. *)
Record HelloLoop := mkHelloLoop {
  first_hello_post : Z;
  last_hello_post : Z;
  hello_post_interval : Z
}.

(** [start_time = Clock::msec_fast()] and the three initialisations. *)
Definition hello_loop_start (start_time : Z) : HelloLoop :=
  mkHelloLoop start_time start_time INITIAL_HELLO_POST_INTERVAL.

(** One pass through [while (!_connected) { ... }], entered with the client
    as it stands when [_kill_flag.Wait(HANDSHAKE_TICK_RATE)] comes back:
    [Wait] answers whether the flag is set. *)
Definition handshake_tick (e : Env) (l : HelloLoop) (c : Client)
  : LoopStep * HelloLoop * Client :=
  if _kill_flag c then (Returns false, l, c)
  else if _connected c then (Breaks, l, c)
  else
    let now := msec e in
    (* If connection timed out *)
    if u32 (now - first_hello_post l) >=? CONNECT_TIMEOUT then
      (Returns false, l, ConnectFail ERR_CLIENT_TIMEOUT c)
    (* If time to repost hello packet *)
    else if u32 (now - last_hello_post l) >=? hello_post_interval l then
      let '(posted, c) := PostHello e c in
      if negb posted then
        (Returns false, l, ConnectFail ERR_CLIENT_BROKEN_PIPE c)
      else
        (Continues,
         mkHelloLoop (first_hello_post l) now (u32 (hello_post_interval l * 2)),
         emit (OnTick now) c)
    else (Continues, l, emit (OnTick now) c).

(** The loop over the ticks that happen, one environment reading per tick,
    from the loop's initial variables. *)
Fixpoint handshake_loop (ticks : list Env) (l : HelloLoop) (c : Client)
  : LoopStep * HelloLoop * Client :=
  match ticks with
  | [] => (Continues, l, c)
  | e :: rest =>
      match handshake_tick e l c with
      | (Continues, l', c') => handshake_loop rest l' c'
      | stopped => stopped
      end
  end.

(** *** The session loop of [Client::ThreadFunction]

    Calls into the transport layer ([TickTransport], [WriteUnreliableOOB],
    [PostMTUProbe], [DontFragment]) are recorded in the trace. *)

Record SessionLoop := mkSessionLoop {
  mtu_discovery_time : Z;
  mtu_discovery_attempts : Z;
  next_sync_time : Z;
  sync_attempts : Z
}.

(** [Client::PostTimePing()] *)
Definition PostTimePing (e : Env) (c : Client) : Client :=
  emit (WriteUnreliableOOB IOP_C2S_TIME_PING (le_bytes 4 (msec e))) c.

(** [!PostMTUProbe(tls, hi) || !PostMTUProbe(tls, lo)]: the second probe is
    posted only when the first one succeeded. *)
Definition post_probe_pair (e : Env) (hi lo : Z) (c : Client) : Client :=
  let c := emit (PostMTUProbe (u16 hi)) c in
  if probe_ok e then emit (PostMTUProbe (u16 lo)) c else c.

(** From the end of the handshake loop to the head of the session loop; the
    two clock readings of this stretch are taken as one. *)
Definition session_start (e : Env) (c : Client) : SessionLoop * Client :=
  let c := emit (DontFragment true) c in
  let '(attempts, c) :=
    if negb (dont_fragment_ok e) then (0, c)
    else (2, post_probe_pair e MAXIMUM_MTU MEDIUM_MTU c) in
  (mkSessionLoop (msec e) attempts (msec e) 0, set_last_recv_tsc (msec e) c).

(** One pass through [while (!_kill_flag.Wait(Transport::TICK_RATE)) { ... }]. *)
Definition session_tick (e : Env) (l : SessionLoop) (c : Client)
  : LoopStep * SessionLoop * Client :=
  if _kill_flag c then (Returns true, l, c)
  else
    let now := msec e in
    let c := emit (TickTransport now) c in
    (* If it is time for time synch *)
    let '(l, c) :=
      if s32 (now - next_sync_time l) >=? 0 then
        let c := PostTimePing e c in
        if sync_attempts l >=? TIME_SYNC_FAST_COUNT then
          (mkSessionLoop (mtu_discovery_time l) (mtu_discovery_attempts l)
                         (u32 (now + TIME_SYNC_INTERVAL)) (sync_attempts l), c)
        else
          (mkSessionLoop (mtu_discovery_time l) (mtu_discovery_attempts l)
                         (u32 (now + TIME_SYNC_FAST)) (u32 (sync_attempts l + 1)), c)
      else (l, c) in
    (* If MTU discovery attempts continue *)
    let '(l, c) :=
      if (mtu_discovery_attempts l >? 0)
         && (u32 (now - mtu_discovery_time l) >=? MTU_PROBE_INTERVAL) then
        if _max_payload_bytes c >=? u32 (MAXIMUM_MTU - _overhead_bytes c) then
          (mkSessionLoop (mtu_discovery_time l) 0 (next_sync_time l) (sync_attempts l),
           emit (DontFragment false) c)
        else if mtu_discovery_attempts l >? 1 then
          (mkSessionLoop now (mtu_discovery_attempts l - 1)
                         (next_sync_time l) (sync_attempts l),
           post_probe_pair e (MAXIMUM_MTU - _overhead_bytes c)
                           (MEDIUM_MTU - _overhead_bytes c) c)
        else
          (mkSessionLoop (mtu_discovery_time l) 0 (next_sync_time l) (sync_attempts l),
           emit (DontFragment false) c)
      else (l, c) in
    (* If no packets have been received: the [s32] difference is compared
       with a [u32] constant, hence as unsigned values *)
    if u32 (s32 (now - _last_recv_tsc c)) >=? TIMEOUT_DISCONNECT then
      (Returns true, l, Disconnect DISCO_TIMEOUT true c)
    else
      let c := emit (OnTick now) c in
      (* Send a keep-alive after the silence limit expires *)
      if s32 (now - _last_send_mstsc c) >=? SILENCE_LIMIT then
        (Continues,
         mkSessionLoop (mtu_discovery_time l) (mtu_discovery_attempts l)
                       (u32 (now + TIME_SYNC_INTERVAL)) (sync_attempts l),
         PostTimePing e c)
      else (Continues, l, c).

(** *** Calls on a client, in sequence *)

(** A call of one of the two teardown functions. *)
Inductive Teardown :=
| CallDisconnect (reason : Z) (notify : bool)
| CallConnectFail (err : Z).

(** The upcall the call makes if it wins. *)
Definition upcall_of (t : Teardown) : Event :=
  match t with
  | CallDisconnect reason _ => OnDisconnect reason
  | CallConnectFail err => OnConnectFail err
  end.

Definition is_teardown_upcall (ev : Event) : bool :=
  match ev with
  | OnDisconnect _ | OnConnectFail _ => true
  | _ => false
  end.

Definition teardown (t : Teardown) (c : Client) : Client :=
  match t with
  | CallDisconnect reason notify => Disconnect reason notify c
  | CallConnectFail err => ConnectFail err c
  end.

(** The calls of a list, one after the other. *)
Definition teardowns (ts : list Teardown) (c : Client) : Client :=
  fold_left (fun c t => teardown t c) ts c.

(** The teardown upcalls made so far. *)
Definition teardown_upcalls (c : Client) : list Event :=
  filter (fun ev => is_teardown_upcall ev = true) (trace c).

(** Several threads may call the teardown functions at once.  A call then
    runs as a sequence of statements of its own, interleaved with those of
    the other calls: first the exchange on [_destroyed], then, for the caller
    that read 0, the body of the [if], one statement at a time. *)
Inductive Stmt :=
| SExchange (t : Teardown)
| SEmit (ev : Event)
| SKill.

Definition body_of (t : Teardown) : list Stmt :=
  match t with
  | CallDisconnect reason notify =>
      (if notify then [SEmit (PostDisconnect reason)] else [])
        ++ [SEmit TransportDisconnected; SEmit (OnDisconnect reason); SKill; SEmit Close]
  | CallConnectFail err =>
      [SEmit TransportDisconnected; SEmit (OnConnectFail err); SKill; SEmit Close]
  end.

(** A thread is the list of statements it has yet to run. *)
Definition thread_of (t : Teardown) : list Stmt := [SExchange t].

(** Thread [i] runs its next statement. *)
Definition thread_step (i : nat) (st : list (list Stmt) * Client)
  : list (list Stmt) * Client :=
  let '(threads, c) := st in
  match threads !! i with
  | Some (SExchange t :: _) =>
      let '(old, c') := Atomic_Set_destroyed 1 c in
      (<[i := if old =? 0 then body_of t else []]> threads, c')
  | Some (SEmit ev :: rest) => (<[i := rest]> threads, emit ev c)
  | Some (SKill :: rest) => (<[i := rest]> threads, set_kill_flag true c)
  | Some [] | None => st
  end.

(** The threads run in the order a schedule names them. *)
Definition interleave (schedule : list nat) (st : list (list Stmt) * Client)
  : list (list Stmt) * Client :=
  fold_left (fun st i => thread_step i st) schedule st.

(** The calls that reach a client once the handshake is over: datagrams and
    ICMP errors from the socket, internal messages and outgoing packets from
    the transport layer, passes of the session loop, and teardown. *)
Inductive SessionCall :=
| CallOnRead (e : Env) (src : NetAddr) (data : list Z)
| CallOnUnreachable (src : NetAddr)
| CallOnInternal (e : Env) (data : list Z)
| CallPostPacket (e : Env) (buffer : list Z)
| CallPostTimePing (e : Env)
| CallSessionTick (e : Env)
| CallTeardown (t : Teardown).

Definition session_call (call : SessionCall) (st : SessionLoop * Client)
  : SessionLoop * Client :=
  let '(l, c) := st in
  match call with
  | CallOnRead e src data => (l, OnRead e src data c)
  | CallOnUnreachable src => (l, OnUnreachable src c)
  | CallOnInternal e data => (l, OnInternal e data c)
  | CallPostPacket e buffer => (l, snd (PostPacket e buffer c))
  | CallPostTimePing e => (l, PostTimePing e c)
  | CallSessionTick e =>
      let '(_, l', c') := session_tick e l c in (l', c')
  | CallTeardown t => (l, teardown t c)
  end.

Definition session_calls (calls : list SessionCall) (st : SessionLoop * Client)
  : SessionLoop * Client :=
  fold_left (fun st call => session_call call st) calls st.

(** *** Starting a connection: [Client::Connect] and [Client::OnResolve] *)

(** What [Connect] reads from its environment: whether [Bind] and
    [StartThread] succeed, what [Is6()] answers, what [Convert] makes of the
    server address (nothing, if it fails), the payload size
    [InitializePayloadBytes] sets, and what [PostHello] meets.  Of these
    calls only the hello post and [Close] are recorded in the trace. *)
Record ConnectEnv := mkConnectEnv {
  bind_ok : bool;
  Is6 : bool;
  Convert : bool -> NetAddr -> option NetAddr;
  InitializePayloadBytes : bool -> Z;
  hello_env : Env;
  start_thread_ok : bool
}.

(** [Client::Connect(const NetAddr &addr)] *)
Definition Connect (ce : ConnectEnv) (addr : NetAddr) (c : Client)
  : bool * Client :=
  (* Validate port *)
  if GetPort addr =? 0 then (false, c)
  else
    let c := set_server_addr addr c in
    (* Attempt to bind to any port *)
    if negb (bind_ok ce) then (false, c)
    else
      (* Convert server address if needed *)
      match Convert ce (Is6 ce) (_server_addr c) with
      | None => (false, emit Close c)
      | Some converted =>
          let c := set_server_addr converted c in
          (* Initialize max payload bytes *)
          let c := set_max_payload_bytes (InitializePayloadBytes ce (Is6 ce)) c in
          (* Attempt to post hello message *)
          let '(posted, c) := PostHello (hello_env ce) c in
          if negb posted then (false, emit Close c)
          (* Attempt to start the timer thread *)
          else if negb (start_thread_ok ce) then (false, emit Close c)
          else (true, c)
      end.

(** [Client::OnResolve(hostname, array, array_length)]: [array] is the list
    of the addresses resolved. *)
Definition OnResolve (ce : ConnectEnv) (array : list NetAddr) (c : Client)
  : bool * Client :=
  match array with
  | [] => (true, emit Close c)
  | first :: _ =>
      let addr := SetPort (GetPort (_server_addr c)) first in
      let '(connected, c) := Connect ce addr c in
      if negb connected then (true, emit Close c) else (true, c)
  end.

End ClientModel.

End Sphynx.

(** * Properties *)

(** ** Machine integers *)

Module MachineIntFacts.

Import MachineInt.

Lemma u32_range z : in_u32 (u32 z).
Proof. unfold in_u32, u32. apply Z.mod_pos_bound. lia. Qed.

Lemma u32_id z : in_u32 z -> u32 z = z.
Proof. unfold in_u32, u32. intros H. apply Z.mod_small. lia. Qed.

Lemma signed_id w z : 0 < w -> - 2^(w-1) <= z < 2^(w-1) -> signed w z = z.
Proof.
  intros Hw Hz. unfold signed.
  assert (E : 2^w = 2 * 2^(w-1)).
  { replace w with (Z.succ (w - 1)) at 1 by lia. apply Z.pow_succ_r. lia. }
  assert (P : 0 < 2^(w-1)) by (apply Z.pow_pos_nonneg; lia).
  destruct (Z_lt_le_dec z 0) as [Hn|Hp].
  - assert (M : z mod 2^w = z + 2^w).
    { symmetry. apply (Z.mod_unique _ _ (-1)); lia. }
    rewrite M. destruct (Z.ltb_spec (z + 2^w) (2^(w-1))); lia.
  - rewrite Z.mod_small by lia.
    destruct (Z.ltb_spec z (2^(w-1))); lia.
Qed.

Lemma s32_id z : in_s32 z -> s32 z = z.
Proof. intros H. apply signed_id; [lia | exact H]. Qed.

Lemma s64_id z : in_s64 z -> s64 z = z.
Proof. intros H. apply signed_id; [lia | exact H]. Qed.

Lemma signed_range w z : 0 < w -> - 2^(w-1) <= signed w z < 2^(w-1).
Proof.
  intros Hw. unfold signed.
  assert (E : 2^w = 2 * 2^(w-1)).
  { replace w with (Z.succ (w - 1)) at 1 by lia. apply Z.pow_succ_r. lia. }
  assert (P : 0 < 2^(w-1)) by (apply Z.pow_pos_nonneg; lia).
  pose proof (Z.mod_pos_bound z (2^w) ltac:(lia)) as B.
  destruct (Z.ltb_spec (z mod 2^w) (2^(w-1))); lia.
Qed.

Lemma s32_range z : in_s32 (s32 z).
Proof. exact (signed_range 32 z ltac:(lia)). Qed.

Lemma s64_range z : in_s64 (s64 z).
Proof. exact (signed_range 64 z ltac:(lia)). Qed.

End MachineIntFacts.

(** ** Intrusive linked lists *)

Module LinkedListsFacts.

Import LinkedLists.

#[local] Open Scope nat_scope.

(** Three fresh objects at addresses 1, 2 and 3. *)
Definition three_objects : gmap ptr DListItem :=
  <[1 := mkItem null null]> (<[2 := mkItem null null]> (<[3 := mkItem null null]> ∅)).

(** The list [1; 2], built by the macros themselves. *)
Definition list_1_2 : option lstate :=
  match CAT_BDLL_PUSH_BACK 1 (mkL null null three_objects) with
  | Some s => CAT_BDLL_PUSH_BACK 2 s
  | None => None
  end.

Lemma list_1_2_eq :
  list_1_2 = Some (mkL 1 2 (<[2 := mkItem null 1]> (<[1 := mkItem 2 null]> three_objects))).
Proof. vm_compute. reflexivity. Qed.

Lemma list_1_2_well_formed s : list_1_2 = Some s -> well_formed s [1; 2].
Proof.
  rewrite list_1_2_eq. intros E. injection E as E. subst s.
  unfold well_formed; simpl. split; [| repeat split; try discriminate].
  apply (bool_decide_unpack _). vm_compute. exact I.
Qed.

(** *** Walks along a well-formed list *)

Lemma load_Some h p : p <> null -> load h p = h !! p.
Proof.
  intros N. unfold load, is_null. destruct (Nat.eqb_spec p null); congruence.
Qed.

Lemma walk_chain step h l fuel :
  chain step h l null -> length l < fuel ->
  walk step fuel h (List.hd null l) = l.
Proof.
  revert fuel. induction l as [| p rest IH]; intros fuel C L.
  - destruct fuel; reflexivity.
  - destruct fuel as [| n]; [simpl in L; lia |].
    destruct C as (N & (it & E & S) & C). simpl.
    rewrite load_Some, E by exact N. rewrite S, IH; [reflexivity | exact C |].
    simpl in L. lia.
Qed.

Lemma linked_chain_next h before l after :
  linked h before l after -> chain _next h l after.
Proof.
  revert before. induction l as [| p rest IH]; intros before; [exact id |].
  intros (N & E & L). simpl. split; [exact N |]. split; [| exact (IH _ L)].
  eexists. split; [exact E | reflexivity].
Qed.

Lemma chain_same_links step h h' l after :
  (forall p, p ∈ l -> step <$> h' !! p = step <$> h !! p) ->
  chain step h l after -> chain step h' l after.
Proof.
  induction l as [| p rest IH]; intros S; [exact id |].
  intros (N & (it & E & St) & C). simpl. split; [exact N |]. split.
  - specialize (S p ltac:(left)). rewrite E in S. simpl in S.
    destruct (h' !! p) as [it' |]; [| discriminate].
    exists it'. split; [reflexivity |]. simpl in S. congruence.
  - apply IH; [| exact C]. intros q Q. apply S. right. exact Q.
Qed.

Lemma linked_allocated h before l after p :
  linked h before l after -> p ∈ l -> is_Some (h !! p).
Proof.
  revert before. induction l as [| q rest IH]; intros before L P.
  - inversion P.
  - destruct L as (_ & E & L). inversion P; subst; [eauto | exact (IH _ L ltac:(assumption))].
Qed.

Lemma linked_length h before l after :
  NoDup l -> linked h before l after -> length l <= size h.
Proof.
  intros D L. rewrite <- size_dom.
  rewrite <- (size_list_to_set (C := gset ptr) l D).
  apply subseteq_size. intros p P. rewrite elem_of_list_to_set in P.
  apply elem_of_dom. exact (linked_allocated _ _ _ _ _ L P).
Qed.

Lemma linked_inner h before l1 p a l2 after :
  linked h before (l1 ++ p :: a :: l2) after ->
  p <> null /\ a <> null /\ h !! a = Some (mkItem (List.hd after l2) p).
Proof.
  revert before. induction l1 as [| q l1 IH]; intros before.
  - intros (N & _ & Na & E & _). auto.
  - intros (_ & _ & L). exact (IH _ L).
Qed.

(** What [CAT_BDLL_INSERT_BEFORE] stores when [another] has a predecessor:
    the two members of [obj] and the [prev] member of [another], nothing
    else; [head] and [tail] stay. *)
Lemma CAT_BDLL_INSERT_BEFORE_inner s obj another it0 nx p :
  obj <> null -> another <> null -> obj <> another -> p <> null ->
  objs s !! obj = Some it0 ->
  objs s !! another = Some (mkItem nx p) ->
  CAT_BDLL_INSERT_BEFORE obj another s =
    Some (mkL (head s) (tail s)
            (<[another := mkItem nx obj]>
               (<[obj := mkItem another p]>
                  (<[obj := mkItem (_next it0) p]> (objs s))))).
Proof.
  intros No Na Noa Np Eo Ea.
  unfold CAT_BDLL_INSERT_BEFORE, store_prev, store_next.
  rewrite (load_Some _ another Na), Ea. simpl.
  rewrite (load_Some _ obj No), Eo. simpl.
  rewrite (load_Some _ obj No), lookup_insert_eq. simpl.
  rewrite (load_Some _ another Na), !lookup_insert_ne, Ea by exact Noa. simpl.
  unfold is_null. destruct (Nat.eqb_spec p null); [contradiction | reflexivity].
Qed.

(** The general form of the loss: in any well-formed list, inserting a fresh
    object before an item that has a predecessor leaves the forward walk
    from the head as it was, so the walk never reaches the object. *)
Lemma insert_before_inner_keeps_forward s l1 p another l2 obj it0 :
  well_formed s (l1 ++ p :: another :: l2) ->
  obj <> null -> objs s !! obj = Some it0 ->
  obj ∉ l1 ++ p :: another :: l2 ->
  exists s', CAT_BDLL_INSERT_BEFORE obj another s = Some s' /\
    forward s' = l1 ++ p :: another :: l2 /\ obj ∉ forward s'.
Proof.
  intros (D & Hh & _ & L) No Eo Fresh.
  destruct (linked_inner _ _ _ _ _ _ _ L) as (Np & Na & Ea).
  assert (Noa : obj <> another).
  { intros ->. apply Fresh. rewrite elem_of_app. right. right. left. }
  eexists. split.
  { exact (CAT_BDLL_INSERT_BEFORE_inner _ _ _ _ _ _ No Na Noa Np Eo Ea). }
  assert (W : forward (mkL (head s) (tail s)
              (<[another := mkItem (List.hd null l2) obj]>
                 (<[obj := mkItem another p]>
                    (<[obj := mkItem (_next it0) p]> (objs s)))))
              = l1 ++ p :: another :: l2).
  { unfold forward. cbn [head objs]. rewrite Hh. apply walk_chain.
    - apply (chain_same_links _ (objs s)); [| exact (linked_chain_next _ _ _ _ L)].
      intros q Q. assert (q <> obj) by (intros ->; exact (Fresh Q)).
      destruct (Nat.eq_dec another q) as [<- | Nq].
      + rewrite lookup_insert_eq, Ea. reflexivity.
      + rewrite !lookup_insert_ne by congruence. reflexivity.
    - rewrite !map_size_insert_Some.
      + pose proof (linked_length _ _ _ _ D L). lia.
      + eauto.
      + rewrite lookup_insert_eq. eauto.
      + rewrite !lookup_insert_ne by exact Noa. eauto. }
  split; [exact W |]. rewrite W. exact Fresh.
Qed.

Lemma chain_app step h l1 l2 after :
  chain step h l1 (List.hd after l2) -> chain step h l2 after ->
  chain step h (l1 ++ l2) after.
Proof.
  intros C1 C2. induction l1 as [| p rest IH]; [exact C2 |].
  destruct C1 as (N & (it & E & S) & C1). simpl. split; [exact N |].
  split; [| exact (IH C1)].
  exists it. split; [exact E |]. rewrite S. destruct rest; reflexivity.
Qed.

Lemma linked_chain_prev h before l after :
  linked h before l after -> chain _prev h (rev l) before.
Proof.
  revert before. induction l as [| p rest IH]; intros before; [exact id |].
  intros (N & E & L). simpl. apply chain_app; [exact (IH _ L) |].
  simpl. split; [exact N |]. split; [| exact I].
  eexists. split; [exact E | reflexivity].
Qed.

Lemma last_hd_rev (l : list ptr) d : List.last l d = List.hd d (rev l).
Proof.
  induction l as [| p rest IH]; [reflexivity |].
  simpl rev. destruct rest as [| q rest]; [reflexivity |].
  change (List.last (p :: q :: rest) d) with (List.last (q :: rest) d).
  rewrite IH. simpl. destruct (rev rest ++ [q]) eqn:E; [| reflexivity].
  destruct (rev rest); discriminate.
Qed.

Lemma elem_of_rev (q : ptr) l : q ∈ rev l <-> q ∈ l.
Proof. rewrite !list_elem_of_In. symmetry. apply in_rev. Qed.

Lemma linked_inner_after h before l1 another n l2 after :
  linked h before (l1 ++ another :: n :: l2) after ->
  another <> null /\ n <> null /\
  exists pv, h !! another = Some (mkItem n pv).
Proof.
  revert before. induction l1 as [| q l1 IH]; intros before.
  - intros (Na & E & Nn & _). eauto.
  - intros (_ & _ & L). exact (IH _ L).
Qed.

(** What [CAT_BDLL_INSERT_AFTER] stores when [another] has a successor: the
    two members of [obj] and the [next] member of [another], nothing else;
    [head] and [tail] stay. *)
Lemma CAT_BDLL_INSERT_AFTER_inner s obj another it0 n pv :
  obj <> null -> another <> null -> obj <> another -> n <> null ->
  objs s !! obj = Some it0 ->
  objs s !! another = Some (mkItem n pv) ->
  CAT_BDLL_INSERT_AFTER obj another s =
    Some (mkL (head s) (tail s)
            (<[another := mkItem obj pv]>
               (<[obj := mkItem n another]>
                  (<[obj := mkItem n (_prev it0)]> (objs s))))).
Proof.
  intros No Na Noa Nn Eo Ea.
  unfold CAT_BDLL_INSERT_AFTER, store_prev, store_next.
  rewrite (load_Some _ another Na), Ea. simpl.
  rewrite (load_Some _ obj No), Eo. simpl.
  rewrite (load_Some _ obj No), lookup_insert_eq. simpl.
  rewrite (load_Some _ another Na), !lookup_insert_ne, Ea by exact Noa. simpl.
  unfold is_null. destruct (Nat.eqb_spec n null); [contradiction | reflexivity].
Qed.

(** The same loss on the other side: inserting a fresh object after an item
    that has a successor leaves the backward walk from the tail as it was. *)
Lemma insert_after_inner_keeps_backward s l1 another n l2 obj it0 :
  well_formed s (l1 ++ another :: n :: l2) ->
  obj <> null -> objs s !! obj = Some it0 ->
  obj ∉ l1 ++ another :: n :: l2 ->
  exists s', CAT_BDLL_INSERT_AFTER obj another s = Some s' /\
    backward s' = rev (l1 ++ another :: n :: l2) /\ obj ∉ backward s'.
Proof.
  intros (D & _ & Ht & L) No Eo Fresh.
  destruct (linked_inner_after _ _ _ _ _ _ _ L) as (Na & Nn & pv & Ea).
  assert (Noa : obj <> another).
  { intros ->. apply Fresh. rewrite elem_of_app. right. left. }
  eexists. split.
  { exact (CAT_BDLL_INSERT_AFTER_inner _ _ _ _ _ _ No Na Noa Nn Eo Ea). }
  assert (W : backward (mkL (head s) (tail s)
              (<[another := mkItem obj pv]>
                 (<[obj := mkItem n another]>
                    (<[obj := mkItem n (_prev it0)]> (objs s)))))
              = rev (l1 ++ another :: n :: l2)).
  { unfold backward. cbn [tail objs]. rewrite Ht, last_hd_rev.
    apply walk_chain.
    - apply (chain_same_links _ (objs s)); [| exact (linked_chain_prev _ _ _ _ L)].
      intros q Q. rewrite elem_of_rev in Q.
      assert (q <> obj) by (intros ->; exact (Fresh Q)).
      destruct (Nat.eq_dec another q) as [<- | Nq].
      + rewrite lookup_insert_eq, Ea. reflexivity.
      + rewrite !lookup_insert_ne by congruence. reflexivity.
    - rewrite List.length_rev, !map_size_insert_Some.
      + pose proof (linked_length _ _ _ _ D L). lia.
      + eauto.
      + rewrite lookup_insert_eq. eauto.
      + rewrite !lookup_insert_ne by exact Noa. eauto. }
  split; [exact W |]. rewrite W, elem_of_rev. exact Fresh.
Qed.

(** C9, at the failing input.  The list [1; 2] is well formed.  Inserting
    object 3 before item 2, which sits after item 1, leaves the forward walk
    from the head at [1; 2]: object 3 is not on it, with either
    INSERT_BEFORE macro.  Inserting object 3 after item 1, which has a
    successor, leaves the backward walk from the tail at [2; 1].
    [insert_before_inner_keeps_forward] and
    [insert_after_inner_keeps_backward] show the same of every well-formed
    list and every inner item. *)
Theorem insert_next_to_inner_item_is_lost :
  (forall s, list_1_2 = Some s -> well_formed s [1; 2]) /\
  option_map forward (list_1_2 ≫= CAT_BDLL_INSERT_BEFORE 3 2) = Some [1; 2] /\
  option_map backward (list_1_2 ≫= CAT_BDLL_INSERT_BEFORE 3 2) = Some [2; 3; 1] /\
  option_map forward (list_1_2 ≫= CAT_FDLL_INSERT_BEFORE 3 2) = Some [1; 2] /\
  option_map forward (list_1_2 ≫= CAT_BDLL_INSERT_AFTER 3 1) = Some [1; 3; 2] /\
  option_map backward (list_1_2 ≫= CAT_BDLL_INSERT_AFTER 3 1) = Some [2; 1].
Proof.
  split; [exact list_1_2_well_formed |].
  repeat split; vm_compute; reflexivity.
Qed.

(** C10, what the code computes: each [empty()] answers [true] exactly when
    the head pointer is not null, so a cleared list answers [false]. *)
Theorem empty_answers_head_not_null :
  (forall l, DListForward_empty l = true <-> fl_head l <> null) /\
  (forall l, DList_empty l = true <-> dl_head l <> null) /\
  (forall l, SList_empty l = true <-> sl_head l <> null) /\
  (forall l, DListForward_empty (DListForward_Clear l) = false) /\
  (forall l, DList_empty (DList_Clear l) = false) /\
  (forall l, SList_empty (SList_Clear l) = false).
Proof.
  assert (E : forall p : ptr, negb (Nat.eqb p 0) = true <-> p <> null).
  { intros p. unfold null. destruct (Nat.eqb_spec p 0); simpl; split; congruence. }
  unfold DListForward_empty, DList_empty, SList_empty.
  repeat apply conj; intros; try apply E; reflexivity.
Qed.

(** *** The macros keep a list well formed where they insert at an end *)

Lemma store_next_Some h p v it :
  p <> null -> h !! p = Some it ->
  store_next p v h = Some (<[p := mkItem v (_prev it)]> h).
Proof. intros N E. unfold store_next. rewrite load_Some, E by exact N. reflexivity. Qed.

Lemma store_prev_Some h p v it :
  p <> null -> h !! p = Some it ->
  store_prev p v h = Some (<[p := mkItem (_next it) v]> h).
Proof. intros N E. unfold store_prev. rewrite load_Some, E by exact N. reflexivity. Qed.

Lemma is_null_false p : p <> null -> is_null p = false.
Proof. intros N. unfold is_null. destruct (Nat.eqb_spec p null); congruence. Qed.

Lemma linked_frame h h' before l after :
  (forall p, p ∈ l -> h' !! p = h !! p) ->
  linked h before l after -> linked h' before l after.
Proof.
  revert before. induction l as [| p rest IH]; intros before F; [exact id |].
  intros (N & E & L). simpl. split; [exact N |]. split.
  - rewrite F by left. exact E.
  - apply IH; [| exact L]. intros q Q. apply F. right. exact Q.
Qed.

Lemma last_cons (l : list ptr) p d : List.last (p :: l) d = List.last l p.
Proof.
  revert p d. induction l as [| q l IH]; intros p d; [reflexivity |].
  change (List.last (p :: q :: l) d) with (List.last (q :: l) d).
  rewrite !IH. reflexivity.
Qed.

Lemma hd_app (l1 l2 : list ptr) d :
  List.hd d (l1 ++ l2) = List.hd (List.hd d l2) l1.
Proof. destruct l1; reflexivity. Qed.

Lemma last_app (l1 l2 : list ptr) d :
  List.last (l1 ++ l2) d = List.last l2 (List.last l1 d).
Proof.
  revert d. induction l1 as [| p l1 IH]; intros d; [reflexivity |].
  change ((p :: l1) ++ l2) with (p :: l1 ++ l2).
  rewrite !last_cons. apply IH.
Qed.

Lemma linked_app h before l1 l2 after :
  linked h before (l1 ++ l2) after <->
  linked h before l1 (List.hd after l2) /\ linked h (List.last l1 before) l2 after.
Proof.
  revert before. induction l1 as [| p rest IH]; intros before.
  - simpl. tauto.
  - change ((p :: rest) ++ l2) with (p :: rest ++ l2).
    cbn [linked]. rewrite IH, hd_app, last_cons. tauto.
Qed.

Lemma well_formed_walks s l :
  well_formed s l -> forward s = l /\ backward s = rev l.
Proof.
  intros (D & Hh & Ht & L).
  pose proof (linked_length _ _ _ _ D L) as Len. split.
  - unfold forward. rewrite Hh. apply walk_chain; [| lia].
    exact (linked_chain_next _ _ _ _ L).
  - unfold backward. rewrite Ht, last_hd_rev. apply walk_chain.
    + exact (linked_chain_prev _ _ _ _ L).
    + rewrite List.length_rev. lia.
Qed.

Lemma CAT_BDLL_PUSH_FRONT_spec s l obj it0 :
  well_formed s l -> obj <> null -> objs s !! obj = Some it0 -> obj ∉ l ->
  exists s', CAT_BDLL_PUSH_FRONT obj s = Some s' /\ well_formed s' (obj :: l).
Proof.
  intros (D & Hh & Ht & L) No Eo Fresh. unfold CAT_BDLL_PUSH_FRONT.
  rewrite (store_prev_Some _ _ _ _ No Eo).
  rewrite (store_next_Some _ _ _ _ No (lookup_insert_eq _ _ _)).
  cbn [_next _prev].
  destruct l as [| p rest].
  - simpl in Hh. rewrite Hh. simpl. eexists. split; [reflexivity |].
    split; [apply NoDup_singleton |]. repeat split; try exact No.
    cbn [objs]. apply lookup_insert_eq.
  - destruct L as (Np & Ep & L). simpl in Hh. rewrite Hh.
    assert (Nop : obj <> p) by (intros ->; apply Fresh; left).
    rewrite (is_null_false _ Np).
    erewrite store_prev_Some; [| exact Np |].
    2:{ rewrite !lookup_insert_ne by exact Nop. exact Ep. }
    eexists. split; [reflexivity |]. split; [| split; [reflexivity |]; split].
    + apply NoDup_cons. split; [exact Fresh | exact D].
    + cbn [tail]. rewrite Ht, (last_cons (p :: rest)). rewrite !last_cons. reflexivity.
    + cbn [objs linked List.hd _next]. split; [exact No |]. split.
      { rewrite lookup_insert_ne, lookup_insert_eq by congruence. reflexivity. }
      split; [exact Np |]. split; [apply lookup_insert_eq |].
      apply (linked_frame (objs s)); [| exact L].
      intros q Q. apply NoDup_cons in D as (Dp & _).
      rewrite !lookup_insert_ne; [reflexivity | | |];
        intros ->; (apply Dp; exact Q) || (apply Fresh; right; exact Q).
Qed.

Lemma list_snoc_cases (l : list ptr) : l = [] \/ exists l' t, l = l' ++ [t].
Proof.
  destruct l as [| p rest]; [left; reflexivity | right].
  destruct (exists_last (l := p :: rest) ltac:(discriminate)) as (l' & t & E).
  eauto.
Qed.

Lemma linked_last h before l t after :
  linked h before (l ++ [t]) after ->
  t <> null /\ h !! t = Some (mkItem after (List.last l before)) /\
  linked h before l t.
Proof.
  rewrite linked_app. intros (L1 & Nt & Et & _). auto.
Qed.

Lemma linked_snoc h before l t after :
  linked h before l t -> t <> null ->
  h !! t = Some (mkItem after (List.last l before)) ->
  linked h before (l ++ [t]) after.
Proof.
  intros L N E. apply linked_app. split; [exact L |]. simpl. auto.
Qed.

Lemma CAT_BDLL_PUSH_BACK_spec s l obj it0 :
  well_formed s l -> obj <> null -> objs s !! obj = Some it0 -> obj ∉ l ->
  exists s', CAT_BDLL_PUSH_BACK obj s = Some s' /\ well_formed s' (l ++ [obj]).
Proof.
  intros (D & Hh & Ht & L) No Eo Fresh. unfold CAT_BDLL_PUSH_BACK.
  rewrite (store_prev_Some _ _ _ _ No Eo).
  rewrite (store_next_Some _ _ _ _ No (lookup_insert_eq _ _ _)).
  cbn [_next _prev].
  destruct (list_snoc_cases l) as [-> | (l' & t & ->)].
  - simpl in Ht. rewrite Ht. simpl. eexists. split; [reflexivity |].
    split; [apply NoDup_singleton |]. repeat split; try exact No.
    cbn [objs]. apply lookup_insert_eq.
  - destruct (linked_last _ _ _ _ _ L) as (Nt & Et & L').
    rewrite List.last_last in Ht. rewrite Ht.
    assert (Not : obj <> t).
    { intros ->. apply Fresh. rewrite elem_of_app. right. left. }
    rewrite (is_null_false _ Nt).
    erewrite store_next_Some; [| exact Nt |].
    2:{ rewrite !lookup_insert_ne by exact Not. exact Et. }
    eexists. split; [reflexivity |]. split; [| split; [| split]].
    + apply NoDup_app. split; [exact D |]. split; [| apply NoDup_singleton].
      intros q Q Q'. apply list_elem_of_singleton in Q'. subst q. exact (Fresh Q).
    + cbn [head]. rewrite Hh, <- app_assoc, !hd_app. reflexivity.
    + cbn [tail]. rewrite List.last_last. reflexivity.
    + cbn [objs _prev]. apply linked_snoc; [apply linked_snoc | exact No |].
      * apply (linked_frame (objs s)); [| exact L'].
        apply NoDup_app in D as (_ & Dt & _).
        intros q Q. rewrite !lookup_insert_ne; [reflexivity | | |];
          intros ->; first [ apply (Dt _ Q); left
                           | apply Fresh; rewrite elem_of_app; left; exact Q ].
      * exact Nt.
      * apply lookup_insert_eq.
      * rewrite List.last_last, lookup_insert_ne, lookup_insert_eq by congruence.
        reflexivity.
Qed.

Lemma CAT_BDLL_INSERT_BEFORE_head s another rest obj it0 :
  well_formed s (another :: rest) ->
  obj <> null -> objs s !! obj = Some it0 -> obj ∉ another :: rest ->
  exists s', CAT_BDLL_INSERT_BEFORE obj another s = Some s' /\
    well_formed s' (obj :: another :: rest).
Proof.
  intros (D & Hh & Ht & Na & Ea & L) No Eo Fresh.
  assert (Noa : obj <> another) by (intros ->; apply Fresh; left).
  unfold CAT_BDLL_INSERT_BEFORE.
  rewrite (load_Some _ _ Na), Ea. cbn [_prev _next].
  rewrite (store_prev_Some _ _ _ _ No Eo).
  rewrite (store_next_Some _ _ _ _ No (lookup_insert_eq _ _ _)).
  cbn [_next _prev].
  rewrite (load_Some _ _ Na), !lookup_insert_ne, Ea by exact Noa.
  cbn [_prev]. change (is_null null) with true. cbn iota.
  erewrite store_prev_Some; [| exact Na |].
  2:{ rewrite !lookup_insert_ne by exact Noa. exact Ea. }
  eexists. split; [reflexivity |]. split; [| split; [reflexivity |]; split].
  - apply NoDup_cons. split; [exact Fresh | exact D].
  - cbn [tail]. rewrite Ht, !last_cons. reflexivity.
  - cbn [objs linked List.hd _next]. split; [exact No |]. split.
    { rewrite lookup_insert_ne, lookup_insert_eq by congruence. reflexivity. }
    split; [exact Na |]. split; [apply lookup_insert_eq |].
    apply (linked_frame (objs s)); [| exact L].
    intros q Q. apply NoDup_cons in D as (Dp & _).
    rewrite !lookup_insert_ne; [reflexivity | | |];
      intros ->; (apply Dp; exact Q) || (apply Fresh; right; exact Q).
Qed.

Lemma CAT_BDLL_INSERT_AFTER_tail s l another obj it0 :
  well_formed s (l ++ [another]) ->
  obj <> null -> objs s !! obj = Some it0 -> obj ∉ l ++ [another] ->
  exists s', CAT_BDLL_INSERT_AFTER obj another s = Some s' /\
    well_formed s' ((l ++ [another]) ++ [obj]).
Proof.
  intros (D & Hh & Ht & L) No Eo Fresh.
  destruct (linked_last _ _ _ _ _ L) as (Na & Ea & L').
  assert (Noa : obj <> another).
  { intros ->. apply Fresh. rewrite elem_of_app. right. left. }
  unfold CAT_BDLL_INSERT_AFTER.
  rewrite (load_Some _ _ Na), Ea. cbn [_prev _next].
  rewrite (store_next_Some _ _ _ _ No Eo).
  rewrite (store_prev_Some _ _ _ _ No (lookup_insert_eq _ _ _)).
  cbn [_next _prev].
  rewrite (load_Some _ _ Na), !lookup_insert_ne, Ea by exact Noa.
  cbn [_next]. change (is_null null) with true. cbn iota.
  erewrite store_next_Some; [| exact Na |].
  2:{ rewrite !lookup_insert_ne by exact Noa. exact Ea. }
  eexists. split; [reflexivity |]. split; [| split; [| split]].
  - apply NoDup_app. split; [exact D |]. split; [| apply NoDup_singleton].
    intros q Q Q'. apply list_elem_of_singleton in Q'. subst q. exact (Fresh Q).
  - cbn [head]. rewrite Hh, <- !app_assoc, !hd_app. reflexivity.
  - cbn [tail]. rewrite List.last_last. reflexivity.
  - cbn [objs _prev]. apply linked_snoc; [apply linked_snoc | exact No |].
    + apply (linked_frame (objs s)); [| exact L'].
      apply NoDup_app in D as (_ & Dt & _).
      intros q Q. rewrite !lookup_insert_ne; [reflexivity | | |];
        intros ->; first [ apply (Dt _ Q); left
                         | apply Fresh; rewrite elem_of_app; left; exact Q ].
    + exact Na.
    + apply lookup_insert_eq.
    + rewrite List.last_last, lookup_insert_ne, lookup_insert_eq by congruence.
      reflexivity.
Qed.

(** The first statement of the ERASE macros: the predecessor of [obj], or
    [head], takes [nx], the successor of [obj]. *)
Lemma erase_unlinks_before h hd l1 obj nx :
  NoDup l1 -> linked h null l1 obj -> hd = List.hd obj l1 ->
  exists h1,
    (if is_null (List.last l1 null) then Some (nx, h)
     else match store_next (List.last l1 null) nx h with
          | Some h1 => Some (hd, h1)
          | None => None
          end) = Some (List.hd nx l1, h1) /\
    linked h1 null l1 nx /\
    (forall q, q ∉ l1 -> h1 !! q = h !! q).
Proof.
  intros D L ->. destruct (list_snoc_cases l1) as [-> | (l' & p & ->)].
  - exists h. simpl. auto.
  - destruct (linked_last _ _ _ _ _ L) as (Np & Ep & L').
    rewrite List.last_last, (is_null_false _ Np), (store_next_Some _ _ _ _ Np Ep).
    eexists. split; [rewrite !hd_app; reflexivity |]. cbn [_prev]. split.
    + apply NoDup_app in D as (_ & Dp & _).
      apply linked_snoc; [| exact Np | apply lookup_insert_eq].
      apply (linked_frame h); [| exact L'].
      intros q Q. apply lookup_insert_ne. intros ->. apply (Dp _ Q). left.
    + intros q Q. apply lookup_insert_ne. intros ->. apply Q.
      rewrite elem_of_app. right. left.
Qed.

(** The second statement: the successor of [obj] takes [pv], the
    predecessor of [obj]. *)
Lemma erase_unlinks_after h l2 obj pv :
  NoDup l2 -> linked h obj l2 null ->
  exists h2,
    (if is_null (List.hd null l2) then Some h
     else store_prev (List.hd null l2) pv h) = Some h2 /\
    linked h2 pv l2 null /\
    (forall q, q ∉ l2 -> h2 !! q = h !! q).
Proof.
  intros D L. destruct l2 as [| n rest].
  - exists h. simpl. auto.
  - destruct L as (Nn & En & L). cbn [List.hd].
    rewrite (is_null_false _ Nn), (store_prev_Some _ _ _ _ Nn En).
    eexists. split; [reflexivity |]. cbn [_next]. split.
    + apply NoDup_cons in D as (Dn & _).
      split; [exact Nn |]. split; [apply lookup_insert_eq |].
      apply (linked_frame h); [| exact L].
      intros q Q. apply lookup_insert_ne. intros ->. exact (Dn Q).
    + intros q Q. apply lookup_insert_ne. intros ->. apply Q. left.
Qed.

Lemma NoDup_middle (l1 : list ptr) obj l2 :
  NoDup (l1 ++ obj :: l2) ->
  NoDup l1 /\ NoDup l2 /\ NoDup (l1 ++ l2) /\ (obj ∉ l1) /\ (obj ∉ l2) /\
  (forall q, q ∈ l1 -> q ∉ l2).
Proof.
  intros D.
  apply NoDup_app in D as (D1 & D12 & D2). apply NoDup_cons in D2 as (Do & D2).
  assert (Dx : forall q, q ∈ l1 -> q ∉ l2).
  { intros q Q Q'. apply (D12 _ Q). right. exact Q'. }
  repeat split; try assumption.
  - apply NoDup_app. auto.
  - intros Q. apply (D12 _ Q). left.
Qed.

Lemma CAT_BDLL_ERASE_spec s l1 obj l2 :
  well_formed s (l1 ++ obj :: l2) ->
  exists s', CAT_BDLL_ERASE obj s = Some s' /\ well_formed s' (l1 ++ l2).
Proof.
  intros (D & Hh & Ht & L).
  destruct (NoDup_middle _ _ _ D) as (D1 & D2 & D12 & O1 & O2 & Dx).
  apply linked_app in L as (L1 & No & Eo & L2). cbn [List.hd] in L1.
  rewrite hd_app in Hh. cbn [List.hd] in Hh.
  rewrite last_app, last_cons in Ht.
  destruct (erase_unlinks_before _ (head s) _ _ (List.hd null l2) D1 L1 Hh)
    as (h1 & E1 & L1' & F1).
  assert (L2' : linked h1 obj l2 null).
  { apply (linked_frame (objs s)); [| exact L2].
    intros q Q. apply F1. intros Q'. exact (Dx _ Q' Q). }
  destruct (erase_unlinks_after _ _ _ (List.last l1 null) D2 L2')
    as (h2 & E2 & L2'' & F2).
  unfold CAT_BDLL_ERASE.
  rewrite (load_Some _ _ No), Eo. cbn [_prev _next]. rewrite E1. cbn [fst snd].
  rewrite (load_Some _ _ No), (F1 _ O1), Eo. cbn [_prev _next].
  destruct l2 as [| n rest].
  - change (is_null (List.hd null [])) with true. cbn iota.
    eexists. split; [reflexivity |]. rewrite app_nil_r.
    split; [exact D1 |]. split; [reflexivity |]. split; [reflexivity | exact L1'].
  - cbn [List.hd] in *. destruct L2' as (Nn & _).
    rewrite (is_null_false _ Nn) in E2 |- *. rewrite E2.
    eexists. split; [reflexivity |]. split; [exact D12 |].
    split; [cbn [head]; rewrite hd_app; reflexivity |].
    split; [cbn [tail]; rewrite Ht, last_app, !last_cons; reflexivity |].
    cbn [objs]. apply linked_app. split; [| exact L2''].
    apply (linked_frame h1); [| exact L1'].
    intros q Q. apply F2. exact (Dx _ Q).
Qed.

Lemma CAT_FDLL_ERASE_spec s l1 obj l2 :
  well_formed_forward s (l1 ++ obj :: l2) ->
  exists s', CAT_FDLL_ERASE obj s = Some s' /\ well_formed_forward s' (l1 ++ l2).
Proof.
  intros (D & Hh & L).
  destruct (NoDup_middle _ _ _ D) as (D1 & D2 & D12 & O1 & O2 & Dx).
  apply linked_app in L as (L1 & No & Eo & L2). cbn [List.hd] in L1.
  rewrite hd_app in Hh. cbn [List.hd] in Hh.
  destruct (erase_unlinks_before _ (head s) _ _ (List.hd null l2) D1 L1 Hh)
    as (h1 & E1 & L1' & F1).
  assert (L2' : linked h1 obj l2 null).
  { apply (linked_frame (objs s)); [| exact L2].
    intros q Q. apply F1. intros Q'. exact (Dx _ Q' Q). }
  destruct (erase_unlinks_after _ _ _ (List.last l1 null) D2 L2')
    as (h2 & E2 & L2'' & F2).
  unfold CAT_FDLL_ERASE.
  rewrite (load_Some _ _ No), Eo. cbn [_prev _next]. rewrite E1. cbn [fst snd].
  rewrite (load_Some _ _ No), (F1 _ O1), Eo. cbn [_prev _next]. rewrite E2.
  eexists. split; [reflexivity |]. split; [exact D12 |].
  split; [cbn [head]; rewrite hd_app; reflexivity |].
  cbn [objs]. apply linked_app. split; [| exact L2''].
  apply (linked_frame h1); [| exact L1'].
  intros q Q. apply F2. exact (Dx _ Q).
Qed.

Lemma linked_determines h h' before l after p :
  linked h before l after -> linked h' before l after -> p ∈ l ->
  h' !! p = h !! p.
Proof.
  revert before. induction l as [| q rest IH]; intros before L L' P.
  - inversion P.
  - destruct L as (_ & E & L), L' as (_ & E' & L').
    inversion P; subst; [congruence | exact (IH _ L L' ltac:(assumption))].
Qed.

Lemma CAT_FDLL_PUSH_FRONT_spec s l obj it0 :
  well_formed_forward s l -> obj <> null -> objs s !! obj = Some it0 ->
  obj ∉ l ->
  exists s', CAT_FDLL_PUSH_FRONT obj s = Some s' /\
    well_formed_forward s' (obj :: l).
Proof.
  intros (D & Hh & L) No Eo Fresh. unfold CAT_FDLL_PUSH_FRONT.
  rewrite (store_prev_Some _ _ _ _ No Eo).
  rewrite (store_next_Some _ _ _ _ No (lookup_insert_eq _ _ _)).
  cbn [_next _prev].
  destruct l as [| p rest].
  - simpl in Hh. rewrite Hh. simpl. eexists. split; [reflexivity |].
    split; [apply NoDup_singleton |]. repeat split; try exact No.
    cbn [objs]. apply lookup_insert_eq.
  - destruct L as (Np & Ep & L). simpl in Hh. rewrite Hh.
    assert (Nop : obj <> p) by (intros ->; apply Fresh; left).
    rewrite (is_null_false _ Np).
    erewrite store_prev_Some; [| exact Np |].
    2:{ rewrite !lookup_insert_ne by exact Nop. exact Ep. }
    eexists. split; [reflexivity |]. split; [| split; [reflexivity |]].
    + apply NoDup_cons. split; [exact Fresh | exact D].
    + cbn [objs linked List.hd _next]. split; [exact No |]. split.
      { rewrite lookup_insert_ne, lookup_insert_eq by congruence. reflexivity. }
      split; [exact Np |]. split; [apply lookup_insert_eq |].
      apply (linked_frame (objs s)); [| exact L].
      intros q Q. apply NoDup_cons in D as (Dp & _).
      rewrite !lookup_insert_ne; [reflexivity | | |];
        intros ->; (apply Dp; exact Q) || (apply Fresh; right; exact Q).
Qed.

Lemma well_formed_forward_walk s l : well_formed_forward s l -> forward s = l.
Proof.
  intros (D & Hh & L). pose proof (linked_length _ _ _ _ D L).
  unfold forward. rewrite Hh. apply walk_chain; [| lia].
  exact (linked_chain_next _ _ _ _ L).
Qed.

(** *** Iteration *)

(** The two loops of the header, [for (item = head; item; item = item->next)]
    and [for (item = tail; item; item = item->prev)], visit the items of a
    well-formed list in order and in reverse order, and stop. *)
Theorem iteration_visits_the_list s l :
  well_formed s l -> forward s = l /\ backward s = rev l.
Proof.
  intros (D & Hh & Ht & L).
  pose proof (linked_length _ _ _ _ D L) as Len. split.
  - unfold forward. rewrite Hh. apply walk_chain; [| lia].
    exact (linked_chain_next _ _ _ _ L).
  - unfold backward. rewrite Ht, last_hd_rev. apply walk_chain.
    + exact (linked_chain_prev _ _ _ _ L).
    + rewrite List.length_rev. lia.
Qed.

(** An iterator stepped forward from an item that has a successor and then
    back again is on the item it left; so is one stepped back and forward. *)
Theorem iterator_there_and_back s l1 a b l2 :
  well_formed s (l1 ++ a :: b :: l2) ->
  IterateNext (objs s) a = Some b /\ IteratePrev (objs s) b = Some a /\
  IterateNext (objs s) a ≫= IteratePrev (objs s) = Some a /\
  IteratePrev (objs s) b ≫= IterateNext (objs s) = Some b.
Proof.
  intros (_ & _ & _ & L).
  apply linked_app in L as (_ & Na & Ea & Nb & Eb & _).
  assert (N : IterateNext (objs s) a = Some b).
  { unfold IterateNext. rewrite (load_Some _ _ Na), Ea. reflexivity. }
  assert (P : IteratePrev (objs s) b = Some a).
  { unfold IteratePrev. rewrite (load_Some _ _ Nb), Eb. reflexivity. }
  rewrite N, P. simpl. auto.
Qed.

(** *** The operations that keep the list *)

(** [CAT_BDLL_PUSH_FRONT] of an object that is not in the list puts it in
    front: the list stays well formed and both loops see the object. *)
Theorem push_front_prepends s l obj it0 :
  well_formed s l -> obj <> null -> objs s !! obj = Some it0 -> obj ∉ l ->
  exists s', CAT_BDLL_PUSH_FRONT obj s = Some s' /\
    well_formed s' (obj :: l) /\
    forward s' = obj :: l /\ backward s' = rev l ++ [obj].
Proof.
  intros W No Eo Fresh.
  destruct (CAT_BDLL_PUSH_FRONT_spec _ _ _ _ W No Eo Fresh) as (s' & E & W').
  exists s'. split; [exact E |]. split; [exact W' |].
  exact (well_formed_walks _ _ W').
Qed.

(** [CAT_BDLL_PUSH_BACK] appends. *)
Theorem push_back_appends s l obj it0 :
  well_formed s l -> obj <> null -> objs s !! obj = Some it0 -> obj ∉ l ->
  exists s', CAT_BDLL_PUSH_BACK obj s = Some s' /\
    well_formed s' (l ++ [obj]) /\
    forward s' = l ++ [obj] /\ backward s' = obj :: rev l.
Proof.
  intros W No Eo Fresh.
  destruct (CAT_BDLL_PUSH_BACK_spec _ _ _ _ W No Eo Fresh) as (s' & E & W').
  exists s'. split; [exact E |]. split; [exact W' |].
  destruct (well_formed_walks _ _ W') as (F & B).
  rewrite rev_app_distr in B. auto.
Qed.

(** [CAT_BDLL_ERASE] of an item of the list, wherever it sits, leaves the
    other items well formed and in their order. *)
Theorem erase_removes s l1 obj l2 :
  well_formed s (l1 ++ obj :: l2) ->
  exists s', CAT_BDLL_ERASE obj s = Some s' /\
    well_formed s' (l1 ++ l2) /\
    forward s' = l1 ++ l2 /\ backward s' = rev (l1 ++ l2) /\
    obj ∉ forward s'.
Proof.
  intros W. destruct (CAT_BDLL_ERASE_spec _ _ _ _ W) as (s' & E & W').
  exists s'. split; [exact E |]. split; [exact W' |].
  destruct (well_formed_walks _ _ W') as (F & B).
  split; [exact F |]. split; [exact B |]. rewrite F.
  destruct W as (D & _). destruct (NoDup_middle _ _ _ D) as (_ & _ & _ & O1 & O2 & _).
  rewrite elem_of_app. tauto.
Qed.

(** [CAT_BDLL_INSERT_BEFORE] at the first item and [CAT_BDLL_INSERT_AFTER]
    at the last item are the two insertions that keep the list well
    formed. *)
Theorem insert_at_an_end s l obj it0 :
  well_formed s l -> obj <> null -> objs s !! obj = Some it0 -> obj ∉ l ->
  l <> [] ->
  (exists s', CAT_BDLL_INSERT_BEFORE obj (head s) s = Some s' /\
     well_formed s' (obj :: l) /\ forward s' = obj :: l) /\
  (exists s', CAT_BDLL_INSERT_AFTER obj (tail s) s = Some s' /\
     well_formed s' (l ++ [obj]) /\ forward s' = l ++ [obj]).
Proof.
  intros W No Eo Fresh Ne. split.
  - destruct l as [| a rest]; [contradiction |].
    assert (Hh : head s = a) by (destruct W as (_ & Hh & _); exact Hh).
    rewrite Hh.
    destruct (CAT_BDLL_INSERT_BEFORE_head _ _ _ _ _ W No Eo Fresh) as (s' & E & W').
    exists s'. split; [exact E |]. split; [exact W' |].
    exact (proj1 (well_formed_walks _ _ W')).
  - destruct (list_snoc_cases l) as [-> | (l' & a & ->)]; [contradiction |].
    assert (Ht : tail s = a).
    { destruct W as (_ & _ & Ht & _). rewrite List.last_last in Ht. exact Ht. }
    rewrite Ht.
    destruct (CAT_BDLL_INSERT_AFTER_tail _ _ _ _ _ W No Eo Fresh) as (s' & E & W').
    exists s'. split; [exact E |]. split; [exact W' |].
    exact (proj1 (well_formed_walks _ _ W')).
Qed.

(** Pushing an object and erasing it again gives the list back: the same
    items, head and tail, and the same links in every item of the list. *)
Theorem push_then_erase_restores s l obj it0 :
  well_formed s l -> obj <> null -> objs s !! obj = Some it0 -> obj ∉ l ->
  forall push, push = CAT_BDLL_PUSH_FRONT \/ push = CAT_BDLL_PUSH_BACK ->
  exists s' s'', push obj s = Some s' /\ CAT_BDLL_ERASE obj s' = Some s'' /\
    well_formed s'' l /\ head s'' = head s /\ tail s'' = tail s /\
    (forall p, p ∈ l -> objs s'' !! p = objs s !! p).
Proof.
  intros W No Eo Fresh push Hp.
  assert (R : exists s' l1 l2, push obj s = Some s' /\
                well_formed s' (l1 ++ obj :: l2) /\ l1 ++ l2 = l).
  { destruct Hp as [-> | ->].
    - destruct (CAT_BDLL_PUSH_FRONT_spec _ _ _ _ W No Eo Fresh) as (s' & E & W').
      exists s', [], l. auto.
    - destruct (CAT_BDLL_PUSH_BACK_spec _ _ _ _ W No Eo Fresh) as (s' & E & W').
      exists s', l, []. rewrite app_nil_r. auto. }
  destruct R as (s' & l1 & l2 & E & W' & El).
  destruct (CAT_BDLL_ERASE_spec _ _ _ _ W') as (s'' & E' & W'').
  rewrite El in W''. exists s', s''. split; [exact E |]. split; [exact E' |].
  split; [exact W'' |].
  destruct W as (_ & Hh & Ht & L), W'' as (_ & Hh' & Ht' & L').
  split; [congruence |]. split; [congruence |].
  intros p P. exact (linked_determines _ _ _ _ _ _ L L' P).
Qed.

(** The forward-only list: [CAT_FDLL_PUSH_FRONT] keeps it well formed and
    the loop from [head] sees the object first. *)
Theorem forward_list_push_front s l obj it0 :
  well_formed_forward s l -> obj <> null -> objs s !! obj = Some it0 ->
  obj ∉ l ->
  exists s', CAT_FDLL_PUSH_FRONT obj s = Some s' /\
    well_formed_forward s' (obj :: l) /\ forward s' = obj :: l.
Proof.
  intros W No Eo Fresh.
  destruct (CAT_FDLL_PUSH_FRONT_spec _ _ _ _ W No Eo Fresh) as (s' & E & W').
  exists s'. split; [exact E |]. split; [exact W' |].
  exact (well_formed_forward_walk _ _ W').
Qed.

(** [CAT_FDLL_ERASE] of an item of a well-formed forward-only list leaves
    the other items well formed and in their order. *)
Theorem forward_list_erase s l1 obj l2 :
  well_formed_forward s (l1 ++ obj :: l2) ->
  exists s', CAT_FDLL_ERASE obj s = Some s' /\
    well_formed_forward s' (l1 ++ l2) /\ forward s' = l1 ++ l2.
Proof.
  intros W.
  destruct (CAT_FDLL_ERASE_spec _ _ _ _ W) as (s' & E & W').
  exists s'. split; [exact E |]. split; [exact W' |].
  exact (well_formed_forward_walk _ _ W').
Qed.

(** *** Insertion next to an inner item, on the side that works *)

Lemma allocated_length (h : gmap ptr DListItem) (l : list ptr) :
  NoDup l -> (forall p, p ∈ l -> is_Some (h !! p)) -> length l <= size h.
Proof.
  intros D A. rewrite <- size_dom.
  rewrite <- (size_list_to_set (C := gset ptr) l D).
  apply subseteq_size. intros p P. rewrite elem_of_list_to_set in P.
  apply elem_of_dom. exact (A p P).
Qed.

Lemma chain_cons step h p it rest after :
  p <> null -> h !! p = Some it -> step it = List.hd after rest ->
  chain step h rest after -> chain step h (p :: rest) after.
Proof. intros N E S C. simpl. eauto. Qed.

(** The store [CAT_FDLL_INSERT_AFTER] and [CAT_BDLL_INSERT_AFTER] leave. *)
Definition inserted_after (h : gmap ptr DListItem) (obj another : ptr)
           (it0 : DListItem) (nx pv : ptr) : gmap ptr DListItem :=
  <[another := mkItem obj pv]>
    (<[obj := mkItem nx another]> (<[obj := mkItem nx (_prev it0)]> h)).

Lemma CAT_FDLL_INSERT_AFTER_store s obj another it0 nx pv :
  obj <> null -> another <> null -> obj <> another ->
  objs s !! obj = Some it0 -> objs s !! another = Some (mkItem nx pv) ->
  CAT_FDLL_INSERT_AFTER obj another s =
    Some (mkL (head s) (tail s) (inserted_after (objs s) obj another it0 nx pv)).
Proof.
  intros No Na Noa Eo Ea. unfold CAT_FDLL_INSERT_AFTER.
  rewrite (load_Some _ _ Na), Ea. cbn [_prev _next].
  rewrite (store_next_Some _ _ _ _ No Eo).
  rewrite (store_prev_Some _ _ _ _ No (lookup_insert_eq _ _ _)).
  cbn [_next _prev].
  rewrite (store_next_Some _ _ _ (mkItem nx pv) Na)
    by (rewrite !lookup_insert_ne by exact Noa; exact Ea).
  reflexivity.
Qed.

Lemma CAT_BDLL_INSERT_AFTER_store s obj another it0 nx pv :
  obj <> null -> another <> null -> obj <> another ->
  objs s !! obj = Some it0 -> objs s !! another = Some (mkItem nx pv) ->
  CAT_BDLL_INSERT_AFTER obj another s =
    Some (mkL (head s) (if is_null nx then obj else tail s)
              (inserted_after (objs s) obj another it0 nx pv)).
Proof.
  intros No Na Noa Eo Ea. unfold CAT_BDLL_INSERT_AFTER.
  rewrite (load_Some _ _ Na), Ea. cbn [_prev _next].
  rewrite (store_next_Some _ _ _ _ No Eo).
  rewrite (store_prev_Some _ _ _ _ No (lookup_insert_eq _ _ _)).
  cbn [_next _prev].
  rewrite (load_Some _ _ Na), !lookup_insert_ne, Ea by exact Noa.
  cbn [_next].
  rewrite (store_next_Some _ _ _ (mkItem nx pv) Na)
    by (rewrite !lookup_insert_ne by exact Noa; exact Ea).
  reflexivity.
Qed.

Lemma inserted_after_forward h l1 another l2 obj it0 hd :
  NoDup (l1 ++ another :: l2) -> linked h null (l1 ++ another :: l2) null ->
  obj <> null -> h !! obj = Some it0 -> obj ∉ l1 ++ another :: l2 ->
  hd = List.hd null (l1 ++ another :: l2) ->
  let h' := inserted_after h obj another it0 (List.hd null l2)
                           (List.last l1 null) in
  walk _next (S (size h')) h' hd = l1 ++ another :: obj :: l2.
Proof.
  intros D L No Eo Fresh -> h'.
  destruct (NoDup_middle _ _ _ D) as (D1 & D2 & D12 & A1 & A2 & Dx).
  assert (Noa : obj <> another).
  { intros ->. apply Fresh. rewrite elem_of_app. right. left. }
  assert (O1 : obj ∉ l1) by (intros Q; apply Fresh; rewrite elem_of_app; auto).
  assert (O2 : obj ∉ l2).
  { intros Q. apply Fresh. rewrite elem_of_app. right. right. exact Q. }
  pose proof (linked_length _ _ _ _ D L) as Len.
  apply linked_app in L as (L1 & Na & Ea & L2). cbn [List.hd] in L1.
  replace (List.hd null (l1 ++ another :: l2))
    with (List.hd null (l1 ++ another :: obj :: l2))
    by (rewrite !hd_app; reflexivity).
  apply walk_chain.
  - apply chain_app; [| eapply chain_cons; [exact Na | | | eapply chain_cons]].
    + cbn [List.hd].
      apply (chain_same_links _ h); [| exact (linked_chain_next _ _ _ _ L1)].
      intros q Q. unfold h', inserted_after.
      rewrite !lookup_insert_ne; [reflexivity | | |]; intros ->; tauto.
    + apply lookup_insert_eq.
    + reflexivity.
    + exact No.
    + unfold h', inserted_after.
      rewrite lookup_insert_ne, lookup_insert_eq by congruence. reflexivity.
    + reflexivity.
    + apply (chain_same_links _ h); [| exact (linked_chain_next _ _ _ _ L2)].
      intros q Q. unfold h', inserted_after.
      rewrite !lookup_insert_ne; [reflexivity | | |]; intros ->; tauto.
  - assert (S : size h' = size h).
    { unfold h', inserted_after. rewrite !map_size_insert_Some; eauto.
      - rewrite lookup_insert_eq. eauto.
      - rewrite !lookup_insert_ne by exact Noa. eauto. }
    rewrite S.
    assert (length (obj :: l1 ++ another :: l2) <= size h).
    { apply allocated_length.
      - apply NoDup_cons. split; [exact Fresh | exact D].
      - intros q Q. apply elem_of_cons in Q as [-> | Q]; [eauto |].
        apply elem_of_app in Q as [Q | Q].
        + exact (linked_allocated _ _ _ _ _ L1 Q).
        + apply elem_of_cons in Q as [-> | Q]; [eauto |].
          exact (linked_allocated _ _ _ _ _ L2 Q). }
    simpl in H. rewrite !length_app in *. simpl in *. lia.
Qed.

(** Both INSERT_AFTER macros put the object right after [another] on the
    way forward from [head], wherever [another] sits in the list. *)
Theorem insert_after_is_next_going_forward s l1 another l2 obj it0 :
  well_formed s (l1 ++ another :: l2) ->
  obj <> null -> objs s !! obj = Some it0 -> obj ∉ l1 ++ another :: l2 ->
  (exists s', CAT_BDLL_INSERT_AFTER obj another s = Some s' /\
     forward s' = l1 ++ another :: obj :: l2) /\
  (exists s', CAT_FDLL_INSERT_AFTER obj another s = Some s' /\
     forward s' = l1 ++ another :: obj :: l2).
Proof.
  intros (D & Hh & _ & L) No Eo Fresh.
  pose proof (inserted_after_forward _ _ _ _ _ _ _ D L No Eo Fresh Hh) as W.
  assert (Noa : obj <> another).
  { intros ->. apply Fresh. rewrite elem_of_app. right. left. }
  apply linked_app in L as (_ & Na & Ea & _).
  split; eexists.
  - split; [exact (CAT_BDLL_INSERT_AFTER_store _ _ _ _ _ _ No Na Noa Eo Ea) |].
    exact W.
  - split; [exact (CAT_FDLL_INSERT_AFTER_store _ _ _ _ _ _ No Na Noa Eo Ea) |].
    exact W.
Qed.

Lemma store_next_size h p v h' : store_next p v h = Some h' -> size h' = size h.
Proof.
  unfold store_next. destruct (load h p) as [it |] eqn:E; [| discriminate].
  intros [= <-]. apply map_size_insert_Some.
  unfold load in E. destruct (is_null p); [discriminate | eauto].
Qed.

Lemma store_prev_size h p v h' : store_prev p v h = Some h' -> size h' = size h.
Proof.
  unfold store_prev. destruct (load h p) as [it |] eqn:E; [| discriminate].
  intros [= <-]. apply map_size_insert_Some.
  unfold load in E. destruct (is_null p); [discriminate | eauto].
Qed.

Lemma inserted_after_size h obj another it0 nx pv a0 :
  h !! obj = Some it0 -> h !! another = Some a0 -> obj <> another ->
  size (inserted_after h obj another it0 nx pv) = size h.
Proof.
  intros Eo Ea Noa. unfold inserted_after. rewrite !map_size_insert_Some; eauto.
  - rewrite lookup_insert_eq. eauto.
  - rewrite !lookup_insert_ne by exact Noa. eauto.
Qed.

(** The two operations together: the forward-only list takes an object
    after an item that has a successor, then loses that successor.  The
    erase reads the successor's [prev], which the insertion left naming
    [another]; it links [another] past the successor and the object goes
    with it, though nothing erased it. *)
Theorem insert_after_then_erase_successor_drops_the_object
        s l1 another n l2 obj it0 :
  well_formed_forward s (l1 ++ another :: n :: l2) ->
  obj <> null -> objs s !! obj = Some it0 ->
  obj ∉ l1 ++ another :: n :: l2 ->
  exists s' s'',
    CAT_FDLL_INSERT_AFTER obj another s = Some s' /\
    forward s' = l1 ++ another :: obj :: n :: l2 /\
    CAT_FDLL_ERASE n s' = Some s'' /\
    forward s'' = l1 ++ another :: l2 /\ obj ∉ forward s''.
Proof.
  intros (D & Hh & L) No Eo Fresh.
  pose proof (inserted_after_forward _ _ _ _ _ _ _ D L No Eo Fresh Hh) as W.
  cbn [List.hd] in W.
  pose proof (linked_length _ _ _ _ D L) as Len.
  destruct (NoDup_middle _ _ _ D) as (D1 & D2 & _ & A1 & A2 & Dx).
  apply NoDup_cons in D2 as (N2 & D2).
  assert (Noa : obj <> another).
  { intros ->. apply Fresh. rewrite elem_of_app. right. left. }
  assert (Non : obj <> n).
  { intros ->. apply Fresh. rewrite elem_of_app. right. right. left. }
  assert (Nan : another <> n) by (intros ->; apply A2; left).
  assert (O1 : obj ∉ l1) by (intros Q; apply Fresh; rewrite elem_of_app; auto).
  assert (O2 : obj ∉ l2).
  { intros Q. apply Fresh. rewrite elem_of_app. right. right. right. exact Q. }
  assert (A2' : another ∉ l2) by (intros Q; apply A2; right; exact Q).
  apply linked_app in L as (L1 & Na & Ea & Nn & En & L2). cbn [List.hd] in L1, Ea.
  set (pv := List.last l1 null) in *.
  set (h' := inserted_after (objs s) obj another it0 n pv) in *.
  exists (mkL (head s) (tail s) h').
  set (h1 := <[another := mkItem (List.hd null l2) pv]> h').
  assert (F1 : forall q, q <> obj -> q <> another -> h1 !! q = objs s !! q).
  { intros q Q1 Q2. unfold h1, h', inserted_after.
    rewrite !lookup_insert_ne by congruence. reflexivity. }
  assert (L2' : linked h1 n l2 null).
  { apply (linked_frame (objs s)); [| exact L2].
    intros q Q. apply F1; intros ->; tauto. }
  destruct (erase_unlinks_after _ _ _ another D2 L2') as (h2 & E2 & L2'' & F2).
  exists (mkL (head s) (tail s) h2).
  split; [exact (CAT_FDLL_INSERT_AFTER_store _ _ _ _ _ _ No Na Noa Eo Ea) |].
  split; [exact W |].
  assert (En' : h' !! n = Some (mkItem (List.hd null l2) another)).
  { unfold h', inserted_after. rewrite !lookup_insert_ne by congruence. exact En. }
  assert (Ea' : h' !! another = Some (mkItem obj pv)).
  { unfold h', inserted_after. apply lookup_insert_eq. }
  split.
  { unfold CAT_FDLL_ERASE. cbn [objs head tail].
    rewrite (load_Some _ _ Nn), En'. cbn [_prev _next].
    rewrite (is_null_false _ Na), (store_next_Some _ _ _ _ Na Ea').
    cbn [_prev fst snd]. fold h1.
    rewrite (load_Some _ _ Nn), (F1 _ (not_eq_sym Non) (not_eq_sym Nan)), En.
    cbn [_prev _next]. rewrite E2. reflexivity. }
  assert (S2 : size h2 = size (objs s)).
  { transitivity (size h1).
    - destruct (is_null (List.hd null l2)); [congruence |].
      exact (store_prev_size _ _ _ _ E2).
    - unfold h1. rewrite map_size_insert_Some by eauto.
      exact (inserted_after_size _ _ _ _ _ _ _ Eo Ea Noa). }
  assert (Wf : forward (mkL (head s) (tail s) h2) = l1 ++ another :: l2).
  { unfold forward. cbn [head objs]. rewrite Hh, S2.
    replace (List.hd null (l1 ++ another :: n :: l2))
      with (List.hd null (l1 ++ another :: l2)) by (rewrite !hd_app; reflexivity).
    apply walk_chain.
    - apply chain_app; [| eapply chain_cons; [exact Na | | |]].
      + cbn [List.hd].
        apply (chain_same_links _ (objs s)); [| exact (linked_chain_next _ _ _ _ L1)].
        intros q Q. rewrite F2, F1; [reflexivity | | |].
        * intros ->. exact (O1 Q).
        * intros ->. exact (A1 Q).
        * intros Q'. apply (Dx _ Q). right. exact Q'.
      + rewrite (F2 _ A2'). unfold h1. apply lookup_insert_eq.
      + reflexivity.
      + exact (linked_chain_next _ _ _ _ L2'').
    - rewrite !length_app in *. simpl in *. lia. }
  split; [exact Wf |]. rewrite Wf. rewrite elem_of_app, elem_of_cons. tauto.
Qed.

(** *** The properties above at concrete lists *)

(** The list [1; 2] among three objects, object 3 being in no list. *)
Definition sample_list : lstate :=
  mkL 1 2 (<[2 := mkItem null 1]> (<[1 := mkItem 2 null]> three_objects)).

Lemma sample_list_well_formed : well_formed sample_list [1; 2].
Proof.
  unfold well_formed; simpl. split; [| repeat split; try discriminate].
  apply (bool_decide_unpack _). vm_compute. exact I.
Qed.

Lemma sample_list_fresh : 3 ∉ [1; 2].
Proof. apply (bool_decide_unpack _). vm_compute. exact I. Qed.

Lemma iteration_visits_the_list_witness :
  well_formed sample_list [1; 2] /\
  forward sample_list = [1; 2] /\ backward sample_list = [2; 1].
Proof.
  split; [exact sample_list_well_formed |].
  exact (iteration_visits_the_list sample_list [1; 2] sample_list_well_formed).
Defined.

Lemma iterator_there_and_back_witness :
  well_formed sample_list ([] ++ 1 :: 2 :: []) /\
  IterateNext (objs sample_list) 1 = Some 2 /\
  IteratePrev (objs sample_list) 2 = Some 1.
Proof.
  split; [exact sample_list_well_formed |].
  destruct (iterator_there_and_back sample_list [] 1 2 [] sample_list_well_formed)
    as (N & P & _).
  exact (conj N P).
Defined.

Lemma push_front_prepends_witness :
  well_formed sample_list [1; 2] /\
  exists s', CAT_BDLL_PUSH_FRONT 3 sample_list = Some s' /\
    well_formed s' [3; 1; 2] /\
    forward s' = [3; 1; 2] /\ backward s' = [2; 1; 3].
Proof.
  split; [exact sample_list_well_formed |].
  apply (push_front_prepends sample_list [1; 2] 3 (mkItem null null)
           sample_list_well_formed);
    [discriminate | vm_compute; reflexivity | exact sample_list_fresh].
Defined.

Lemma push_back_appends_witness :
  well_formed sample_list [1; 2] /\
  exists s', CAT_BDLL_PUSH_BACK 3 sample_list = Some s' /\
    well_formed s' [1; 2; 3] /\
    forward s' = [1; 2; 3] /\ backward s' = [3; 2; 1].
Proof.
  split; [exact sample_list_well_formed |].
  apply (push_back_appends sample_list [1; 2] 3 (mkItem null null)
           sample_list_well_formed);
    [discriminate | vm_compute; reflexivity | exact sample_list_fresh].
Defined.

Lemma erase_removes_witness :
  well_formed sample_list ([] ++ 1 :: [2]) /\
  exists s', CAT_BDLL_ERASE 1 sample_list = Some s' /\
    well_formed s' [2] /\ forward s' = [2] /\ backward s' = [2] /\
    1 ∉ forward s'.
Proof.
  split; [exact sample_list_well_formed |].
  exact (erase_removes sample_list [] 1 [2] sample_list_well_formed).
Defined.

Lemma insert_at_an_end_witness :
  well_formed sample_list [1; 2] /\
  (exists s', CAT_BDLL_INSERT_BEFORE 3 1 sample_list = Some s' /\
     well_formed s' [3; 1; 2] /\ forward s' = [3; 1; 2]) /\
  (exists s', CAT_BDLL_INSERT_AFTER 3 2 sample_list = Some s' /\
     well_formed s' [1; 2; 3] /\ forward s' = [1; 2; 3]).
Proof.
  split; [exact sample_list_well_formed |].
  apply (insert_at_an_end sample_list [1; 2] 3 (mkItem null null)
           sample_list_well_formed);
    [discriminate | vm_compute; reflexivity | exact sample_list_fresh
    | discriminate].
Defined.

Lemma push_then_erase_restores_witness :
  well_formed sample_list [1; 2] /\
  exists s' s'', CAT_BDLL_PUSH_BACK 3 sample_list = Some s' /\
    CAT_BDLL_ERASE 3 s' = Some s'' /\ well_formed s'' [1; 2] /\
    head s'' = 1 /\ tail s'' = 2.
Proof.
  split; [exact sample_list_well_formed |].
  destruct (push_then_erase_restores sample_list [1; 2] 3 (mkItem null null)
              sample_list_well_formed ltac:(discriminate)
              ltac:(vm_compute; reflexivity) sample_list_fresh
              CAT_BDLL_PUSH_BACK (or_intror eq_refl))
    as (s' & s'' & E & E' & W & Hh & Ht & _).
  exists s', s''. auto.
Defined.

Lemma sample_list_forward : well_formed_forward sample_list [1; 2].
Proof.
  destruct sample_list_well_formed as (D & Hh & _ & L). exact (conj D (conj Hh L)).
Qed.

Lemma forward_list_push_front_witness :
  well_formed_forward sample_list [1; 2] /\
  exists s', CAT_FDLL_PUSH_FRONT 3 sample_list = Some s' /\
    well_formed_forward s' [3; 1; 2] /\ forward s' = [3; 1; 2].
Proof.
  split; [exact sample_list_forward |].
  apply (forward_list_push_front sample_list [1; 2] 3 (mkItem null null)
           sample_list_forward);
    [discriminate | vm_compute; reflexivity | exact sample_list_fresh].
Defined.

Lemma forward_list_erase_witness :
  well_formed_forward sample_list ([1] ++ 2 :: []) /\
  exists s', CAT_FDLL_ERASE 2 sample_list = Some s' /\
    well_formed_forward s' [1] /\ forward s' = [1].
Proof.
  split; [exact sample_list_forward |].
  exact (forward_list_erase sample_list [1] 2 [] sample_list_forward).
Defined.

Lemma insert_after_is_next_going_forward_witness :
  well_formed sample_list ([] ++ 1 :: [2]) /\
  (exists s', CAT_BDLL_INSERT_AFTER 3 1 sample_list = Some s' /\
     forward s' = [1; 3; 2]) /\
  (exists s', CAT_FDLL_INSERT_AFTER 3 1 sample_list = Some s' /\
     forward s' = [1; 3; 2]).
Proof.
  split; [exact sample_list_well_formed |].
  apply (insert_after_is_next_going_forward sample_list [] 1 [2] 3
           (mkItem null null) sample_list_well_formed);
    [discriminate | vm_compute; reflexivity | exact sample_list_fresh].
Defined.

Lemma insert_after_then_erase_successor_drops_the_object_witness :
  well_formed_forward sample_list ([] ++ 1 :: 2 :: []) /\
  exists s' s'',
    CAT_FDLL_INSERT_AFTER 3 1 sample_list = Some s' /\
    forward s' = [1; 3; 2] /\
    CAT_FDLL_ERASE 2 s' = Some s'' /\
    forward s'' = [1] /\ 3 ∉ forward s''.
Proof.
  split; [exact sample_list_forward |].
  apply (insert_after_then_erase_successor_drops_the_object sample_list
           [] 1 2 [] 3 (mkItem null null) sample_list_forward);
    [discriminate | vm_compute; reflexivity | exact sample_list_fresh].
Defined.

Lemma insert_before_inner_keeps_forward_witness :
  well_formed sample_list ([] ++ 1 :: 2 :: []) /\
  exists s', CAT_BDLL_INSERT_BEFORE 3 2 sample_list = Some s' /\
    forward s' = [1; 2] /\ 3 ∉ forward s'.
Proof.
  split; [exact sample_list_well_formed |].
  apply (insert_before_inner_keeps_forward sample_list [] 1 2 [] 3
           (mkItem null null) sample_list_well_formed);
    [discriminate | vm_compute; reflexivity | exact sample_list_fresh].
Defined.

Lemma insert_after_inner_keeps_backward_witness :
  well_formed sample_list ([] ++ 1 :: 2 :: []) /\
  exists s', CAT_BDLL_INSERT_AFTER 3 1 sample_list = Some s' /\
    backward s' = [2; 1] /\ 3 ∉ backward s'.
Proof.
  split; [exact sample_list_well_formed |].
  apply (insert_after_inner_keeps_backward sample_list [] 1 2 [] 3
           (mkItem null null) sample_list_well_formed);
    [discriminate | vm_compute; reflexivity | exact sample_list_fresh].
Defined.

End LinkedListsFacts.

(** ** Singly linked lists *)

Module SinglyLinkedListsFacts.

Import SinglyLinkedLists.

#[local] Open Scope nat_scope.

Lemma slist_load_Some h p : p <> null -> load h p = h !! p.
Proof.
  intros N. unfold load, is_null.
  destruct (Nat.eqb_spec p null); congruence.
Qed.

Lemma slist_is_null_false p : p <> null -> is_null p = false.
Proof. intros N. unfold is_null. destruct (Nat.eqb_spec p null); congruence. Qed.

Lemma slist_store_next_Some h p v it :
  p <> null -> h !! p = Some it -> store_next p v h = Some (<[p := mkSItem v]> h).
Proof. intros N E. unfold store_next. rewrite slist_load_Some, E by exact N. reflexivity. Qed.

Lemma slist_linked_frame h h' l after :
  (forall p, p ∈ l -> h' !! p = h !! p) -> linked h l after -> linked h' l after.
Proof.
  induction l as [| p rest IH]; intros F; [exact id |].
  intros (N & E & L). simpl. split; [exact N |]. split.
  - rewrite F by left. exact E.
  - apply IH; [| exact L]. intros q Q. apply F. right. exact Q.
Qed.

Lemma slist_hd_app (l1 l2 : list ptr) d :
  List.hd d (l1 ++ l2) = List.hd (List.hd d l2) l1.
Proof. destruct l1; reflexivity. Qed.

Lemma slist_last_cons (l : list ptr) p d : List.last (p :: l) d = List.last l p.
Proof.
  revert p d. induction l as [| q l IH]; intros p d; [reflexivity |].
  change (List.last (p :: q :: l) d) with (List.last (q :: l) d).
  rewrite !IH. reflexivity.
Qed.

Lemma slist_linked_app h l1 l2 after :
  linked h (l1 ++ l2) after <->
  linked h l1 (List.hd after l2) /\ linked h l2 after.
Proof.
  induction l1 as [| p rest IH].
  - simpl. tauto.
  - change ((p :: rest) ++ l2) with (p :: rest ++ l2).
    cbn [linked]. rewrite IH, slist_hd_app. tauto.
Qed.

Lemma slist_linked_allocated h l after p : linked h l after -> p ∈ l -> is_Some (h !! p).
Proof.
  induction l as [| q rest IH]; intros L P.
  - inversion P.
  - destruct L as (_ & E & L). inversion P; subst; [eauto | exact (IH L ltac:(assumption))].
Qed.

Lemma slist_linked_length h l after : NoDup l -> linked h l after -> length l <= size h.
Proof.
  intros D L. rewrite <- size_dom.
  rewrite <- (size_list_to_set (C := gset ptr) l D).
  apply subseteq_size. intros p P. rewrite elem_of_list_to_set in P.
  apply elem_of_dom. exact (slist_linked_allocated _ _ _ _ L P).
Qed.

Lemma slist_walk_linked h l fuel :
  linked h l null -> length l < fuel -> walk fuel h (List.hd null l) = l.
Proof.
  revert fuel. induction l as [| p rest IH]; intros fuel L Len.
  - destruct fuel; reflexivity.
  - destruct fuel as [| n]; [simpl in Len; lia |].
    destruct L as (N & E & L). simpl.
    rewrite slist_load_Some, E by exact N. cbn [_next].
    rewrite IH; [reflexivity | exact L |]. simpl in Len. lia.
Qed.

Lemma slist_well_formed_forward s l : well_formed s l -> forward s = l.
Proof.
  intros (D & Hh & L). pose proof (slist_linked_length _ _ _ D L).
  unfold forward. rewrite Hh. apply slist_walk_linked; [exact L | lia].
Qed.

Lemma slist_NoDup_middle (l1 : list ptr) obj l2 :
  NoDup (l1 ++ obj :: l2) ->
  NoDup l1 /\ NoDup l2 /\ NoDup (l1 ++ l2) /\ (obj ∉ l1) /\ (obj ∉ l2) /\
  (forall q, q ∈ l1 -> q ∉ l2).
Proof.
  intros D.
  apply NoDup_app in D as (D1 & D12 & D2). apply NoDup_cons in D2 as (Do & D2).
  assert (Dx : forall q, q ∈ l1 -> q ∉ l2).
  { intros q Q Q'. apply (D12 _ Q). right. exact Q'. }
  repeat split; try assumption.
  - apply NoDup_app. auto.
  - intros Q. apply (D12 _ Q). left.
Qed.

Lemma slist_list_snoc_cases (l : list ptr) : l = [] \/ exists l' t, l = l' ++ [t].
Proof.
  destruct l as [| p rest]; [left; reflexivity | right].
  destruct (exists_last (l := p :: rest) ltac:(discriminate)) as (l' & t & E).
  eauto.
Qed.

(** [CAT_FSLL_PUSH_FRONT] of an object that is not in the list puts it in
    front. *)
Theorem slist_push_front_prepends s l obj it0 :
  well_formed s l -> obj <> null -> objs s !! obj = Some it0 -> obj ∉ l ->
  exists s', CAT_FSLL_PUSH_FRONT obj s = Some s' /\
    well_formed s' (obj :: l) /\ forward s' = obj :: l.
Proof.
  intros (D & Hh & L) No Eo Fresh. unfold CAT_FSLL_PUSH_FRONT.
  rewrite (slist_store_next_Some _ _ _ _ No Eo).
  eexists. split; [reflexivity |].
  assert (W : well_formed (mkS obj (<[obj := mkSItem (head s)]> (objs s))) (obj :: l)).
  { split; [apply NoDup_cons; auto |]. split; [reflexivity |].
    cbn [objs linked]. split; [exact No |]. split.
    - rewrite lookup_insert_eq, Hh. reflexivity.
    - apply (slist_linked_frame (objs s)); [| exact L].
      intros q Q. apply lookup_insert_ne. intros ->. exact (Fresh Q). }
  split; [exact W | exact (slist_well_formed_forward _ _ W)].
Qed.

(** [CAT_FSLL_INSERT_AFTER] puts the object right after [another],
    wherever [another] sits. *)
Theorem slist_insert_after_inserts s l1 another l2 obj it0 :
  well_formed s (l1 ++ another :: l2) ->
  obj <> null -> objs s !! obj = Some it0 -> obj ∉ l1 ++ another :: l2 ->
  exists s', CAT_FSLL_INSERT_AFTER obj another s = Some s' /\
    well_formed s' (l1 ++ another :: obj :: l2) /\
    forward s' = l1 ++ another :: obj :: l2.
Proof.
  intros (D & Hh & L) No Eo Fresh.
  destruct (slist_NoDup_middle _ _ _ D) as (D1 & D2 & D12 & A1 & A2 & Dx).
  assert (Noa : obj <> another).
  { intros ->. apply Fresh. rewrite elem_of_app. right. left. }
  assert (O1 : obj ∉ l1) by (intros Q; apply Fresh; rewrite elem_of_app; auto).
  assert (O2 : obj ∉ l2).
  { intros Q. apply Fresh. rewrite elem_of_app. right. right. exact Q. }
  apply slist_linked_app in L as (L1 & Na & Ea & L2). cbn [List.hd] in L1.
  unfold CAT_FSLL_INSERT_AFTER.
  rewrite (slist_load_Some _ _ Na), Ea. cbn [_next].
  rewrite (slist_store_next_Some _ _ _ _ No Eo).
  rewrite (slist_store_next_Some _ _ _ (mkSItem (List.hd null l2)) Na)
    by (rewrite lookup_insert_ne by exact Noa; exact Ea).
  eexists. split; [reflexivity |].
  match goal with |- well_formed ?s' ?l' /\ _ => assert (W : well_formed s' l') end.
  { split; [| split].
    - apply NoDup_app. split; [exact D1 |]. split.
      + intros q Q Q'. apply elem_of_cons in Q' as [-> | Q']; [tauto |].
        apply elem_of_cons in Q' as [-> | Q']; [tauto |]. exact (Dx _ Q Q').
      + apply NoDup_cons. split.
        * intros Q. apply elem_of_cons in Q as [-> | Q]; tauto.
        * apply NoDup_cons. auto.
    - cbn [head]. rewrite Hh, !slist_hd_app. reflexivity.
    - cbn [objs]. apply slist_linked_app. cbn [List.hd linked]. split; [| split; [| split; [| split; [| split]]]].
      + apply (slist_linked_frame (objs s)); [| exact L1].
        intros q Q. rewrite !lookup_insert_ne; [reflexivity | |]; intros ->; tauto.
      + exact Na.
      + apply lookup_insert_eq.
      + exact No.
      + rewrite lookup_insert_ne, lookup_insert_eq by congruence. reflexivity.
      + apply (slist_linked_frame (objs s)); [| exact L2].
        intros q Q. rewrite !lookup_insert_ne; [reflexivity | |]; intros ->; tauto. }
  split; [exact W | exact (slist_well_formed_forward _ _ W)].
Qed.

Lemma slist_linked_last h l t after :
  linked h (l ++ [t]) after ->
  t <> null /\ h !! t = Some (mkSItem after) /\ linked h l t.
Proof. rewrite slist_linked_app. intros (L1 & Nt & Et & _). auto. Qed.

(** [CAT_FSLL_ERASE_AFTER], given the item before [obj] (0 when [obj] is the
    head), removes [obj] and keeps the other items in their order. *)
Lemma CAT_FSLL_ERASE_AFTER_spec s l1 obj l2 :
  well_formed s (l1 ++ obj :: l2) ->
  exists s', CAT_FSLL_ERASE_AFTER obj (List.last l1 null) s = Some s' /\
    well_formed s' (l1 ++ l2).
Proof.
  intros (D & Hh & L).
  destruct (slist_NoDup_middle _ _ _ D) as (D1 & D2 & D12 & O1 & O2 & Dx).
  apply slist_linked_app in L as (L1 & No & Eo & L2). cbn [List.hd] in L1.
  unfold CAT_FSLL_ERASE_AFTER. rewrite (slist_load_Some _ _ No), Eo. cbn [_next].
  destruct (slist_list_snoc_cases l1) as [-> | (l' & p & ->)].
  - simpl. eexists. split; [reflexivity |].
    split; [exact D2 |]. split; [reflexivity | exact L2].
  - destruct (slist_linked_last _ _ _ _ L1) as (Np & Ep & L').
    rewrite List.last_last, (slist_is_null_false _ Np), (slist_store_next_Some _ _ _ _ Np Ep).
    eexists. split; [reflexivity |]. split; [exact D12 |]. split.
    + cbn [head]. rewrite Hh, <- !app_assoc, !slist_hd_app. reflexivity.
    + cbn [objs]. apply slist_linked_app. split.
      * apply slist_linked_app. cbn [List.hd linked].
        apply NoDup_app in D1 as (_ & Dp & _).
        split; [| split; [exact Np | split; [apply lookup_insert_eq | exact I]]].
        apply (slist_linked_frame (objs s)); [| exact L'].
        intros q Q. apply lookup_insert_ne. intros ->. apply (Dp _ Q). left.
      * apply (slist_linked_frame (objs s)); [| exact L2].
        intros q Q. apply lookup_insert_ne. intros <-.
        apply (Dx p); [rewrite elem_of_app; right; left | exact Q].
Qed.

Theorem slist_erase_after_removes s l1 obj l2 :
  well_formed s (l1 ++ obj :: l2) ->
  exists s', CAT_FSLL_ERASE_AFTER obj (List.last l1 null) s = Some s' /\
    well_formed s' (l1 ++ l2) /\ forward s' = l1 ++ l2 /\ obj ∉ forward s'.
Proof.
  intros W. destruct (CAT_FSLL_ERASE_AFTER_spec _ _ _ _ W) as (s' & E & W').
  exists s'. split; [exact E |]. split; [exact W' |].
  rewrite (slist_well_formed_forward _ _ W'). split; [reflexivity |].
  destruct W as (D & _). destruct (slist_NoDup_middle _ _ _ D) as (_ & _ & _ & O1 & O2 & _).
  rewrite elem_of_app. tauto.
Qed.

Lemma slist_advance_linked h l1 p l2 it :
  linked h (l1 ++ p :: l2) null -> _item it = List.hd p l1 ->
  advance h (length l1) it = Some (mkSIter p (List.last l1 (_prev it))).
Proof.
  revert it. induction l1 as [| q l1 IH]; intros it L E.
  - simpl in *. destruct it. simpl in E. subst. reflexivity.
  - destruct L as (Nq & Eq & L). cbn [List.hd] in E.
    cbn [length advance]. unfold IterateNext.
    rewrite E, (slist_load_Some _ _ Nq), Eq. cbn [_next].
    rewrite (IH _ L) by (cbn [_item]; rewrite slist_hd_app; reflexivity).
    cbn [_prev]. rewrite slist_last_cons. reflexivity.
Qed.

(** An iterator started at the head and stepped [k] times holds the [k]-th
    item and the one before it, which is what the erase needs: erasing
    through the iterator removes the item the iterator is on. *)
Theorem slist_iterator_erases_current s l1 obj l2 :
  well_formed s (l1 ++ obj :: l2) ->
  exists it s',
    advance (objs s) (length l1) (Iterator (head s)) = Some it /\
    _item it = obj /\ _prev it = List.last l1 null /\
    CAT_FSLL_ERASE_AFTER (_item it) (_prev it) s = Some s' /\
    forward s' = l1 ++ l2.
Proof.
  intros W. destruct (CAT_FSLL_ERASE_AFTER_spec _ _ _ _ W) as (s' & E & W').
  destruct W as (D & Hh & L).
  exists (mkSIter obj (List.last l1 null)), s'. split.
  - rewrite (slist_advance_linked _ _ _ _ _ L); [reflexivity |].
    cbn [Iterator _item]. rewrite Hh, slist_hd_app. reflexivity.
  - cbn [_item _prev]. split; [reflexivity |]. split; [reflexivity |].
    split; [exact E | exact (slist_well_formed_forward _ _ W')].
Qed.

(** *** The properties above at a concrete list *)

(** The list [1; 2] among three items, item 3 being in no list. *)
Definition sample_slist : sstate :=
  mkS 1 (<[1 := mkSItem 2]> (<[2 := mkSItem null]> (<[3 := mkSItem null]> ∅))).

Lemma sample_slist_well_formed : well_formed sample_slist [1; 2].
Proof.
  unfold well_formed; simpl. split; [| repeat split; try discriminate].
  apply (bool_decide_unpack _). vm_compute. exact I.
Qed.

Lemma sample_slist_fresh : 3 ∉ [1; 2].
Proof. apply (bool_decide_unpack _). vm_compute. exact I. Qed.

Lemma slist_push_front_prepends_witness :
  well_formed sample_slist [1; 2] /\
  exists s', CAT_FSLL_PUSH_FRONT 3 sample_slist = Some s' /\
    well_formed s' [3; 1; 2] /\ forward s' = [3; 1; 2].
Proof.
  split; [exact sample_slist_well_formed |].
  apply (slist_push_front_prepends sample_slist [1; 2] 3 (mkSItem null)
           sample_slist_well_formed);
    [discriminate | vm_compute; reflexivity | exact sample_slist_fresh].
Defined.

Lemma slist_insert_after_inserts_witness :
  well_formed sample_slist ([] ++ 1 :: [2]) /\
  exists s', CAT_FSLL_INSERT_AFTER 3 1 sample_slist = Some s' /\
    well_formed s' [1; 3; 2] /\ forward s' = [1; 3; 2].
Proof.
  split; [exact sample_slist_well_formed |].
  apply (slist_insert_after_inserts sample_slist [] 1 [2] 3 (mkSItem null)
           sample_slist_well_formed);
    [discriminate | vm_compute; reflexivity | exact sample_slist_fresh].
Defined.

Lemma slist_erase_after_removes_witness :
  well_formed sample_slist ([1] ++ 2 :: []) /\
  exists s', CAT_FSLL_ERASE_AFTER 2 1 sample_slist = Some s' /\
    well_formed s' [1] /\ forward s' = [1] /\ 2 ∉ forward s'.
Proof.
  split; [exact sample_slist_well_formed |].
  exact (slist_erase_after_removes sample_slist [1] 2 [] sample_slist_well_formed).
Defined.

Lemma slist_iterator_erases_current_witness :
  well_formed sample_slist ([1] ++ 2 :: []) /\
  exists it s',
    advance (objs sample_slist) 1 (Iterator 1) = Some it /\
    _item it = 2 /\ _prev it = 1 /\
    CAT_FSLL_ERASE_AFTER (_item it) (_prev it) sample_slist = Some s' /\
    forward s' = [1].
Proof.
  split; [exact sample_slist_well_formed |].
  exact (slist_iterator_erases_current sample_slist [1] 2 []
           sample_slist_well_formed).
Defined.

End SinglyLinkedListsFacts.

(** ** Reference-counted objects and singletons *)

Module RefObjectsFacts.

Import MachineInt MachineIntFacts RefObjects.

#[local] Open Scope Z_scope.

Lemma u32_zero_iff c t :
  0 <= c < 2^32 -> (c = u32 t <-> u32 (c - t) = 0).
Proof.
  intros Hc. unfold u32. split.
  - intros E. rewrite E, Zminus_mod_idemp_l, Z.sub_diag. reflexivity.
  - intros E. apply Z.mod_divide in E; [| lia]. destruct E as (q & E).
    replace t with (c + (- q) * 2^32) by lia.
    rewrite Z.mod_add by lia. symmetry. apply Z.mod_small. exact Hc.
Qed.

(** [ReleaseRef] calls [OnZeroReferences] exactly when the count it leaves
    is zero, and then once; whatever [times] is, the count it leaves is the
    old one less [times], modulo [2^32]. *)
Theorem ReleaseRef_finalizes_at_zero (times : Z) (o : RefObject) :
  0 <= _ref_count o < 2^32 ->
  _ref_count (ReleaseRef times o) = u32 (_ref_count o - times) /\
  _shutdown (ReleaseRef times o) = _shutdown o /\
  zero_references (ReleaseRef times o)
    = (if _ref_count (ReleaseRef times o) =? 0
       then S (zero_references o) else zero_references o).
Proof.
  intros Hc. unfold ReleaseRef.
  pose proof (u32_zero_iff (_ref_count o) times Hc) as Z0.
  destruct (Z.eqb_spec (_ref_count o) (u32 times)) as [E | N]; cbn.
  - repeat split. apply Z0 in E. rewrite E. reflexivity.
  - repeat split.
    destruct (Z.eqb_spec (u32 (_ref_count o - times)) 0) as [E | _]; [| reflexivity].
    apply Z0 in E. contradiction.
Qed.

Lemma ref_call_held call o held :
  _ref_count o = held -> 0 <= held < 2^32 ->
  0 < held + references_added call < 2^32 ->
  _ref_count (ref_call call o) = held + references_added call /\
  zero_references (ref_call call o) = zero_references o.
Proof.
  intros E Hh Hn. destruct call as [times | times]; cbn [ref_call references_added] in *.
  - unfold AddRef. cbn. rewrite E. split; [apply u32_id; unfold in_u32; lia | reflexivity].
  - destruct (ReleaseRef_finalizes_at_zero times o ltac:(lia)) as (C & _ & Zr).
    rewrite E in C. replace (held - times) with (held + - times) in C by lia.
    rewrite u32_id in C by (unfold in_u32; lia).
    rewrite Zr, C. split; [reflexivity |].
    destruct (Z.eqb_spec (held + - times) 0); [lia | reflexivity].
Qed.

Lemma last_of_cons {A} (l : list A) p d : List.last (p :: l) d = List.last l p.
Proof.
  revert p d. induction l as [| q l IH]; intros p d; [reflexivity |].
  change (List.last (p :: q :: l) d) with (List.last (q :: l) d).
  rewrite !IH. reflexivity.
Qed.

Lemma last_in_range (l : list Z) d :
  Forall (fun n => 0 < n < 2^32) l -> 0 < d < 2^32 -> 0 < List.last l d < 2^32.
Proof.
  revert d. induction l as [| a l IH]; intros d F D; [exact D |].
  apply Forall_cons in F as (Fa & F). rewrite last_of_cons. exact (IH a F Fa).
Qed.

Lemma held_references calls o :
  0 < _ref_count o < 2^32 ->
  Forall (fun n => 0 < n < 2^32) (references_after (_ref_count o) calls) ->
  zero_references (ref_calls calls o) = zero_references o /\
  _ref_count (ref_calls calls o)
    = List.last (references_after (_ref_count o) calls) (_ref_count o).
Proof.
  revert o. induction calls as [| call rest IH]; intros o Hc Hf.
  - split; reflexivity.
  - cbn [references_after] in Hf. apply Forall_cons in Hf as (H1 & Hf).
    destruct (ref_call_held call o (_ref_count o) eq_refl ltac:(lia) H1) as (C & Zr).
    cbn [ref_calls fold_left]. fold (ref_calls rest (ref_call call o)).
    rewrite <- C in Hf, H1.
    destruct (IH (ref_call call o) H1 Hf) as (Z1 & C1).
    split; [congruence |]. rewrite C1. cbn [references_after].
    rewrite last_of_cons, <- C. reflexivity.
Qed.

(** While the caller's bookkeeping says references are outstanding (more
    than none, fewer than [2^32]) after every call, [OnZeroReferences] is
    never called and the count is exactly the number outstanding; the call
    that then releases all that is left finalizes the object, once. *)
Theorem references_keep_the_object_alive
        (calls : list RefCall) (o : RefObject) :
  0 < _ref_count o < 2^32 ->
  Forall (fun n => 0 < n < 2^32) (references_after (_ref_count o) calls) ->
  let remaining := List.last (references_after (_ref_count o) calls) (_ref_count o) in
  zero_references (ref_calls calls o) = zero_references o /\
  _ref_count (ref_calls calls o) = remaining /\
  zero_references (ref_calls (calls ++ [CallReleaseRef remaining]) o)
    = S (zero_references o) /\
  _ref_count (ref_calls (calls ++ [CallReleaseRef remaining]) o) = 0.
Proof.
  intros Hc Hf remaining.
  destruct (held_references calls o Hc Hf) as (Z1 & C1). fold remaining in C1.
  split; [exact Z1 |]. split; [exact C1 |].
  unfold ref_calls in *. rewrite fold_left_app. cbn [fold_left ref_call].
  set (o' := fold_left (fun o call => ref_call call o) calls o) in *.
  assert (Hr : 0 < _ref_count o' < 2^32).
  { rewrite C1. exact (last_in_range _ _ Hf Hc). }
  destruct (ReleaseRef_finalizes_at_zero remaining o' ltac:(lia)) as (C & _ & Zr).
  assert (E0 : _ref_count (ReleaseRef remaining o') = 0).
  { rewrite C, C1, Z.sub_diag. reflexivity. }
  rewrite Zr, E0. cbn. split; [congruence | reflexivity].
Qed.

(** *** [Singleton<T>::GetRef] *)

Definition holds_lock (pc : GetRefPc) : bool :=
  match pc with
  | AtSecondCheck | AtStartup | AtSetInit | AtUnlock => true
  | _ => false
  end.

Definition before_init (pc : GetRefPc) : bool :=
  match pc with AtStartup | AtSetInit => true | _ => false end.

Definition after_init (pc : GetRefPc) : bool :=
  match pc with AtUnlock | Returned => true | _ => false end.

(** What holds of the threads and the singleton at every moment, [k] being
    the number of startups before any of the calls began. *)
Record GetRef_inv (k : nat) (st : list GetRefPc * Singleton) : Prop := {
  inv_holder : forall j pc,
    fst st !! j = Some pc -> holds_lock pc = true -> _lock (snd st) = Some j;
  inv_lock : forall j,
    _lock (snd st) = Some j ->
    exists pc, fst st !! j = Some pc /\ holds_lock pc = true;
  inv_before : forall j pc,
    fst st !! j = Some pc -> before_init pc = true -> _init (snd st) = false;
  inv_after : forall j pc,
    fst st !! j = Some pc -> after_init pc = true -> _init (snd st) = true;
  inv_started :
    _init (snd st) = true \/ (exists j, fst st !! j = Some AtSetInit) ->
    startups (snd st) = S k;
  inv_not_started :
    _init (snd st) = false -> (forall j, fst st !! j <> Some AtSetInit) ->
    startups (snd st) = k
}.

Ltac insert_cases H :=
  apply list_lookup_insert_Some in H as [(<- & H & _) | (? & H)];
  [ try (match type of H with _ = ?pc => is_var pc; subst pc end) | ].

Lemma GetRef_step_inv k i st : GetRef_inv k st -> GetRef_inv k (GetRef_step i st).
Proof.
  destruct st as [threads s]. intros [Hh Hl Hb Ha Hs Hn]. cbn [fst snd] in *.
  unfold GetRef_step.
  destruct (threads !! i) as [pc |] eqn:Ei; [| constructor; assumption].
  assert (Li : (i < length threads)%nat) by exact (lookup_lt_Some _ _ _ Ei).
  destruct pc.
  - (* the first check *)
    constructor; cbn [fst snd].
    + intros j pc H Hp. insert_cases H; [destruct (_init s); discriminate |]. eauto.
    + intros j E. destruct (Hl j E) as (pc & H & Hp). exists pc. split; [| exact Hp].
      rewrite list_lookup_insert_ne; [exact H |]. intros <-. rewrite Ei in H.
      injection H as <-. discriminate.
    + intros j pc H Hp. insert_cases H; [destruct (_init s); discriminate |]. eauto.
    + intros j pc H Hp. insert_cases H; [| eauto].
      destruct (_init s); [reflexivity | discriminate].
    + intros [E | (j & H)]; [auto |]. apply Hs. right. exists j.
      insert_cases H; [destruct (_init s); discriminate | exact H].
    + intros E N. apply Hn; [exact E |]. intros j H. apply (N j).
      rewrite list_lookup_insert_ne; [exact H |]. intros <-. congruence.
  - (* taking the mutex *)
    destruct (_lock s) as [holder |] eqn:El; [constructor; cbn [fst snd]; try rewrite El; assumption |].
    constructor; cbn [fst snd _lock _init startups].
    + intros j pc H Hp. insert_cases H; [reflexivity |].
      specialize (Hh _ _ H Hp). discriminate.
    + intros j [= <-]. exists AtSecondCheck. split; [| reflexivity].
      apply list_lookup_insert_eq, Li.
    + intros j pc H Hp. insert_cases H; [discriminate | eauto].
    + intros j pc H Hp. insert_cases H; [discriminate | eauto].
    + intros [E | (j & H)]; [auto |]. apply Hs. right. exists j.
      insert_cases H; [discriminate | exact H].
    + intros E N. apply Hn; [exact E |]. intros j H. apply (N j).
      rewrite list_lookup_insert_ne; [exact H |]. intros <-. congruence.
  - (* the second check *)
    pose proof (Hh _ _ Ei eq_refl) as El.
    constructor; cbn [fst snd].
    + intros j pc H Hp. insert_cases H; [exact El | eauto].
    + intros j E. rewrite El in E. injection E as <-.
      eexists. split; [apply list_lookup_insert_eq, Li |]. destruct (_init s); reflexivity.
    + intros j pc H Hp. insert_cases H; [| eauto].
      destruct (_init s); [discriminate | reflexivity].
    + intros j pc H Hp. insert_cases H; [| eauto].
      destruct (_init s); [reflexivity | discriminate].
    + intros [E | (j & H)]; [auto |]. apply Hs. right. exists j.
      insert_cases H; [destruct (_init s); discriminate | exact H].
    + intros E N. apply Hn; [exact E |]. intros j H. apply (N j).
      rewrite list_lookup_insert_ne; [exact H |]. intros <-. congruence.
  - (* the startup *)
    pose proof (Hh _ _ Ei eq_refl) as El.
    pose proof (Hb _ _ Ei eq_refl) as Einit.
    assert (K : startups s = k).
    { apply Hn; [exact Einit |]. intros j H.
      pose proof (Hh _ _ H eq_refl) as El'. rewrite El in El'.
      injection El' as <-. congruence. }
    constructor; cbn [fst snd _lock _init startups].
    + intros j pc H Hp. insert_cases H; [exact El | eauto].
    + intros j E. rewrite El in E. injection E as <-.
      eexists. split; [apply list_lookup_insert_eq, Li | reflexivity].
    + intros j pc H Hp. insert_cases H; eauto.
    + intros j pc H Hp. insert_cases H; [discriminate | eauto].
    + intros _. rewrite K. reflexivity.
    + intros _ N. exfalso. apply (N i). apply list_lookup_insert_eq, Li.
  - (* _init = true *)
    pose proof (Hh _ _ Ei eq_refl) as El.
    assert (K : startups s = S k) by (apply Hs; right; eauto).
    constructor; cbn [fst snd _lock _init startups].
    + intros j pc H Hp. insert_cases H; [exact El | eauto].
    + intros j E. rewrite El in E. injection E as <-.
      eexists. split; [apply list_lookup_insert_eq, Li | reflexivity].
    + intros j pc H Hp. insert_cases H; [discriminate |].
      assert (Hk : holds_lock pc = true) by (destruct pc; try discriminate; reflexivity).
      pose proof (Hh _ _ H Hk) as El'. rewrite El in El'. congruence.
    + reflexivity.
    + intros _. exact K.
    + discriminate.
  - (* releasing the mutex *)
    pose proof (Hh _ _ Ei eq_refl) as El.
    pose proof (Ha _ _ Ei eq_refl) as Einit.
    constructor; cbn [fst snd _lock _init startups].
    + intros j pc H Hp. insert_cases H; [discriminate |].
      pose proof (Hh _ _ H Hp) as El'. rewrite El in El'. congruence.
    + discriminate.
    + intros j pc H Hp. insert_cases H; [discriminate | eauto].
    + intros j pc H Hp. exact Einit.
    + intros _. apply Hs. left. exact Einit.
    + rewrite Einit. discriminate.
  - constructor; assumption.
Qed.

Lemma GetRef_run_inv k schedule st :
  GetRef_inv k st -> GetRef_inv k (GetRef_run schedule st).
Proof.
  revert st. induction schedule as [| i rest IH]; intros st I; [exact I |].
  apply (IH (GetRef_step i st)), GetRef_step_inv, I.
Qed.

Lemma GetRef_inv_start n k :
  GetRef_inv k (replicate n AtFirstCheck, mkSingleton false None k).
Proof.
  constructor; cbn [fst snd _lock _init startups].
  - intros j pc H. apply lookup_replicate in H as (-> & _). discriminate.
  - discriminate.
  - intros j pc H. apply lookup_replicate in H as (-> & _). discriminate.
  - intros j pc H. apply lookup_replicate in H as (-> & _). discriminate.
  - intros [E | (j & H)]; [discriminate |].
    apply lookup_replicate in H as (E & _). discriminate.
  - reflexivity.
Qed.

(** Any number of threads call [GetRef] on a singleton that is not yet
    initialised, their statements interleaved in any order.  At every
    moment [OnSingletonStartup] has run at most once; once all the calls
    have returned it has run exactly once, the instance is initialised and
    the mutex is free. *)
Theorem GetRef_starts_the_singleton_once (n k : nat) (schedule : list nat) :
  let st := GetRef_run schedule (replicate n AtFirstCheck, mkSingleton false None k) in
  (k <= startups (snd st) <= S k)%nat /\
  (n <> 0%nat -> Forall (fun pc => pc = Returned) (fst st) ->
   startups (snd st) = S k /\ _init (snd st) = true /\ _lock (snd st) = None).
Proof.
  intros st.
  pose proof (GetRef_run_inv k schedule _ (GetRef_inv_start n k)) as I.
  fold st in I. destruct I as [Hh Hl Hb Ha Hs Hn]. split.
  - destruct (_init (snd st)) eqn:E; [rewrite Hs by auto; lia |].
    destruct (_lock (snd st)) as [j |] eqn:El.
    + destruct (Hl j eq_refl) as (pc & P & Hp).
      assert (D : pc = AtSetInit \/ pc <> AtSetInit)
        by (destruct pc; auto; right; discriminate).
      destruct D as [-> | D]; [rewrite Hs by eauto; lia |].
      rewrite Hn; [lia | reflexivity |]. intros j' P'.
      pose proof (Hh _ _ P' eq_refl) as El'. congruence.
    + rewrite Hn; [lia | reflexivity |]. intros j' P'.
      pose proof (Hh _ _ P' eq_refl) as El'. congruence.
  - intros Hn0 R.
    assert (L : length (fst st) = n).
    { subst st. clear. generalize (mkSingleton false None k).
      assert (G : forall sch th s, length (fst (GetRef_run sch (th, s))) = length th).
      { induction sch as [| i rest IH]; intros th s; [reflexivity |].
        cbn [GetRef_run fold_left]. fold (GetRef_run rest (GetRef_step i (th, s))).
        destruct (GetRef_step i (th, s)) as [th' s'] eqn:E. rewrite IH.
        unfold GetRef_step in E. destruct (th !! i) as [[] |];
          try destruct (_lock s); injection E as <- _;
          rewrite ?length_insert; reflexivity. }
      intros s. rewrite G. apply length_replicate. }
    assert (Ei : _init (snd st) = true).
    { destruct (fst st) as [| pc rest] eqn:Et; [simpl in L; congruence |].
      apply Forall_cons in R as (-> & _).
      apply (Ha 0%nat Returned); reflexivity. }
    split; [apply Hs; auto |]. split; [exact Ei |].
    destruct (_lock (snd st)) as [j |] eqn:El; [| reflexivity].
    destruct (Hl j eq_refl) as (pc & P & Hp).
    apply list_elem_of_lookup_2 in P.
    rewrite (proj1 (Forall_forall _ _) R _ P) in Hp. discriminate.
Qed.

(** One thread alone runs the statements of [GetRef] in order: the steps
    add up to the function. *)
Lemma GetRef_alone (s : Singleton) :
  _lock s = None ->
  GetRef_run [0; 0; 0; 0; 0; 0]%nat ([AtFirstCheck], s) = ([Returned], GetRef s).
Proof.
  destruct s as [init lock k]. cbn [_lock]. intros ->.
  destruct init; reflexivity.
Qed.

(** *** The properties above at concrete inputs *)

(** An object with two references held. *)
Definition sample_object : RefObject := mkRefObject 2 0 0.

Lemma ReleaseRef_finalizes_at_zero_witness :
  0 <= _ref_count sample_object < 2^32 /\
  zero_references (ReleaseRef 2 sample_object) = 1%nat /\
  zero_references (ReleaseRef 1 sample_object) = 0%nat.
Proof.
  assert (H : 0 <= _ref_count sample_object < 2^32) by (cbn; lia).
  split; [exact H |].
  destruct (ReleaseRef_finalizes_at_zero 2 sample_object H) as (_ & _ & E2).
  destruct (ReleaseRef_finalizes_at_zero 1 sample_object H) as (_ & _ & E1).
  split; [exact E2 | exact E1].
Defined.

Lemma references_keep_the_object_alive_witness :
  0 < _ref_count sample_object < 2^32 /\
  zero_references
    (ref_calls [CallAddRef 1; CallReleaseRef 2; CallAddRef 3] sample_object)
    = 0%nat /\
  zero_references
    (ref_calls ([CallAddRef 1; CallReleaseRef 2; CallAddRef 3]
                  ++ [CallReleaseRef 4]) sample_object) = 1%nat.
Proof.
  assert (H : 0 < _ref_count sample_object < 2^32) by (cbn; lia).
  split; [exact H |].
  assert (F : Forall (fun n => 0 < n < 2^32)
                (references_after (_ref_count sample_object)
                   [CallAddRef 1; CallReleaseRef 2; CallAddRef 3])).
  { cbn. repeat constructor; lia. }
  destruct (references_keep_the_object_alive
              [CallAddRef 1; CallReleaseRef 2; CallAddRef 3] sample_object H F)
    as (Z1 & _ & Z2 & _).
  split; [exact Z1 | exact Z2].
Defined.

(** Two threads, the second entering while the first holds the mutex. *)
Lemma GetRef_starts_the_singleton_once_witness :
  let st := GetRef_run [0; 1; 0; 1; 0; 0; 1; 0; 0; 1; 1; 1; 1]%nat
                       (replicate 2 AtFirstCheck, mkSingleton false None 0) in
  fst st = [Returned; Returned] /\
  startups (snd st) = 1%nat /\ _init (snd st) = true /\ _lock (snd st) = None.
Proof.
  intros st.
  assert (R : fst st = [Returned; Returned]) by reflexivity.
  split; [exact R |].
  apply (proj2 (GetRef_starts_the_singleton_once 2 0
                  [0; 1; 0; 1; 0; 0; 1; 0; 0; 1; 1; 1; 1]%nat)).
  - discriminate.
  - fold st. rewrite R. repeat constructor.
Defined.

End RefObjectsFacts.

(** ** Modular inversion in a pseudo-Mersenne field *)

Module BigPseudoMersenneFacts.

Import BigPseudoMersenne.

#[local] Open Scope Z_scope.

Section Exponent.

Context `{F : Field}.

Hypothesis MrMultiply_assoc :
  forall x y z, MrMultiply x (MrMultiply y z) = MrMultiply (MrMultiply x y) z.
Hypothesis MrSquare_spec : forall x, MrSquare x = MrMultiply x x.

Lemma power_1 x : power x 1 = x.
Proof. reflexivity. Qed.

Lemma power_succ x e : 0 < e -> power x (e + 1) = MrMultiply x (power x e).
Proof.
  intros H. unfold power. rewrite Z2Pos.inj_add by lia.
  change (Z.to_pos 1) with 1%positive. rewrite Pos.add_1_r.
  apply Pos.iter_op_succ. exact MrMultiply_assoc.
Qed.

Lemma power_add x a b :
  0 < a -> 0 < b -> MrMultiply (power x a) (power x b) = power x (a + b).
Proof.
  intros Ha Hb.
  assert (N : forall n : nat,
             MrMultiply (power x (Z.of_nat n + 1)) (power x b)
             = power x (Z.of_nat n + 1 + b)).
  { induction n as [| n IH].
    - change (Z.of_nat 0 + 1) with 1. rewrite power_1.
      rewrite (Z.add_comm 1 b). symmetry. apply power_succ. exact Hb.
    - rewrite Nat2Z.inj_succ. unfold Z.succ.
      rewrite (power_succ x (Z.of_nat n + 1)) by lia.
      rewrite <- MrMultiply_assoc, IH.
      replace (Z.of_nat n + 1 + 1 + b) with (Z.of_nat n + 1 + b + 1) by lia.
      symmetry. apply power_succ. lia. }
  specialize (N (Z.to_nat (a - 1))).
  replace (Z.of_nat (Z.to_nat (a - 1)) + 1) with a in N by lia. exact N.
Qed.

Lemma power_times_x x e : 0 < e -> MrMultiply (power x e) x = power x (e + 1).
Proof. intros H. rewrite <- (power_add x e 1) by lia. reflexivity. Qed.

Lemma square_power x e : 0 < e -> MrSquare (power x e) = power x (2 * e).
Proof.
  intros H. rewrite MrSquare_spec, power_add by lia. f_equal. lia.
Qed.

Lemma squares_power x n e :
  0 < e -> Nat.iter n MrSquare (power x e) = power x (2 ^ Z.of_nat n * e).
Proof.
  intros H. induction n as [| n IH].
  - simpl. f_equal. lia.
  - rewrite Nat.iter_succ, IH, square_power by nia. f_equal.
    rewrite Nat2Z.inj_succ, Z.pow_succ_r by lia. lia.
Qed.

Lemma first_window_power x ctr e :
  0 < e ->
  first_window ctr x (power x e) = power x (2 ^ Z.of_nat ctr * (e + 1) - 1).
Proof.
  revert e. induction ctr as [| ctr IH]; intros e H.
  - simpl. f_equal. lia.
  - cbn [first_window]. rewrite square_power by lia.
    rewrite power_times_x by lia.
    rewrite IH by lia. f_equal.
    rewrite Nat2Z.inj_succ, Z.pow_succ_r by lia. lia.
Qed.

Lemma pow_16_minus_1 (n : nat) :
  exists q, 0 <= q /\ 2 ^ (16 * Z.of_nat n) - 1 = 65535 * q.
Proof.
  induction n as [| n (q & Hq & IHn)].
  - exists 0. simpl. lia.
  - replace (16 * Z.of_nat (S n)) with (16 * Z.of_nat n + 16) by lia.
    rewrite Z.pow_add_r by lia. change (2 ^ 16) with 65536.
    exists (65536 * q + 1). lia.
Qed.

Lemma frames_power x n t e :
  0 < t -> 0 < e ->
  frames n (power x t) (power x e)
  = power x (2 ^ (16 * Z.of_nat n) * e + (2 ^ (16 * Z.of_nat n) - 1) / 65535 * t).
Proof.
  intros Ht. revert e. induction n as [| n IH]; intros e He.
  - cbn [frames]. f_equal. change (16 * Z.of_nat 0) with 0.
    change (2 ^ 0) with 1. change ((1 - 1) / 65535) with 0. lia.
  - cbn [frames]. unfold one_frame.
    rewrite (squares_power x 16 e He). change (2 ^ Z.of_nat 16) with 65536.
    rewrite power_add by lia. rewrite IH by lia. f_equal.
    replace (16 * Z.of_nat (S n)) with (16 * Z.of_nat n + 16) by lia.
    rewrite Z.pow_add_r by lia. change (2 ^ 16) with 65536.
    destruct (pow_16_minus_1 n) as (q & Hq & E).
    set (P := 2 ^ (16 * Z.of_nat n)) in *.
    replace (P * 65536 - 1) with ((65536 * q + 1) * 65535) by lia.
    rewrite E, (Z.mul_comm 65535 q), !Z.div_mul by lia. lia.
Qed.

Lemma low_bits m b :
  0 <= b ->
  m mod 2 ^ (b + 1) = 2 ^ b * Z.b2z (Z.testbit m b) + m mod 2 ^ b.
Proof.
  intros Hb. rewrite Z.pow_add_r, Z.pow_1_r by lia.
  rewrite Z.rem_mul_r by lia. rewrite Z.testbit_spec' by lia. lia.
Qed.

Lemma final_leg_power x bits m e :
  0 < e ->
  final_leg bits m x (power x e)
  = power x (2 ^ Z.of_nat bits * e + m mod 2 ^ Z.of_nat bits).
Proof.
  revert e. induction bits as [| b IH]; intros e He.
  - simpl. rewrite Z.mod_1_r. f_equal. lia.
  - cbn [final_leg]. rewrite square_power by lia.
    rewrite Nat2Z.inj_succ. unfold Z.succ.
    rewrite (low_bits m (Z.of_nat b)) by lia.
    pose proof (Z.mod_pos_bound m (2 ^ Z.of_nat b) ltac:(lia)).
    assert (0 < 2 ^ Z.of_nat b) by lia.
    rewrite Z.pow_add_r, Z.pow_1_r by lia.
    destruct (Z.testbit m (Z.of_nat b)).
    + rewrite power_times_x, IH by lia.
      f_equal. simpl Z.b2z. lia.
    + rewrite IH by lia. f_equal. simpl Z.b2z. lia.
Qed.

(** [MrInvert] raises its input to the power [m - 2], where
    [m = 2^(8 * RegBytes) - modulus_c] is the modulus: the inverse, by
    Fermat's little theorem, when [m] is prime.  This needs a register of a
    whole number of 16-bit windows, at least two, legs of at least 16 bits
    and [modulus_c + 2 <= 2^16]. *)
Theorem MrInvert_is_power_modulus_minus_2 (in_ : Reg) :
  16 <= Leg_bits ->
  0 <= modulus_c <= 65534 ->
  4 <= RegBytes -> RegBytes mod 2 = 0 ->
  MrInvert in_ = Some (power in_ (2 ^ (8 * RegBytes) - modulus_c - 2)).
Proof.
  intros HL Hc HR He.
  assert (Ek : exists k, RegBytes = 2 * k /\ 2 <= k).
  { exists (RegBytes / 2). pose proof (Z.div_mod RegBytes 2 ltac:(lia)). lia. }
  destruct Ek as (k & Ek & Hk).
  unfold MrInvert, w.
  replace (Z.quot (RegBytes * 8 - 16 * 2) 16) with (k - 2).
  2:{ rewrite Z.quot_div_nonneg by lia. apply Z.div_unique with 0; lia. }
  destruct (Z.ltb_spec (k - 2) 0) as [? | _]; [lia |]. f_equal.
  pose proof (first_window_power in_ (Z.to_nat (16 - 1)) 1 ltac:(lia)) as W.
  rewrite power_1 in W. rewrite W. clear W.
  change (2 ^ Z.of_nat (Z.to_nat (16 - 1)) * (1 + 1) - 1) with (2 ^ 16 - 1).
  rewrite frames_power by lia.
  destruct (pow_16_minus_1 (Z.to_nat (k - 2))) as (q & Hq & E).
  set (P := 2 ^ (16 * Z.of_nat (Z.to_nat (k - 2)))) in *.
  assert (HP : 0 < P) by (subst P; apply Z.pow_pos_nonneg; lia).
  replace (P * (2 ^ 16 - 1) + (P - 1) / 65535 * (2 ^ 16 - 1))
    with (P * 2 ^ 16 - 1).
  2:{ rewrite E, (Z.mul_comm 65535 q), Z.div_mul by lia.
      change (2 ^ 16) with 65536. lia. }
  rewrite final_leg_power by lia. f_equal.
  change (Z.of_nat (Z.to_nat 16)) with 16.
  assert (E8 : 2 ^ (8 * RegBytes) = P * 2 ^ 16 * 2 ^ 16).
  { subst P. rewrite <- !Z.pow_add_r by lia. f_equal. lia. }
  clearbody P.
  rewrite E8.
  rewrite Z.mod_mod_divide.
  2:{ exists (2 ^ (Leg_bits - 16)). rewrite <- Z.pow_add_r by lia. f_equal. lia. }
  assert (Em : (0 - (modulus_c + 2)) mod 2 ^ 16 = 2 ^ 16 - (modulus_c + 2)).
  { change (2 ^ 16) with 65536.
    symmetry. apply Z.mod_unique with (-1); lia. }
  rewrite Em. lia.
Qed.

End Exponent.

(** The field of integers modulo [2^32 - 5], in a register of four bytes. *)
Definition sample_field : Field :=
  {| Reg := Z;
     MrSquare := fun x => (x * x) mod (2 ^ 32 - 5);
     MrMultiply := fun x y => (x * y) mod (2 ^ 32 - 5);
     RegBytes := 4;
     modulus_c := 5;
     Leg_bits := 32 |}.

Lemma MrInvert_is_power_modulus_minus_2_witness :
  @MrInvert sample_field 3 = Some (@power sample_field 3 (2 ^ 32 - 5 - 2)).
Proof.
  apply (@MrInvert_is_power_modulus_minus_2 sample_field).
  - intros x y z. cbn [MrMultiply sample_field].
    rewrite Z.mul_mod_idemp_r, Z.mul_mod_idemp_l by lia. f_equal. lia.
  - reflexivity.
  - cbn. lia.
  - cbn. lia.
  - cbn. lia.
  - reflexivity.
Defined.

End BigPseudoMersenneFacts.

(** ** Connection table: the collision probe has full period *)

Module ConnectionMapFacts.

Import ConnectionMap.

(** A step function on the slots [0 .. n-1] whose walk from slot 0 comes
    back to slot 0 after exactly [n] steps, and not before. *)
Section FullPeriod.

Variable step : Z -> Z.
Variable n : nat.
Hypothesis step_range : forall k, 0 <= step k < Z.of_nat n.
Hypothesis returns : Nat.iter n step 0 = 0.
Hypothesis not_before : forall j, (0 < j < n)%nat -> Nat.iter j step 0 <> 0.

Lemma probe_walk_length steps k : length (probe_walk step steps k) = steps.
Proof. revert k. induction steps as [|m IH]; intros k; simpl; [reflexivity | now rewrite IH]. Qed.

Lemma probe_walk_lookup steps k i :
  (i < steps)%nat -> probe_walk step steps k !! i = Some (Nat.iter i step k).
Proof.
  revert k i. induction steps as [|m IH]; intros k i Hi; [lia |].
  destruct i as [|i]; simpl; [reflexivity |].
  rewrite IH by lia. now rewrite <- Nat.iter_succ_r.
Qed.

Lemma probe_walk_lookup_inv steps k i x :
  probe_walk step steps k !! i = Some x -> (i < steps)%nat /\ x = Nat.iter i step k.
Proof.
  intros H. assert (Hi : (i < steps)%nat).
  { apply lookup_lt_Some in H. now rewrite probe_walk_length in H. }
  rewrite probe_walk_lookup in H by exact Hi. split; [exact Hi | congruence].
Qed.

Lemma iter_period m : Nat.iter (m + n) step 0 = Nat.iter m step 0.
Proof. now rewrite Nat.iter_add, returns. Qed.

Lemma iter_periods q m : Nat.iter (m + q * n) step 0 = Nat.iter m step 0.
Proof.
  induction q as [|q IH]; simpl.
  - now rewrite Nat.add_0_r.
  - replace (m + (n + q * n))%nat with ((m + q * n) + n)%nat by lia.
    now rewrite iter_period.
Qed.

Lemma n_positive : (0 < n)%nat.
Proof. pose proof (step_range 0). lia. Qed.

Lemma iter_mod m : Nat.iter m step 0 = Nat.iter (m mod n) step 0.
Proof.
  pose proof (Nat.div_mod_eq m n) as D.
  assert (E : m = (m mod n + (m / n) * n)%nat) by lia.
  rewrite <- (iter_periods (m / n) (m mod n)). now rewrite <- E.
Qed.

(** Two indices below [n] reach the same slot from 0 only if they are equal. *)
Lemma iter_from_0_lt i j :
  (i < j < n)%nat -> Nat.iter i step 0 <> Nat.iter j step 0.
Proof.
  intros Hij E.
  apply (not_before (i + (n - j))%nat); [lia |].
  rewrite Nat.add_comm, Nat.iter_add, E, <- Nat.iter_add.
  replace (n - j + j)%nat with n by lia. exact returns.
Qed.

Lemma iter_from_0_inj i j :
  (i < n)%nat -> (j < n)%nat -> Nat.iter i step 0 = Nat.iter j step 0 -> i = j.
Proof.
  intros Hi Hj E. destruct (Nat.lt_trichotomy i j) as [L | [L | L]]; [| exact L |].
  - exfalso. apply (iter_from_0_lt i j); [lia | exact E].
  - exfalso. apply (iter_from_0_lt j i); [lia | now symmetry].
Qed.

Lemma iter_in_range i k : 0 <= k < Z.of_nat n -> 0 <= Nat.iter i step k < Z.of_nat n.
Proof. intros Hk. destruct i as [|i]; simpl; [exact Hk | apply step_range]. Qed.

(** Every slot lies on the walk from slot 0. *)
Lemma reached_from_0 k :
  0 <= k < Z.of_nat n -> exists i, (i < n)%nat /\ Nat.iter i step 0 = k.
Proof.
  intros Hk.
  assert (P : probe_walk step n 0 ≡ₚ seqZ 0 (Z.of_nat n)).
  { apply submseteq_length_Permutation.
    - apply NoDup_submseteq.
      + apply NoDup_alt. intros i j x Hi Hj.
        apply probe_walk_lookup_inv in Hi as [Hi ->].
        apply probe_walk_lookup_inv in Hj as [Hj E].
        now apply iter_from_0_inj.
      + intros x Hx. apply list_elem_of_lookup in Hx as [i Hi].
        apply probe_walk_lookup_inv in Hi as [Hi ->].
        apply elem_of_seqZ. pose proof (iter_in_range i 0) as R.
        pose proof n_positive. lia.
    - rewrite length_seqZ, probe_walk_length. lia. }
  assert (Hin : k ∈ probe_walk step n 0).
  { rewrite P. apply elem_of_seqZ. lia. }
  apply list_elem_of_lookup in Hin as [i Hi].
  apply probe_walk_lookup_inv in Hi as [Hi ->]. now exists i.
Qed.

Lemma iter_from i a : Nat.iter a step (Nat.iter i step 0) = Nat.iter (a + i) step 0.
Proof. now rewrite Nat.iter_add. Qed.

(** From any slot the walk has the same period. *)
Lemma iter_from_any_inj k a b :
  0 <= k < Z.of_nat n -> (a < n)%nat -> (b < n)%nat ->
  Nat.iter a step k = Nat.iter b step k -> a = b.
Proof.
  intros Hk Ha Hb E. destruct (reached_from_0 k Hk) as (i & Hi & <-).
  rewrite !iter_from in E.
  rewrite (iter_mod (a + i)), (iter_mod (b + i)) in E.
  pose proof n_positive as Hn.
  apply iter_from_0_inj in E; try (apply Nat.mod_upper_bound; lia).
  assert (Ea : ((a + i) mod n = if (a + i <? n)%nat then a + i else a + i - n)%nat).
  { destruct (Nat.ltb_spec (a + i) n).
    - apply Nat.mod_small; lia.
    - symmetry. apply (Nat.mod_unique _ _ 1); lia. }
  assert (Eb : ((b + i) mod n = if (b + i <? n)%nat then b + i else b + i - n)%nat).
  { destruct (Nat.ltb_spec (b + i) n).
    - apply Nat.mod_small; lia.
    - symmetry. apply (Nat.mod_unique _ _ 1); lia. }
  rewrite Ea, Eb in E.
  destruct (Nat.ltb_spec (a + i) n), (Nat.ltb_spec (b + i) n); lia.
Qed.

Lemma full_period k :
  0 <= k < Z.of_nat n ->
  probe_walk step n k ≡ₚ seqZ 0 (Z.of_nat n) /\
  NoDup (probe_walk step n k) /\
  Nat.iter n step k = k /\
  (forall slot, 0 <= slot < Z.of_nat n ->
     exists i, (i < n)%nat /\ Nat.iter i step k = slot).
Proof.
  intros Hk.
  assert (ND : NoDup (probe_walk step n k)).
  { apply NoDup_alt. intros i j x Hi Hj.
    apply probe_walk_lookup_inv in Hi as [Hi ->].
    apply probe_walk_lookup_inv in Hj as [Hj E].
    now apply (iter_from_any_inj k). }
  assert (P : probe_walk step n k ≡ₚ seqZ 0 (Z.of_nat n)).
  { apply submseteq_length_Permutation.
    - apply NoDup_submseteq; [exact ND |].
      intros x Hx. apply list_elem_of_lookup in Hx as [i Hi].
      apply probe_walk_lookup_inv in Hi as [Hi ->].
      apply elem_of_seqZ. pose proof (iter_in_range i k Hk). lia.
    - rewrite length_seqZ, probe_walk_length. lia. }
  repeat split; try assumption.
  - destruct (reached_from_0 k Hk) as (i & Hi & <-).
    rewrite iter_from, Nat.add_comm. apply iter_period.
  - intros slot Hs.
    assert (Hin : slot ∈ probe_walk step n k).
    { rewrite P. apply elem_of_seqZ. lia. }
    apply list_elem_of_lookup in Hin as [i Hi].
    apply probe_walk_lookup_inv in Hi as [Hi ->]. now exists i.
Qed.

End FullPeriod.

Lemma avoids_zero_spec step m k :
  avoids_zero step m k = true ->
  forall j, (0 < j <= m)%nat -> Nat.iter j step k <> 0.
Proof.
  revert k. induction m as [|m IH]; intros k H j Hj; [lia |].
  simpl in H. apply andb_prop in H as [H1 H2].
  destruct j as [|j]; [lia |]. rewrite Nat.iter_succ_r.
  destruct j as [|j].
  - simpl. destruct (Z.eqb_spec (step k) 0); [discriminate | assumption].
  - apply IH; [exact H2 | lia].
Qed.

Lemma next_collision_key_range k : 0 <= next_collision_key k < Z.of_nat TABLE_SLOTS.
Proof.
  unfold next_collision_key, TABLE_SLOTS, HASH_TABLE_SIZE.
  pose proof (Z.mod_pos_bound (COLLISION_MULTIPLIER * k + COLLISION_INCREMENTER) 32768).
  lia.
Qed.

(** The walk from slot 0, run once: back at 0 after [TABLE_SLOTS] steps. *)
Lemma walk_from_0_returns : Nat.iter TABLE_SLOTS next_collision_key 0 = 0.
Proof. vm_compute. reflexivity. Qed.

(** ... and at none of the steps before. *)
Lemma walk_from_0_not_before :
  avoids_zero next_collision_key (pred TABLE_SLOTS) 0 = true.
Proof. vm_compute. reflexivity. Qed.

(** The 32-bit product and sum of the C++ expression wrap modulo [2^32],
    which the reduction modulo the table size absorbs. *)
Lemma next_collision_key_u32 key :
  MachineInt.u32 (MachineInt.u32 (key * COLLISION_MULTIPLIER) + COLLISION_INCREMENTER)
    mod HASH_TABLE_SIZE = next_collision_key key.
Proof.
  unfold next_collision_key, MachineInt.u32, HASH_TABLE_SIZE.
  assert (D : (32768 | 2 ^ 32)) by (exists 131072; reflexivity).
  rewrite Z.mod_mod_divide by exact D.
  rewrite Z.add_mod by lia.
  rewrite Z.mod_mod_divide by exact D.
  rewrite <- Z.add_mod by lia. f_equal. lia.
Qed.

(** C3.  With the constants of [SphynxTransport.hpp], the probe map is a
    full-period permutation of the table: from every slot, the first
    [HASH_TABLE_SIZE] keys of the probe walk are the slots [0 .. 32767],
    each exactly once; the walk is then back at its start; hence every slot
    is reached from every other in fewer than [HASH_TABLE_SIZE] steps. *)
Theorem next_collision_key_full_period (key : Z) :
  0 <= key < HASH_TABLE_SIZE ->
  probe_walk next_collision_key TABLE_SLOTS key ≡ₚ seqZ 0 HASH_TABLE_SIZE /\
  NoDup (probe_walk next_collision_key TABLE_SLOTS key) /\
  Nat.iter TABLE_SLOTS next_collision_key key = key /\
  (forall slot, 0 <= slot < HASH_TABLE_SIZE ->
     exists i, (i < TABLE_SLOTS)%nat /\ Nat.iter i next_collision_key key = slot).
Proof.
  intros Hk.
  assert (E : HASH_TABLE_SIZE = Z.of_nat TABLE_SLOTS).
  { unfold TABLE_SLOTS. rewrite Z2Nat.id; [reflexivity | unfold HASH_TABLE_SIZE; lia]. }
  rewrite E in *.
  apply full_period; try assumption.
  - exact next_collision_key_range.
  - exact walk_from_0_returns.
  - intros j Hj. apply (avoids_zero_spec _ _ _ walk_from_0_not_before). lia.
Qed.

Lemma next_collision_key_full_period_witness :
  0 <= 5 < HASH_TABLE_SIZE /\
  (probe_walk next_collision_key TABLE_SLOTS 5 ≡ₚ seqZ 0 HASH_TABLE_SIZE /\
   NoDup (probe_walk next_collision_key TABLE_SLOTS 5) /\
   Nat.iter TABLE_SLOTS next_collision_key 5 = 5 /\
   (forall slot, 0 <= slot < HASH_TABLE_SIZE ->
      exists i, (i < TABLE_SLOTS)%nat /\ Nat.iter i next_collision_key 5 = slot)).
Proof.
  assert (H : 0 <= 5 < HASH_TABLE_SIZE) by (unfold HASH_TABLE_SIZE; lia).
  split; [exact H | exact (next_collision_key_full_period 5 H)].
Defined.

End ConnectionMapFacts.

(** ** The Sphynx client *)

Module SphynxFacts.

Import MachineInt MachineIntFacts Sphynx.

(** *** A concrete configuration, for the examples

    The specification's figures where it gives them (64 samples in the ring,
    3 samples at least in the selection, a 20 s synchronisation interval, a
    5 s fast interval and probe interval); the source's comment for the 4
    samples the drift estimate needs; the enumeration order [OUT_OF_MEMORY,
    BROKEN_PIPE, TIMEOUT, ICMP] for the client's own error codes.  The
    cryptographic collaborators are stand-ins: an answer validates when its
    first byte is not zero, and the derived key is the sum of its bytes. *)
Definition sample_constants : ClientConstants := {|
  ERR_CLIENT_OUT_OF_MEMORY := 0;
  ERR_CLIENT_BROKEN_PIPE := 1;
  ERR_CLIENT_TIMEOUT := 2;
  ERR_CLIENT_ICMP := 3;
  ERR_NUM_CLIENT_ERRORS := 4;
  DISCO_TIMEOUT := 1;
  CONNECT_TIMEOUT := 6000;
  INITIAL_HELLO_POST_INTERVAL := 200;
  HANDSHAKE_TICK_RATE := 100;
  IOP_S2C_MTU_SET := 0;
  IOP_S2C_MTU_SET_LEN := 3;
  IOP_S2C_TIME_PONG := 1;
  IOP_S2C_TIME_PONG_LEN := 9;
  IOP_DISCO := 2;
  IOP_DISCO_LEN := 2;
  MAX_TS_SAMPLES := 64;
  MIN_TS_SAMPLES := 3;
  MIN_DRIFT_SAMPLES := 4;
  TIME_SYNC_INTERVAL := 20000;
  TIME_SYNC_FAST := 5000;
  TIME_SYNC_FAST_COUNT := 8;
  MTU_PROBE_INTERVAL := 5000;
  SILENCE_LIMIT := 9000;
  IOP_C2S_TIME_PING := 3
|}.

Definition sample_collaborators : Collaborators := {|
  AuthenticatedEncryption := Z;
  KeyAgreementInitiator := unit;
  Skein := Z;
  ProcessAnswer := fun _ answer =>
    if byte_at answer 0 =? 0 then None else Some (fold_right Z.add 0 answer);
  KeyEncryption := fun _ key_hash _ session_key =>
    (negb (key_hash =? 0), key_hash + fold_right Z.add 0 session_key);
  Decrypt := fun ae data => (negb (byte_at data 0 =? 0), ae + 1, skipn 1 data);
  Encrypt := fun ae data => (true, ae + 1, 1 :: data)
|}.

Definition fresh_clock_sync : ClockSync :=
  mkClockSync 0 0%Q 0 0 0 (replicate 64 (mkSample 0 0 0)) 0 0.

(** A client that has posted its hello to the server at port 22000. *)
Definition sample_client : @Client sample_collaborators :=
  @mkClient sample_collaborators
    false 0 false (mkAddr 167772161 22000) 0 tt [1; 2; 3]
    (replicate 64 9) (replicate 64 5) 0 0 1332 11 fresh_clock_sync
    [Post (mkAddr 167772161 22000)
          ([C2S_HELLO] ++ le_bytes 4 PROTOCOL_MAGIC ++ replicate 64 9)].

Definition sample_env : Env := mkEnv 1000 true true true true.

(** *** Teardown: [Disconnect] and [ConnectFail] *)

Section ClientFacts.

Context `{K : ClientConstants} `{X : Collaborators}.

Lemma set_destroyed_same c : _destroyed c = 1 -> set_destroyed 1 c = c.
Proof. destruct c; simpl; intros ->; reflexivity. Qed.

Lemma teardown_after_destroyed t c : _destroyed c = 1 -> teardown t c = c.
Proof.
  intros H. destruct t; simpl; unfold Disconnect, ConnectFail, Atomic_Set_destroyed;
    rewrite H; simpl; apply set_destroyed_same; exact H.
Qed.

Lemma teardowns_after_destroyed ts c : _destroyed c = 1 -> teardowns ts c = c.
Proof.
  intros H. induction ts as [|t ts IH]; simpl; [reflexivity |].
  unfold teardowns in *. simpl. rewrite teardown_after_destroyed by exact H. exact IH.
Qed.

Lemma teardown_first t c :
  _destroyed c = 0 ->
  _destroyed (teardown t c) = 1 /\
  _kill_flag (teardown t c) = true /\
  trace (teardown t c) =
    trace c ++
      match t with
      | CallDisconnect reason true =>
          [PostDisconnect reason; TransportDisconnected; OnDisconnect reason; Close]
      | CallDisconnect reason false =>
          [TransportDisconnected; OnDisconnect reason; Close]
      | CallConnectFail err =>
          [TransportDisconnected; OnConnectFail err; Close]
      end.
Proof.
  intros H. destruct t as [reason [|] | err]; simpl;
    unfold Disconnect, ConnectFail, Atomic_Set_destroyed; rewrite H; simpl;
    repeat split; rewrite <- ?app_assoc; reflexivity.
Qed.

(** **** Teardown calls made at once *)

Definition is_upcall_stmt (s : Stmt) : bool :=
  match s with SEmit ev => is_teardown_upcall ev | _ => false end.

Definition is_exchange (s : Stmt) : bool :=
  match s with SExchange _ => true | _ => false end.

(** The teardown upcalls a thread has yet to make, and those of all threads. *)
Definition upcalls_in (th : list Stmt) : nat :=
  length (filter (fun s => is_upcall_stmt s = true) th).

Definition pending (threads : list (list Stmt)) : nat :=
  sum_list (map upcalls_in threads).

Definition unstarted (th : list Stmt) : Prop := exists t, th = [SExchange t].
Definition running (th : list Stmt) : Prop := Forall (fun s => is_exchange s = false) th.

Definition upcall_count (c : Client) : nat := length (teardown_upcalls c).

(** What every interleaving preserves: the flag is 0 or 1; while it is 0 no
    call has got past its exchange; the upcalls made and those still to be
    made add up to one more than at the start exactly when the flag is set. *)
Record teardown_inv (n0 len : nat) (st : list (list Stmt) * Client) : Prop := {
  inv_flag : _destroyed (snd st) = 0 \/ _destroyed (snd st) = 1;
  inv_length : length (fst st) = len;
  inv_threads : Forall (fun th => unstarted th \/ running th) (fst st);
  inv_fresh : _destroyed (snd st) = 0 -> Forall unstarted (fst st);
  inv_count : (upcall_count (snd st) + pending (fst st)
               = n0 + if (_destroyed (snd st) =? 0)%Z then 0 else 1)%nat
}.

Lemma upcalls_in_body t : upcalls_in (body_of t) = 1%nat.
Proof. destruct t as [reason [|] | err]; reflexivity. Qed.

Lemma running_body t : running (body_of t).
Proof. destruct t as [reason [|] | err]; repeat constructor. Qed.

Lemma pending_unstarted threads : Forall unstarted threads -> pending threads = 0%nat.
Proof.
  induction 1 as [|th threads [t ->] _ IH]; [reflexivity |].
  unfold pending in *. simpl. rewrite IH. reflexivity.
Qed.

Lemma pending_insert threads i th th' :
  threads !! i = Some th ->
  (pending (<[i := th']> threads) + upcalls_in th = pending threads + upcalls_in th')%nat.
Proof.
  revert i. induction threads as [|x threads IH]; intros i H; [discriminate |].
  destruct i as [|i]; simpl in *.
  - injection H as ->. unfold pending. simpl. lia.
  - specialize (IH i H). unfold pending in *. simpl. lia.
Qed.

Lemma upcall_count_emit ev c :
  upcall_count (emit ev c)
  = (upcall_count c + if is_teardown_upcall ev then 1 else 0)%nat.
Proof.
  unfold upcall_count, teardown_upcalls. simpl. rewrite filter_app, length_app.
  f_equal. destruct ev; reflexivity.
Qed.

Lemma not_unstarted_running s rest :
  is_exchange s = false -> unstarted (s :: rest) \/ running (s :: rest) ->
  running rest /\ ~ unstarted (s :: rest).
Proof.
  intros Hs [[t E] | R].
  - injection E as -> _. discriminate.
  - apply Forall_cons in R as [_ R]. split; [exact R |].
    intros [t E]. injection E as -> _. discriminate.
Qed.

Lemma thread_step_inv n0 len i st :
  teardown_inv n0 len st -> teardown_inv n0 len (thread_step i st).
Proof.
  destruct st as [threads c]. intros [Hflag Hlen Hth Hfresh Hcount]. simpl in *.
  unfold thread_step.
  destruct (threads !! i) as [[|s rest]|] eqn:Ei;
    try (constructor; assumption).
  pose proof (Forall_lookup_1 _ _ _ _ Hth Ei) as Hi.
  destruct s as [t | ev |].
  - (* the exchange *)
    destruct Hi as [[t' E] | R];
      [| apply Forall_cons in R as [R _]; discriminate].
    injection E as Et Er. subst t' rest.
    unfold Atomic_Set_destroyed.
    pose proof (pending_insert threads i [SExchange t]) as PI.
    destruct (Z.eqb_spec (_destroyed c) 0) as [D0|D1].
    + specialize (PI (body_of t) Ei). rewrite upcalls_in_body in PI.
      rewrite (pending_unstarted threads (Hfresh D0)) in *.
      constructor; simpl.
      * right; reflexivity.
      * rewrite length_insert. exact Hlen.
      * apply Forall_insert; [exact Hth | right; apply running_body].
      * discriminate.
      * change (upcalls_in [SExchange t]) with 0%nat in PI.
        unfold upcall_count, teardown_upcalls in *. simpl. lia.
    + specialize (PI [] Ei).
      constructor; simpl.
      * right; reflexivity.
      * rewrite length_insert. exact Hlen.
      * apply Forall_insert; [exact Hth | right; constructor].
      * discriminate.
      * destruct Hflag as [? | D]; [contradiction |].
        change (upcalls_in [SExchange t]) with 0%nat in PI.
        change (upcalls_in []) with 0%nat in PI.
        unfold upcall_count, teardown_upcalls in *. simpl. lia.
  - (* a call, an upcall among them *)
    destruct (not_unstarted_running (SEmit ev) rest eq_refl Hi) as [R NU].
    pose proof (pending_insert threads i (SEmit ev :: rest) rest Ei) as PI.
    assert (D : _destroyed c = 1).
    { destruct Hflag as [D0 | D]; [| exact D]. exfalso. apply NU.
      exact (Forall_lookup_1 _ _ _ _ (Hfresh D0) Ei). }
    constructor; simpl.
    + right; exact D.
    + rewrite length_insert. exact Hlen.
    + apply Forall_insert; [exact Hth | right; exact R].
    + rewrite D. discriminate.
    + rewrite upcall_count_emit. rewrite D in *. simpl in *.
      unfold upcalls_in in PI. simpl in PI.
      rewrite filter_cons in PI. unfold upcalls_in.
      destruct (is_teardown_upcall ev) eqn:Eu; simpl in PI.
      * destruct (decide (is_teardown_upcall ev = true)); [| contradiction].
        simpl in PI. lia.
      * destruct (decide (is_teardown_upcall ev = true)); [congruence |]. lia.
  - (* the kill flag *)
    destruct (not_unstarted_running SKill rest eq_refl Hi) as [R NU].
    pose proof (pending_insert threads i (SKill :: rest) rest Ei) as PI.
    assert (D : _destroyed c = 1).
    { destruct Hflag as [D0 | D]; [| exact D]. exfalso. apply NU.
      exact (Forall_lookup_1 _ _ _ _ (Hfresh D0) Ei). }
    constructor; simpl.
    + right; exact D.
    + rewrite length_insert. exact Hlen.
    + apply Forall_insert; [exact Hth | right; exact R].
    + rewrite D. discriminate.
    + rewrite D in *. simpl in *.
      change (upcalls_in (SKill :: rest)) with (upcalls_in rest) in PI.
      unfold upcall_count, teardown_upcalls in *. simpl. lia.
Qed.

Lemma interleave_inv n0 len schedule st :
  teardown_inv n0 len st -> teardown_inv n0 len (interleave schedule st).
Proof.
  revert st. unfold interleave.
  induction schedule as [|i schedule IH]; intros st H; simpl; [exact H |].
  apply IH, thread_step_inv, H.
Qed.

Lemma teardown_inv_start calls c :
  _destroyed c = 0 ->
  teardown_inv (upcall_count c) (length calls) (map thread_of calls, c).
Proof.
  intros D.
  assert (U : Forall unstarted (map thread_of calls)).
  { apply Forall_forall. intros th Hth. apply list_elem_of_fmap in Hth as (t & -> & _).
    exists t. reflexivity. }
  constructor; simpl.
  - left; exact D.
  - apply length_map.
  - eapply Forall_impl; [exact U | intros th; auto].
  - intros _. exact U.
  - rewrite D, (pending_unstarted _ U). reflexivity.
Qed.

(** A call that runs alone is the function of the source. *)
Lemma interleave_alone t c :
  snd (interleave (replicate 6 0%nat) ([thread_of t], c)) = teardown t c.
Proof.
  unfold interleave, thread_of, teardown, Disconnect, ConnectFail, Atomic_Set_destroyed.
  destruct t as [reason [|] | err]; simpl; destruct (_destroyed c =? 0); reflexivity.
Qed.

(** C5.  On a client that has not been torn down, whatever calls of
    [Disconnect] and [ConnectFail] follow one another: the first one sets
    [_destroyed] and makes its upcall, exactly one teardown upcall is added to
    those made before, and each later call leaves the client as it found it,
    so it makes no upcall.  When the calls are made at once and their
    statements interleave in any order, at most one teardown upcall is ever
    added, and exactly one once every call has returned; a call that runs
    alone is the function itself. *)
Theorem teardown_upcall_fires_once (c : Client) (first : Teardown) (later : list Teardown) :
  _destroyed c = 0 ->
  _destroyed (teardown first c) = 1 /\
  teardown_upcalls (teardown first c) = teardown_upcalls c ++ [upcall_of first] /\
  teardowns (first :: later) c = teardown first c /\
  (forall done_ t rest, later = done_ ++ t :: rest ->
     teardown t (teardowns (first :: done_) c) = teardowns (first :: done_) c) /\
  teardown_upcalls (teardowns (first :: later) c) = teardown_upcalls c ++ [upcall_of first] /\
  (forall schedule : list nat,
     (upcall_count (snd (interleave schedule (map thread_of (first :: later), c)))
      <= upcall_count c + 1)%nat /\
     (Forall (fun th => th = [])
             (fst (interleave schedule (map thread_of (first :: later), c))) ->
      upcall_count (snd (interleave schedule (map thread_of (first :: later), c)))
      = (upcall_count c + 1)%nat)) /\
  (forall (t : Teardown) (c0 : Client),
     snd (interleave (replicate 6 0%nat) ([thread_of t], c0)) = teardown t c0).
Proof.
  intros H. destruct (teardown_first first c H) as (D & _ & T).
  assert (U : teardown_upcalls (teardown first c) = teardown_upcalls c ++ [upcall_of first]).
  { unfold teardown_upcalls. rewrite T, filter_app. f_equal.
    destruct first as [reason [|] | err]; reflexivity. }
  assert (R : forall l, teardowns (first :: l) c = teardown first c).
  { intros l. unfold teardowns. simpl. apply teardowns_after_destroyed. exact D. }
  split; [exact D |]. split; [exact U |]. split; [apply R |].
  split; [| split; [| split]].
  - intros done_ t rest _. rewrite R. apply teardown_after_destroyed. exact D.
  - rewrite R. exact U.
  - intros schedule.
    pose proof (interleave_inv _ _ schedule _ (teardown_inv_start (first :: later) c H))
      as [Hflag Hlen Hth Hfresh Hcount].
    destruct (interleave schedule (map thread_of (first :: later), c)) as [threads c'].
    simpl in *. split.
    + destruct (_destroyed c' =? 0); lia.
    + intros Hdone.
      assert (P : pending threads = 0%nat).
      { clear - Hdone. induction Hdone as [|th threads -> _ IH]; [reflexivity |].
        unfold pending in *. simpl. exact IH. }
      destruct (Z.eqb_spec (_destroyed c') 0) as [D0|D1]; [| lia].
      exfalso. specialize (Hfresh D0).
      destruct threads as [|th threads]; [discriminate |].
      apply Forall_cons in Hdone as [-> _]. apply Forall_cons in Hfresh as [[t E] _].
      discriminate.
  - exact interleave_alone.
Qed.

(** *** The handshake answers: [OnRead] before the connection completes *)

Lemma NetAddr_eqb_eq a b : NetAddr_eqb a b = true <-> a = b.
Proof.
  destruct a as [i p], b as [i' p']. unfold NetAddr_eqb; simpl.
  rewrite andb_true_iff, !Z.eqb_eq. split; [intros [-> ->]; reflexivity |].
  intros E. injection E as -> ->. split; reflexivity.
Qed.

Lemma NetAddr_eqb_refl a : NetAddr_eqb a a = true.
Proof. apply NetAddr_eqb_eq. reflexivity. Qed.


Lemma error_is_no_cookie_no_answer (data : list Z) :
  Z.of_nat (length data) = S2C_ERROR_LEN ->
  (Z.of_nat (length data) =? S2C_COOKIE_LEN) = false /\
  (Z.of_nat (length data) =? S2C_ANSWER_LEN) = false.
Proof. intros ->. split; reflexivity. Qed.



(** What [OnRead] does with an error packet, spelled out. *)
Lemma OnRead_error_unfold e src data c :
  _connected c = false ->
  Z.of_nat (length data) = S2C_ERROR_LEN ->
  byte_at data 0 = S2C_ERROR ->
  OnRead e src data c =
    if negb (NetAddr_eqb (_server_addr c) src) then c
    else if byte_at data 1 <=? ERR_NUM_CLIENT_ERRORS then c
    else ConnectFail (byte_at data 1) c.
Proof.
  intros Hc Hl H0. unfold OnRead.
  destruct (error_is_no_cookie_no_answer data Hl) as [E1 E2].
  rewrite Hc, E1, E2, Hl, H0. simpl.
  destruct (negb (NetAddr_eqb (_server_addr c) src)); reflexivity.
Qed.

(** C2, as the code has it.  An S2C_ERROR packet of the right length reaches
    a client that is not connected.  When it comes from the server address,
    carries a code greater than [ERR_NUM_CLIENT_ERRORS] and the client has
    not been torn down yet, the client fails the connection: it makes the
    connect-fail upcall with the code of the packet (and only that upcall),
    sets [_destroyed] and the kill flag, and closes.  A packet whose code is
    at most [ERR_NUM_CLIENT_ERRORS], or that comes from another address, is
    ignored; so is any packet once the client has been torn down. *)
Theorem OnRead_error (e : Env) (src : NetAddr) (data : list Z) (c : Client) :
  _connected c = false ->
  Z.of_nat (length data) = S2C_ERROR_LEN ->
  byte_at data 0 = S2C_ERROR ->
  let err := byte_at data 1 in
  let c' := OnRead e src data c in
  (src = _server_addr c -> ERR_NUM_CLIENT_ERRORS < err -> _destroyed c = 0 ->
     trace c' = trace c ++ [TransportDisconnected; OnConnectFail err; Close] /\
     teardown_upcalls c' = teardown_upcalls c ++ [OnConnectFail err] /\
     _destroyed c' = 1 /\ _kill_flag c' = true /\ _connected c' = false) /\
  (err <= ERR_NUM_CLIENT_ERRORS -> c' = c) /\
  (src <> _server_addr c -> c' = c) /\
  (_destroyed c = 1 -> c' = c).
Proof.
  intros Hc Hl H0 err c'. subst c'.
  rewrite (OnRead_error_unfold e src data c Hc Hl H0). fold err.
  repeat split.
  - subst src. rewrite NetAddr_eqb_refl. simpl.
    destruct (Z.leb_spec err ERR_NUM_CLIENT_ERRORS); [lia |].
    apply (teardown_first (CallConnectFail err) c). assumption.
  - subst src. rewrite NetAddr_eqb_refl. simpl.
    destruct (Z.leb_spec err ERR_NUM_CLIENT_ERRORS); [lia |].
    unfold teardown_upcalls.
    destruct (teardown_first (CallConnectFail err) c) as (_ & _ & T); [assumption |].
    simpl in T. rewrite T, filter_app. reflexivity.
  - subst src. rewrite NetAddr_eqb_refl. simpl.
    destruct (Z.leb_spec err ERR_NUM_CLIENT_ERRORS); [lia |].
    apply (teardown_first (CallConnectFail err) c). assumption.
  - subst src. rewrite NetAddr_eqb_refl. simpl.
    destruct (Z.leb_spec err ERR_NUM_CLIENT_ERRORS); [lia |].
    apply (teardown_first (CallConnectFail err) c). assumption.
  - subst src. rewrite NetAddr_eqb_refl. simpl.
    destruct (Z.leb_spec err ERR_NUM_CLIENT_ERRORS); [lia |].
    unfold ConnectFail, Atomic_Set_destroyed.
    match goal with H : _destroyed c = 0 |- _ => rewrite H end. simpl. exact Hc.
  - intros Hle. destruct (negb _); [reflexivity |].
    destruct (Z.leb_spec err ERR_NUM_CLIENT_ERRORS); [reflexivity | lia].
  - intros Hne. destruct (NetAddr_eqb (_server_addr c) src) eqn:E; [| reflexivity].
    apply NetAddr_eqb_eq in E. congruence.
  - intros Hd. destruct (negb _); [reflexivity |].
    destruct (err <=? ERR_NUM_CLIENT_ERRORS); [reflexivity |].
    apply (teardown_after_destroyed (CallConnectFail err) c Hd).
Qed.

(** *** The payload size never shrinks *)

Ltac break_match :=
  match goal with
  | |- context [if ?b then _ else _] => destruct b eqn:?
  | |- context [match ?p with (_, _) => _ end] => destruct p eqn:?
  | |- context [match ?o with Some _ => _ | None => _ end] => destruct o eqn:?
  end.

Lemma mpb_ConnectFail err c :
  _max_payload_bytes (ConnectFail err c) = _max_payload_bytes c.
Proof. unfold ConnectFail, Atomic_Set_destroyed. simpl. now break_match. Qed.

Lemma mpb_Disconnect reason notify c :
  _max_payload_bytes (Disconnect reason notify c) = _max_payload_bytes c.
Proof.
  unfold Disconnect, Atomic_Set_destroyed. simpl. break_match; [| reflexivity].
  now destruct notify.
Qed.

Lemma mpb_teardown t c : _max_payload_bytes (teardown t c) = _max_payload_bytes c.
Proof. destruct t; [apply mpb_Disconnect | apply mpb_ConnectFail]. Qed.

Lemma mpb_OnRead e src data c :
  _max_payload_bytes (OnRead e src data c) = _max_payload_bytes c.
Proof.
  unfold OnRead.
  repeat (break_match; simpl; rewrite ?mpb_ConnectFail; try reflexivity).
Qed.

Lemma mpb_OnUnreachable src c :
  _max_payload_bytes (OnUnreachable src c) = _max_payload_bytes c.
Proof. unfold OnUnreachable. break_match; [apply mpb_ConnectFail | reflexivity]. Qed.

Lemma mpb_PostPacket e buffer c :
  _max_payload_bytes (snd (PostPacket e buffer c)) = _max_payload_bytes c.
Proof. unfold PostPacket. repeat (break_match; simpl; try reflexivity). Qed.

Lemma mpb_session_tick e l c :
  _max_payload_bytes (snd (session_tick e l c)) = _max_payload_bytes c.
Proof.
  unfold session_tick, post_probe_pair, PostTimePing.
  repeat (break_match; simpl in *; rewrite ?mpb_Disconnect; try reflexivity);
    repeat match goal with
           | H : (_, _) = (_, _) |- _ => injection H as <- <-
           end; simpl; rewrite ?mpb_Disconnect; reflexivity.
Qed.

(** What an MTU_SET message does to the payload size. *)
Lemma mpb_OnInternal e data c :
  _max_payload_bytes (OnInternal e data c) =
    if (byte_at data 0 =? IOP_S2C_MTU_SET)
       && (Z.of_nat (length data) =? IOP_S2C_MTU_SET_LEN)
       && (le_decode (slice data 1 2) >? _max_payload_bytes c)
    then le_decode (slice data 1 2)
    else _max_payload_bytes c.
Proof.
  unfold OnInternal.
  repeat (break_match; simpl in *; rewrite ?mpb_Disconnect; try reflexivity; try discriminate).
Qed.

Lemma mpb_session_call call l c :
  _max_payload_bytes c <= _max_payload_bytes (snd (session_call call (l, c))).
Proof.
  destruct call as [e src data | src | e data | e buffer | e | e | t]; simpl.
  - rewrite mpb_OnRead. lia.
  - rewrite mpb_OnUnreachable. lia.
  - rewrite mpb_OnInternal. break_match; [| lia].
    repeat match goal with
           | H : _ && _ = true |- _ => apply andb_prop in H as [? ?]
           end.
    lia.
  - rewrite mpb_PostPacket. lia.
  - lia.
  - pose proof (mpb_session_tick e l c) as E.
    destruct (session_tick e l c) as [[r l'] c']. simpl in *. lia.
  - rewrite mpb_teardown. lia.
Qed.

(** C4.  On receiving an MTU_SET message the client's [_max_payload_bytes]
    becomes the carried value when that value is strictly greater than the
    current one, and is left alone otherwise; whatever calls reach the
    client after the handshake, in whatever order, the value at the end is at
    least the value at the start. *)
Theorem max_payload_bytes_never_decreases :
  (forall (e : Env) (data : list Z) (c : Client),
     byte_at data 0 = IOP_S2C_MTU_SET ->
     Z.of_nat (length data) = IOP_S2C_MTU_SET_LEN ->
     _max_payload_bytes (OnInternal e data c) =
       if le_decode (slice data 1 2) >? _max_payload_bytes c
       then le_decode (slice data 1 2)
       else _max_payload_bytes c) /\
  (forall (e : Env) (data : list Z) (c : Client),
     _max_payload_bytes (OnInternal e data c) <> _max_payload_bytes c ->
     byte_at data 0 = IOP_S2C_MTU_SET /\
     _max_payload_bytes c < le_decode (slice data 1 2) /\
     _max_payload_bytes (OnInternal e data c) = le_decode (slice data 1 2)) /\
  (forall (calls : list SessionCall) (l : SessionLoop) (c : Client),
     _max_payload_bytes c <= _max_payload_bytes (snd (session_calls calls (l, c)))).
Proof.
  split; [| split].
  - intros e data c H0 Hl. rewrite mpb_OnInternal, H0, Hl, !Z.eqb_refl. reflexivity.
  - intros e data c. rewrite mpb_OnInternal.
    destruct (Z.eqb_spec (byte_at data 0) IOP_S2C_MTU_SET) as [E0|E0]; simpl;
      [| intros Hne; contradiction].
    destruct (Z.of_nat (length data) =? IOP_S2C_MTU_SET_LEN); simpl;
      [| intros Hne; contradiction].
    destruct (Z.gtb_spec (le_decode (slice data 1 2)) (_max_payload_bytes c));
      [| intros Hne; contradiction].
    intros _. repeat split; [exact E0 | lia].
  - intros calls. unfold session_calls.
    induction calls as [|call calls IH]; intros l c; cbn [fold_left]; [simpl; lia |].
    pose proof (mpb_session_call call l c) as S1.
    destruct (session_call call (l, c)) as [l1 c1]. simpl in S1.
    specialize (IH l1 c1). lia.
Qed.

(** *** The handshake loop *)

Definition is_post (ev : Event) : bool :=
  match ev with Post _ _ => true | _ => false end.

(** The number of packets the client has posted so far. *)
Definition posts (c : Client) : nat :=
  length (filter (fun ev => is_post ev = true) (trace c)).

Lemma posts_emit ev c :
  posts (emit ev c) = (posts c + if is_post ev then 1 else 0)%nat.
Proof.
  unfold posts. simpl. rewrite filter_app, length_app. f_equal.
  destruct ev; reflexivity.
Qed.

Lemma posts_ConnectFail err c : posts (ConnectFail err c) = posts c.
Proof.
  unfold ConnectFail, Atomic_Set_destroyed. simpl.
  destruct (_destroyed c =? 0); [| reflexivity].
  unfold posts. simpl. rewrite <- !app_assoc, filter_app. simpl.
  rewrite app_nil_r. reflexivity.
Qed.

Lemma PostHello_spec e c :
  _connected c = false ->
  PostHello e c =
    if acquire_ok e && post_ok e
    then (true, emit (Post (_server_addr c) (hello_packet c)) c)
    else (false, c).
Proof.
  intros Hc. unfold PostHello. rewrite Hc.
  destruct (acquire_ok e), (post_ok e); reflexivity.
Qed.

(** One pass of the loop, by cases. *)
Lemma handshake_tick_cases e l c :
  _kill_flag c = false -> _connected c = false ->
  handshake_tick e l c =
    if u32 (msec e - first_hello_post l) >=? CONNECT_TIMEOUT then
      (Returns false, l, ConnectFail ERR_CLIENT_TIMEOUT c)
    else if u32 (msec e - last_hello_post l) >=? hello_post_interval l then
      if acquire_ok e && post_ok e then
        (Continues,
         mkHelloLoop (first_hello_post l) (msec e) (u32 (hello_post_interval l * 2)),
         emit (OnTick (msec e)) (emit (Post (_server_addr c) (hello_packet c)) c))
      else (Returns false, l, ConnectFail ERR_CLIENT_BROKEN_PIPE c)
    else (Continues, l, emit (OnTick (msec e)) c).
Proof.
  intros Hk Hc. unfold handshake_tick. rewrite Hk, Hc, (PostHello_spec e c Hc).
  destruct (_ >=? CONNECT_TIMEOUT); [reflexivity |].
  destruct (_ >=? hello_post_interval l); [| reflexivity].
  destruct (acquire_ok e && post_ok e); reflexivity.
Qed.

(** Over any number of passes, the repost interval is the initial one
    doubled, as a 32-bit value, once for each hello packet posted. *)
Lemma handshake_loop_interval ticks l c :
  let '(_, l', c') := handshake_loop ticks l c in
  hello_post_interval l' =
    Nat.iter (posts c' - posts c) (fun i => u32 (i * 2)) (hello_post_interval l) /\
  (posts c <= posts c')%nat /\
  first_hello_post l' = first_hello_post l.
Proof.
  revert l c. induction ticks as [|e ticks IH]; intros l c; simpl.
  - rewrite Nat.sub_diag. simpl. auto.
  - unfold handshake_tick.
    destruct (_kill_flag c); [rewrite Nat.sub_diag; simpl; auto |].
    destruct (_connected c) eqn:Hc; [rewrite Nat.sub_diag; simpl; auto |].
    destruct (_ >=? CONNECT_TIMEOUT).
    { rewrite posts_ConnectFail, Nat.sub_diag. simpl. auto. }
    destruct (_ >=? hello_post_interval l).
    2:{ specialize (IH l (emit (OnTick (msec e)) c)).
        destruct (handshake_loop ticks l _) as [[r l'] c'].
        rewrite posts_emit in IH. simpl in IH. rewrite Nat.add_0_r in IH. exact IH. }
    rewrite (PostHello_spec e c Hc).
    destruct (acquire_ok e && post_ok e); simpl.
    2:{ rewrite posts_ConnectFail, Nat.sub_diag. simpl. auto. }
    match goal with
    | |- context [handshake_loop ticks ?l1 ?c1] =>
        specialize (IH l1 c1); destruct (handshake_loop ticks l1 c1) as [[r l'] c']
    end.
    rewrite !posts_emit in IH. simpl in IH.
    destruct IH as (I1 & I2 & I3).
    replace (posts c' - posts c)%nat with (S (posts c' - (posts c + 1 + 0)))%nat by lia.
    rewrite Nat.iter_succ_r. repeat split; [exact I1 | lia | exact I3].
Qed.

(** C8, as the code has it.  A pass of the handshake loop on a client that
    is neither connected, nor torn down, nor told to quit:
    - if [now - first_hello_post >= CONNECT_TIMEOUT] (32-bit difference), the
      client fails with the timeout error and the thread returns;
    - otherwise, if [now - last_hello_post >= hello_post_interval], the client
      tries to post the hello packet again; when the post succeeds the packet
      goes to the server, [last_hello_post] becomes [now] and the interval is
      doubled (as a 32-bit value: exactly doubled below [2^31]); when it
      fails the client fails with the broken-pipe error and the thread
      returns;
    - otherwise nothing is posted and the loop variables are unchanged.
    The interval starts at [INITIAL_HELLO_POST_INTERVAL], and over any run
    of the loop it is that value doubled once per hello packet posted. *)
Theorem handshake_tick_spec (e : Env) (l : HelloLoop) (c : Client) :
  _kill_flag c = false -> _connected c = false -> _destroyed c = 0 ->
  let now := msec e in
  let timed_out := CONNECT_TIMEOUT <= u32 (now - first_hello_post l) in
  let repost_due := hello_post_interval l <= u32 (now - last_hello_post l) in
  let tick := handshake_tick e l c in
  (timed_out ->
     tick = (Returns false, l, ConnectFail ERR_CLIENT_TIMEOUT c) /\
     trace (snd tick) =
       trace c ++ [TransportDisconnected; OnConnectFail ERR_CLIENT_TIMEOUT; Close]) /\
  (~ timed_out -> repost_due -> acquire_ok e && post_ok e = true ->
     fst tick =
       (Continues,
        mkHelloLoop (first_hello_post l) now (u32 (hello_post_interval l * 2))) /\
     trace (snd tick) =
       trace c ++ [Post (_server_addr c) (hello_packet c); OnTick now] /\
     (0 <= hello_post_interval l < 2^31 ->
        u32 (hello_post_interval l * 2) = 2 * hello_post_interval l)) /\
  (~ timed_out -> repost_due -> acquire_ok e && post_ok e = false ->
     tick = (Returns false, l, ConnectFail ERR_CLIENT_BROKEN_PIPE c) /\
     trace (snd tick) =
       trace c ++ [TransportDisconnected; OnConnectFail ERR_CLIENT_BROKEN_PIPE; Close]) /\
  (~ timed_out -> ~ repost_due ->
     tick = (Continues, l, emit (OnTick now) c)) /\
  hello_post_interval (hello_loop_start now) = INITIAL_HELLO_POST_INTERVAL /\
  (forall ticks,
     let '(_, l', c') := handshake_loop ticks (hello_loop_start now) c in
     hello_post_interval l' =
       Nat.iter (posts c' - posts c) (fun i => u32 (i * 2)) INITIAL_HELLO_POST_INTERVAL).
Proof.
  intros Hk Hc Hd now timed_out repost_due tick.
  subst tick. rewrite (handshake_tick_cases e l c Hk Hc). fold now.
  destruct (Z.geb_spec (u32 (now - first_hello_post l)) CONNECT_TIMEOUT) as [T|T];
  [| destruct (Z.geb_spec (u32 (now - last_hello_post l)) (hello_post_interval l)) as [R|R]].
  all: subst timed_out repost_due; simpl.
  all: repeat apply conj; try (intros; lia); try reflexivity.
  - intros _; split; [reflexivity |].
    apply (teardown_first (CallConnectFail ERR_CLIENT_TIMEOUT) c Hd).
  - intros ticks. pose proof (handshake_loop_interval ticks (hello_loop_start now) c) as L.
    destruct (handshake_loop ticks (hello_loop_start now) c) as [[r l'] c']. apply L.
  - intros _ _ ->. simpl. repeat split.
    + rewrite <- app_assoc. reflexivity.
    + intros B. rewrite u32_id by (unfold in_u32; lia). lia.
  - intros _ _ ->. simpl. split; [reflexivity |].
    apply (teardown_first (CallConnectFail ERR_CLIENT_BROKEN_PIPE) c Hd).
  - intros ticks. pose proof (handshake_loop_interval ticks (hello_loop_start now) c) as L.
    destruct (handshake_loop ticks (hello_loop_start now) c) as [[r l'] c']. apply L.
  - intros ticks. pose proof (handshake_loop_interval ticks (hello_loop_start now) c) as L.
    destruct (handshake_loop ticks (hello_loop_start now) c) as [[r l'] c']. apply L.
Qed.

(** *** Clock synchronisation *)

(** The sample count, the ring and the write index after the insertion that
    opens [UpdateTimeSynch]. *)
Definition count_after (ts : ClockSync) : Z :=
  if _ts_sample_count ts <? MAX_TS_SAMPLES then u32 (_ts_sample_count ts + 1)
  else _ts_sample_count ts.

Definition samples_after (pong_time rtt_ delta_ : Z) (ts : ClockSync)
  : list TimesPingSample :=
  <[Z.to_nat (_ts_next_index ts) := mkSample pong_time rtt_ delta_]> (_ts_samples ts).

(** The subset [UpdateTimeSynch] selects, and the quantities of its
    regression. *)
Definition selected (pong_time rtt_ delta_ : Z) (ts : ClockSync) : list nat :=
  BestSamples (select_best (samples_after pong_time rtt_ delta_ ts) (count_after ts)).

Definition base_time_of (pong_time : Z) : Z :=
  u32 (pong_time - MAX_TS_SAMPLES * TIME_SYNC_INTERVAL - TIME_SYNC_INTERVAL).

Definition sums_of (pong_time rtt_ delta_ : Z) (ts : ClockSync) : Z * Z :=
  regression_sums (samples_after pong_time rtt_ delta_ ts)
                  (selected pong_time rtt_ delta_ ts) (base_time_of pong_time).

Definition B0_numerator_of (pong_time rtt_ delta_ : Z) (ts : ClockSync) : Z :=
  fst (regression_terms (samples_after pong_time rtt_ delta_ ts)
         (selected pong_time rtt_ delta_ ts) (base_time_of pong_time)
         (Z.of_nat (length (selected pong_time rtt_ delta_ ts)))
         (fst (sums_of pong_time rtt_ delta_ ts))
         (snd (sums_of pong_time rtt_ delta_ ts))).

Definition B0_denominator_of (pong_time rtt_ delta_ : Z) (ts : ClockSync) : Z :=
  snd (regression_terms (samples_after pong_time rtt_ delta_ ts)
         (selected pong_time rtt_ delta_ ts) (base_time_of pong_time)
         (Z.of_nat (length (selected pong_time rtt_ delta_ ts)))
         (fst (sums_of pong_time rtt_ delta_ ts))
         (snd (sums_of pong_time rtt_ delta_ ts))).

(** The deltas of the selected samples, and their mean as the code computes
    it ([sum_delta / best_count], truncated). *)
Definition selected_deltas (pong_time rtt_ delta_ : Z) (ts : ClockSync) : list Z :=
  map (fun b => delta (sample_at (samples_after pong_time rtt_ delta_ ts) b))
      (selected pong_time rtt_ delta_ ts).

Definition mean_delta (pong_time rtt_ delta_ : Z) (ts : ClockSync) : Z :=
  Z.quot (sum_best_delta (samples_after pong_time rtt_ delta_ ts)
                         (selected pong_time rtt_ delta_ ts))
         (Z.of_nat (length (selected pong_time rtt_ delta_ ts))).

(** The published triple [(base, B0, B1)], by cases. *)
Lemma UpdateTimeSynch_published pong_time rtt_ delta_ ts :
  let ts' := UpdateTimeSynch pong_time rtt_ delta_ ts in
  (_ts_base ts', _ts_B0 ts', _ts_B1 ts') =
    if count_after ts <=? 1 then (_ts_base ts, 0%Q, delta_)
    else if Z.of_nat (length (selected pong_time rtt_ delta_ ts)) <? MIN_DRIFT_SAMPLES
    then (_ts_base ts, 0%Q, s32 (u32 (mean_delta pong_time rtt_ delta_ ts)))
    else if B0_denominator_of pong_time rtt_ delta_ ts <=? 0
    then (_ts_base ts, 0%Q, delta_)
    else
      let B0 := ddiv (double_of_s64 (B0_numerator_of pong_time rtt_ delta_ ts))
                     (double_of_s64 (B0_denominator_of pong_time rtt_ delta_ ts)) in
      (base_time_of pong_time, B0,
       double_to_s32
         (ddiv (dsub (double_of_s64 (snd (sums_of pong_time rtt_ delta_ ts)))
                     (dmul B0 (double_of_s64 (fst (sums_of pong_time rtt_ delta_ ts)))))
               (double_of_s64 (Z.of_nat (length (selected pong_time rtt_ delta_ ts)))))).
Proof.
  unfold UpdateTimeSynch, B0_numerator_of, B0_denominator_of, sums_of, mean_delta,
    selected, base_time_of, best_count.
  fold (count_after ts). fold (samples_after pong_time rtt_ delta_ ts).
  cbv zeta.
  destruct (count_after ts <=? 1); [reflexivity |].
  destruct (_ <? MIN_DRIFT_SAMPLES); [reflexivity |].
  destruct (regression_sums _ _ _) as [sum_when sum_delta]; simpl fst; simpl snd.
  destruct (regression_terms _ _ _ _ _ _) as [num den]; simpl fst; simpl snd.
  destruct (den <=? 0); reflexivity.
Qed.

(** C6, as the code has it.  When the regression is reached (more than one
    sample in the ring, at least [MIN_DRIFT_SAMPLES] selected) and its
    denominator is not positive, the published state is [B0 = 0] and [B1] the
    delta of the sample just received; the base time keeps its value. *)
Theorem UpdateTimeSynch_denominator_not_positive
        (pong_time rtt_ delta_ : Z) (ts : ClockSync) :
  1 < count_after ts ->
  MIN_DRIFT_SAMPLES <= Z.of_nat (length (selected pong_time rtt_ delta_ ts)) ->
  B0_denominator_of pong_time rtt_ delta_ ts <= 0 ->
  _ts_B0 (UpdateTimeSynch pong_time rtt_ delta_ ts) = 0%Q /\
  _ts_B1 (UpdateTimeSynch pong_time rtt_ delta_ ts) = delta_ /\
  _ts_base (UpdateTimeSynch pong_time rtt_ delta_ ts) = _ts_base ts.
Proof.
  intros H1 H2 H3.
  pose proof (UpdateTimeSynch_published pong_time rtt_ delta_ ts) as P.
  cbv zeta in P.
  destruct (Z.leb_spec (count_after ts) 1); [lia |].
  destruct (Z.ltb_spec (Z.of_nat (length (selected pong_time rtt_ delta_ ts)))
                       MIN_DRIFT_SAMPLES); [lia |].
  destruct (Z.leb_spec (B0_denominator_of pong_time rtt_ delta_ ts) 0); [| lia].
  injection P as -> -> ->. auto.
Qed.

(** **** The selection stays inside the ring *)

Lemma best_count_app s x hr hi :
  best_count (mkSel (BestSamples s ++ [x]) hr hi) = best_count s + 1.
Proof. unfold best_count. simpl. rewrite length_app. simpl. lia. Qed.

Lemma fill_spots_inv fuel samples count num_samples :
  0 < count ->
  forall ii s ii' s',
    fill_spots fuel samples count num_samples ii s = (ii', s') ->
    Forall (fun b => (b < Z.to_nat count)%nat) (BestSamples s) ->
    Forall (fun b => (b < Z.to_nat count)%nat) (BestSamples s') /\
    best_count s' - best_count s = ii' - ii /\
    ii <= ii' /\ (ii' <= count \/ ii' = ii).
Proof.
  intros Hc. induction fuel as [|fuel IH]; intros ii s ii' s' E F; simpl in E.
  - injection E as <- <-. repeat split; [exact F | lia | lia | lia].
  - destruct ((ii <? count) && (best_count s <? num_samples)) eqn:C.
    + apply andb_prop in C as [C1 _]. apply Z.ltb_lt in C1.
      apply IH in E.
      * rewrite best_count_app in E. destruct E as (F' & E1 & E2 & E3).
        repeat split; [exact F' | lia | lia | lia].
      * simpl. apply Forall_app. split; [exact F |].
        apply Forall_singleton. lia.
    + injection E as <- <-. repeat split; [exact F | lia | lia | lia].
Qed.

Lemma fight_over_spots_inv fuel samples count :
  0 < count ->
  forall ii s,
    Forall (fun b => (b < Z.to_nat count)%nat) (BestSamples s) ->
    Forall (fun b => (b < Z.to_nat count)%nat)
           (BestSamples (fight_over_spots fuel samples count ii s)) /\
    length (BestSamples (fight_over_spots fuel samples count ii s))
      = length (BestSamples s).
Proof.
  intros Hc. induction fuel as [|fuel IH]; intros ii s F; simpl; [auto |].
  destruct (Z.ltb_spec ii count) as [C|C]; [| auto].
  destruct (rtt (sample_at samples (Z.to_nat ii)) <? highest_rtt s); [| apply IH, F].
  destruct (rescan samples _ 0 _ (highest_index s)) as [hr hi].
  match goal with
  | |- context [fight_over_spots fuel samples count (ii + 1) ?s1] =>
      destruct (IH (ii + 1) s1) as [F1 L1]
  end.
  - simpl. apply Forall_insert; [exact F | lia].
  - split; [exact F1 |]. rewrite L1. simpl. apply length_insert.
Qed.

(** More than one sample in the ring: the selection is not empty, holds at
    most [count] entries, and every entry points below [count]. *)
Lemma select_best_inv samples count :
  1 < count ->
  Forall (fun b => (b < Z.to_nat count)%nat) (BestSamples (select_best samples count)) /\
  1 <= best_count (select_best samples count) <= count.
Proof.
  intros Hc. unfold select_best.
  destruct (fill_spots _ samples count _ 1 _) as [ii s1] eqn:E.
  apply fill_spots_inv in E; [| lia | simpl; apply Forall_singleton; lia].
  destruct E as (F1 & E1 & E2 & E3).
  destruct (fight_over_spots_inv (Z.to_nat count) samples count ltac:(lia) ii s1 F1)
    as [F2 L2].
  split; [exact F2 |].
  unfold best_count in *. rewrite L2. simpl in E1. lia.
Qed.

(** **** Sums of a constant delta do not wrap *)

Lemma mul_in_s64 k d : 0 <= k < 2^32 -> in_s32 d -> in_s64 (k * d).
Proof.
  unfold in_s32, in_s64. intros Hk Hd.
  change (2^63) with (2^32 * 2^31). change (2^32) with 4294967296 in *.
  change (2^31) with 2147483648 in *. nia.
Qed.

Lemma sum_constant_delta samples d best :
  in_s32 d ->
  Forall (fun b => delta (sample_at samples b) = d) best ->
  forall k,
    0 <= k -> k + Z.of_nat (length best) < 2^32 ->
    fold_left (fun acc b => s64 (acc + delta (sample_at samples b))) best (k * d)
    = (k + Z.of_nat (length best)) * d.
Proof.
  intros Hd F. induction F as [|b best Hb F IH]; intros k Hk Hl; simpl.
  - f_equal. lia.
  - rewrite Hb. simpl length in Hl.
    replace (k * d + d) with ((k + 1) * d) by lia.
    rewrite s64_id by (apply mul_in_s64; [lia | exact Hd]).
    rewrite IH by lia. f_equal. lia.
Qed.

Lemma regression_sums_snd samples base_time rest sum_when sum_delta :
  snd (fold_left
         (fun '(sum_when, sum_delta) b =>
            (s64 (sum_when + s32 (when (sample_at samples b) - base_time)),
             s64 (sum_delta + delta (sample_at samples b))))
         rest (sum_when, sum_delta))
  = fold_left (fun acc b => s64 (acc + delta (sample_at samples b))) rest sum_delta.
Proof.
  revert sum_when sum_delta. induction rest as [|b rest IH]; intros sw sd; simpl;
    [reflexivity | apply IH].
Qed.

Lemma regression_terms_numerator samples base_time n sum_when d best :
  in_s64 (d * n) ->
  Forall (fun b => delta (sample_at samples b) = d) best ->
  forall den,
    fst (fold_left
           (fun '(B0_numerator, B0_denominator) b =>
              let when_term :=
                s64 (s64 (u32 (when (sample_at samples b) - base_time) * n) - sum_when) in
              let delta_term := s64 (s64 (delta (sample_at samples b) * n) - n * d) in
              (s64 (B0_numerator + s64 (when_term * delta_term)),
               s64 (B0_denominator + s64 (when_term * when_term))))
           best (0, den)) = 0.
Proof.
  intros Hr F. induction F as [|b best Hb F IH]; intros den; simpl; [reflexivity |].
  rewrite Hb, (s64_id (d * n)) by exact Hr.
  replace (d * n - n * d) with 0 by lia.
  change (s64 0) with 0. rewrite Z.mul_0_r. change (s64 0) with 0. simpl.
  apply IH.
Qed.

(** **** Exact cases of the [double] arithmetic *)

Lemma Qred_inject_Z z : Qred (inject_Z z) = inject_Z z.
Proof.
  unfold Qred, inject_Z.
  pose proof (Z.ggcd_gcd z 1) as G. pose proof (Z.ggcd_correct_divisors z 1) as D.
  destruct (Z.ggcd z 1) as [g [aa bb]]. simpl in *.
  rewrite Z.gcd_1_r in G. subst g. destruct D as [D1 D2].
  rewrite Z.mul_1_l in D1, D2. subst aa bb. reflexivity.
Qed.

Lemma ddiv_0_l x : ddiv (double_of_s64 0) x = 0%Q.
Proof.
  unfold ddiv, double_of_s64. rewrite (Qred_complete (inject_Z 0 / x) 0); [reflexivity |].
  unfold Qdiv. apply Qmult_0_l.
Qed.

Lemma dmul_0_l x : dmul 0%Q x = 0%Q.
Proof.
  unfold dmul. rewrite (Qred_complete (0 * x) 0); [reflexivity | apply Qmult_0_l].
Qed.

Lemma dsub_0_r z : dsub (double_of_s64 z) 0%Q = double_of_s64 z.
Proof.
  unfold dsub, double_of_s64.
  rewrite (Qred_complete (inject_Z z - 0) (inject_Z z)); [apply Qred_inject_Z |].
  unfold Qeq, Qminus, Qplus, Qopp, inject_Z. simpl. lia.
Qed.

Lemma ddiv_exact n d :
  n <> 0 -> ddiv (double_of_s64 (n * d)) (double_of_s64 n) = double_of_s64 d.
Proof.
  intros Hn. unfold ddiv, double_of_s64.
  rewrite (Qred_complete (inject_Z (n * d) / inject_Z n) (inject_Z d));
    [apply Qred_inject_Z |].
  rewrite (Z.mul_comm n d), inject_Z_mult. apply Qdiv_mult_l.
  unfold Qeq. simpl. lia.
Qed.

Lemma double_to_s32_of_s32 d : in_s32 d -> double_to_s32 (double_of_s64 d) = d.
Proof.
  intros Hd. unfold double_to_s32, double_of_s64. simpl.
  rewrite Z.quot_1_r. apply s32_id, Hd.
Qed.

Lemma s32_u32 z : s32 (u32 z) = s32 z.
Proof. unfold s32, signed, u32. change (2 ^ 32) with (2 ^ 32). now rewrite Z.mod_mod by lia. Qed.

(** **** A constant delta *)

Lemma count_after_range ts :
  0 <= _ts_sample_count ts < 2^32 -> 0 <= count_after ts < 2^32.
Proof.
  intros H. unfold count_after. destruct (_ <? MAX_TS_SAMPLES); [| exact H].
  apply u32_range.
Qed.

(** The integer side of the calculation, on a selection whose samples all
    carry the delta [d]: both sums of deltas are [best_count * d], without
    wrap-around, and the numerator of the slope is 0. *)
Lemma regression_constant_delta samples best base_time d :
  in_s32 d ->
  1 <= Z.of_nat (length best) < 2^32 ->
  Forall (fun b => delta (sample_at samples b) = d) best ->
  sum_best_delta samples best = Z.of_nat (length best) * d /\
  snd (regression_sums samples best base_time) = Z.of_nat (length best) * d /\
  forall sum_when,
    fst (regression_terms samples best base_time (Z.of_nat (length best)) sum_when
                          (Z.of_nat (length best) * d)) = 0.
Proof.
  intros Hd Hn Fd. repeat split.
  - unfold sum_best_delta. change 0 with (0 * d).
    rewrite (sum_constant_delta samples d best Hd Fd 0) by lia. f_equal.
  - unfold regression_sums.
    destruct best as [|b0 rest]; [simpl in Hn; lia |].
    rewrite regression_sums_snd.
    apply Forall_cons in Fd as [Fd0 Fdr]. rewrite Fd0.
    replace d with (1 * d) at 1 by lia.
    rewrite (sum_constant_delta samples d rest Hd Fdr 1); simpl length in *; [f_equal |..]; lia.
  - intros sum_when. unfold regression_terms.
    apply (regression_terms_numerator samples base_time _ sum_when d best); [| exact Fd].
    rewrite Z.mul_comm. apply mul_in_s64; [lia | exact Hd].
Qed.

(** The selection of a ring with more than one sample has between 1 and
    [count] entries. *)
Lemma selected_length pong_time rtt_ delta_ ts :
  0 <= _ts_sample_count ts < 2^32 ->
  1 < count_after ts ->
  1 <= Z.of_nat (length (selected pong_time rtt_ delta_ ts)) < 2^32.
Proof.
  intros Hc H1. pose proof (count_after_range ts Hc) as Hr.
  destruct (select_best_inv (samples_after pong_time rtt_ delta_ ts) (count_after ts) H1)
    as [_ N].
  unfold best_count in N. fold (selected pong_time rtt_ delta_ ts) in N. lia.
Qed.

(** **** Distinct [when] values give a positive denominator

    Within the window the base time is chosen for, nothing wraps: the
    denominator is the sum of the squares of [n * w_i - sum w], which is
    positive as soon as two of the selected samples differ in [when]. *)

(** The time of a selected sample, counted from the base time. *)
Definition offset_of (samples : list TimesPingSample) (base_time : Z) (b : nat) : Z :=
  u32 (when (sample_at samples b) - base_time).

Definition sum_offsets (samples : list TimesPingSample) (base_time : Z)
           (best : list nat) : Z :=
  foldr Z.add 0 (map (offset_of samples base_time) best).

Definition sum_squares (samples : list TimesPingSample) (base_time n S : Z)
           (best : list nat) : Z :=
  foldr Z.add 0
        (map (fun b => (offset_of samples base_time b * n - S)
                       * (offset_of samples base_time b * n - S)) best).

Lemma square_bound w B : - B <= w <= B -> 0 <= w * w <= B * B.
Proof. intros H. nia. Qed.

Lemma sum_offsets_bound samples base_time best :
  Forall (fun b => 0 <= offset_of samples base_time b < 2^22) best ->
  0 <= sum_offsets samples base_time best <= Z.of_nat (length best) * 2^22.
Proof.
  unfold sum_offsets. induction 1 as [|b best Hb _ IH]; simpl; [lia |].
  change (2^22) with 4194304 in *. lia.
Qed.

Lemma regression_sums_fst_fold samples base_time rest sum_when sum_delta :
  fst (fold_left
         (fun '(sum_when, sum_delta) b =>
            (s64 (sum_when + s32 (when (sample_at samples b) - base_time)),
             s64 (sum_delta + delta (sample_at samples b))))
         rest (sum_when, sum_delta))
  = fold_left (fun acc b => s64 (acc + s32 (when (sample_at samples b) - base_time)))
              rest sum_when.
Proof.
  revert sum_when sum_delta. induction rest as [|b rest IH]; intros sw sd; simpl;
    [reflexivity | apply IH].
Qed.

Lemma sum_when_no_wrap samples base_time rest :
  Forall (fun b => 0 <= offset_of samples base_time b < 2^22) rest ->
  forall acc,
    0 <= acc -> acc + Z.of_nat (length rest) * 2^22 < 2^63 ->
    fold_left (fun acc b => s64 (acc + s32 (when (sample_at samples b) - base_time)))
              rest acc
    = acc + sum_offsets samples base_time rest.
Proof.
  unfold sum_offsets.
  induction 1 as [|b rest Hb _ IH]; intros acc Ha Hl; simpl; [lia |].
  simpl length in Hl. change (2^22) with 4194304 in *. change (2^63) with 9223372036854775808 in *.
  rewrite <- s32_u32. fold (offset_of samples base_time b).
  rewrite (s32_id (offset_of samples base_time b)) by (unfold in_s32; lia).
  rewrite s64_id by (unfold in_s64; lia).
  rewrite IH by lia. lia.
Qed.

Lemma regression_sums_fst samples base_time best :
  Forall (fun b => 0 <= offset_of samples base_time b < 2^22) best ->
  Z.of_nat (length best) <= 64 ->
  fst (regression_sums samples best base_time) = sum_offsets samples base_time best.
Proof.
  intros F L. unfold regression_sums. destruct best as [|b0 rest]; [reflexivity |].
  apply Forall_cons in F as [F0 Fr]. simpl length in L.
  rewrite regression_sums_fst_fold. fold (offset_of samples base_time b0).
  change (2^22) with 4194304 in *.
  rewrite (sum_when_no_wrap samples base_time rest Fr);
    [unfold sum_offsets; simpl; lia | lia |].
  change (2^22) with 4194304. change (2^63) with 9223372036854775808. lia.
Qed.

Lemma regression_terms_snd_fold samples base_time n sum_when sum_delta best num den :
  snd (fold_left
         (fun '(B0_numerator, B0_denominator) b =>
            let when_term :=
              s64 (s64 (u32 (when (sample_at samples b) - base_time) * n) - sum_when) in
            let delta_term :=
              s64 (s64 (delta (sample_at samples b) * n) - sum_delta) in
            (s64 (B0_numerator + s64 (when_term * delta_term)),
             s64 (B0_denominator + s64 (when_term * when_term))))
         best (num, den))
  = fold_left
      (fun den b =>
         let when_term := s64 (s64 (offset_of samples base_time b * n) - sum_when) in
         s64 (den + s64 (when_term * when_term)))
      best den.
Proof.
  revert num den. induction best as [|b best IH]; intros num den; simpl;
    [reflexivity | apply IH].
Qed.

Lemma denominator_no_wrap samples base_time n S best :
  1 <= n <= 64 -> 0 <= S <= 64 * 2^22 ->
  Forall (fun b => 0 <= offset_of samples base_time b < 2^22) best ->
  forall den,
    0 <= den -> den + Z.of_nat (length best) * 2^56 < 2^63 ->
    fold_left
      (fun den b =>
         let when_term := s64 (s64 (offset_of samples base_time b * n) - S) in
         s64 (den + s64 (when_term * when_term)))
      best den
    = den + sum_squares samples base_time n S best.
Proof.
  intros Hn HS. unfold sum_squares.
  induction 1 as [|b best Hb _ IH]; intros den Hd Hl; simpl; [lia |].
  simpl length in Hl.
  change (2^22) with 4194304 in *. change (2^56) with 72057594037927936 in *.
  change (2^63) with 9223372036854775808 in *.
  set (x := offset_of samples base_time b) in *.
  assert (Bx : 0 <= x * n <= 268435456) by nia.
  rewrite (s64_id (x * n)) by (unfold in_s64; lia).
  rewrite (s64_id (x * n - S)) by (unfold in_s64; lia).
  pose proof (square_bound (x * n - S) 268435456 ltac:(lia)) as Sq.
  change (268435456 * 268435456) with 72057594037927936 in Sq.
  rewrite (s64_id ((x * n - S) * (x * n - S))) by (unfold in_s64; lia).
  rewrite s64_id by (unfold in_s64; lia).
  rewrite IH by lia. lia.
Qed.

Lemma sum_squares_nonneg samples base_time n S best :
  0 <= sum_squares samples base_time n S best.
Proof.
  unfold sum_squares. induction best as [|b best IH]; simpl; [lia |].
  pose proof (Z.square_nonneg (offset_of samples base_time b * n - S)). lia.
Qed.

Lemma sum_squares_positive samples base_time n S best b :
  b ∈ best -> offset_of samples base_time b * n <> S ->
  0 < sum_squares samples base_time n S best.
Proof.
  intros Hin Hne. induction Hin as [b best | b b' best _ IH].
  - pose proof (sum_squares_nonneg samples base_time n S best) as P.
    unfold sum_squares in *. simpl.
    assert (0 < (offset_of samples base_time b * n - S)
                * (offset_of samples base_time b * n - S)) by nia.
    lia.
  - unfold sum_squares in *. simpl.
    pose proof (Z.square_nonneg (offset_of samples base_time b' * n - S)). lia.
Qed.

(** At least two selected samples, at most 64, each less than [2^22] ms after
    the base time and no two at the same time: the denominator is positive. *)
Lemma denominator_positive samples base_time best sum_delta :
  2 <= Z.of_nat (length best) <= 64 ->
  Forall (fun b => 0 <= offset_of samples base_time b < 2^22) best ->
  NoDup (map (offset_of samples base_time) best) ->
  0 < snd (regression_terms samples best base_time (Z.of_nat (length best))
             (fst (regression_sums samples best base_time)) sum_delta).
Proof.
  intros Hn F ND. unfold regression_terms.
  rewrite regression_terms_snd_fold, (regression_sums_fst samples base_time best F) by lia.
  pose proof (sum_offsets_bound samples base_time best F) as BS.
  rewrite denominator_no_wrap; try assumption; try lia;
    try (change (2^22) with 4194304 in *; change (2^56) with 72057594037927936;
         change (2^63) with 9223372036854775808; lia).
  destruct best as [|b1 [|b2 rest]]; simpl in Hn; try lia.
  simpl in ND. apply NoDup_cons in ND as [N1 _].
  assert (Hx : offset_of samples base_time b1 <> offset_of samples base_time b2).
  { intros E. apply N1. rewrite E. left. }
  set (n := Z.of_nat (length (b1 :: b2 :: rest))) in *.
  set (S := sum_offsets samples base_time (b1 :: b2 :: rest)) in *.
  destruct (Z.eq_dec (offset_of samples base_time b1 * n) S) as [E1|E1].
  - apply (sum_squares_positive samples base_time n S _ b2);
      [right; left | subst n; simpl length in *; nia].
  - apply (sum_squares_positive samples base_time n S _ b1); [left | exact E1].
Qed.

(** C7.  A clock-sync calculation that selects at least [MIN_DRIFT_SAMPLES]
    samples, all of which carry the same delta [d]: the numerator of the slope
    is exactly 0 and the published slope [B0] is 0; the published offset [B1]
    is [d] when the denominator is positive (the regression then publishes its
    base time too), and also when the sample just received carries [d]
    itself.  The denominator is positive when the selected samples, two at
    least and 64 at most, lie less than [2^22] ms after the base time and no
    two of them share their [when], as is the case when the [when] values are
    strictly monotonic. *)
Theorem UpdateTimeSynch_constant_delta_no_drift
        (pong_time rtt_ delta_ d : Z) (ts : ClockSync) :
  in_s32 d ->
  0 <= _ts_sample_count ts < 2^32 ->
  1 < count_after ts ->
  MIN_DRIFT_SAMPLES <= Z.of_nat (length (selected pong_time rtt_ delta_ ts)) ->
  Forall (fun b => delta (sample_at (samples_after pong_time rtt_ delta_ ts) b) = d)
         (selected pong_time rtt_ delta_ ts) ->
  B0_numerator_of pong_time rtt_ delta_ ts = 0 /\
  _ts_B0 (UpdateTimeSynch pong_time rtt_ delta_ ts) = 0%Q /\
  (0 < B0_denominator_of pong_time rtt_ delta_ ts ->
   _ts_B1 (UpdateTimeSynch pong_time rtt_ delta_ ts) = d /\
   _ts_base (UpdateTimeSynch pong_time rtt_ delta_ ts) = base_time_of pong_time) /\
  (delta_ = d -> _ts_B1 (UpdateTimeSynch pong_time rtt_ delta_ ts) = d) /\
  (2 <= Z.of_nat (length (selected pong_time rtt_ delta_ ts)) <= 64 ->
   Forall (fun b => offset_of (samples_after pong_time rtt_ delta_ ts)
                              (base_time_of pong_time) b < 2^22)
          (selected pong_time rtt_ delta_ ts) ->
   NoDup (map (offset_of (samples_after pong_time rtt_ delta_ ts) (base_time_of pong_time))
              (selected pong_time rtt_ delta_ ts)) ->
   0 < B0_denominator_of pong_time rtt_ delta_ ts).
Proof.
  intros Hd Hc H1 H2 Fd.
  pose proof (selected_length pong_time rtt_ delta_ ts Hc H1) as Hn.
  destruct (regression_constant_delta (samples_after pong_time rtt_ delta_ ts)
              (selected pong_time rtt_ delta_ ts) (base_time_of pong_time) d Hd Hn Fd)
    as (_ & Sums & Num).
  fold (sums_of pong_time rtt_ delta_ ts) in Sums.
  assert (Num0 : B0_numerator_of pong_time rtt_ delta_ ts = 0).
  { unfold B0_numerator_of. rewrite Sums. apply Num. }
  assert (Pos : 2 <= Z.of_nat (length (selected pong_time rtt_ delta_ ts)) <= 64 ->
                Forall (fun b => offset_of (samples_after pong_time rtt_ delta_ ts)
                                           (base_time_of pong_time) b < 2^22)
                       (selected pong_time rtt_ delta_ ts) ->
                NoDup (map (offset_of (samples_after pong_time rtt_ delta_ ts)
                                      (base_time_of pong_time))
                           (selected pong_time rtt_ delta_ ts)) ->
                0 < B0_denominator_of pong_time rtt_ delta_ ts).
  { intros L W ND. unfold B0_denominator_of, sums_of.
    apply denominator_positive; [exact L | | exact ND].
    eapply Forall_impl; [exact W |]. intros b Hb. simpl in *.
    pose proof (u32_range (when (sample_at (samples_after pong_time rtt_ delta_ ts) b)
                           - base_time_of pong_time)) as R.
    unfold in_u32 in R. unfold offset_of in *. lia. }
  pose proof (UpdateTimeSynch_published pong_time rtt_ delta_ ts) as P. cbv zeta in P.
  destruct (Z.leb_spec (count_after ts) 1); [lia |].
  destruct (Z.ltb_spec (Z.of_nat (length (selected pong_time rtt_ delta_ ts)))
                       MIN_DRIFT_SAMPLES); [lia |].
  split; [exact Num0 |].
  destruct (Z.leb_spec (B0_denominator_of pong_time rtt_ delta_ ts) 0) as [C3|C3].
  - injection P as _ -> ->. split; [reflexivity |]. split; [lia | auto].
  - injection P as -> PB0 PB1. rewrite Num0, ddiv_0_l in PB0.
    assert (B1 : _ts_B1 (UpdateTimeSynch pong_time rtt_ delta_ ts) = d).
    { rewrite PB1, Num0, ddiv_0_l, dmul_0_l, Sums, dsub_0_r, ddiv_exact by lia.
      apply double_to_s32_of_s32, Hd. }
    auto.
Qed.

(** **** The selection holds the lowest round-trip times *)

Definition rtt_of (samples : list TimesPingSample) (b : nat) : Z :=
  rtt (sample_at samples b).

(** What the two selection loops keep, [ii] being the next sample to look
    at: the entries are distinct samples below [ii]; [highest_index] is the
    place of an entry whose round-trip time is [highest_rtt], the largest of
    the selection; and no sample below [ii] left outside is faster than
    that. *)
Record sel_inv (samples : list TimesPingSample) (ii : nat) (s : Selection)
  : Prop := {
  si_nodup : NoDup (BestSamples s);
  si_below : Forall (fun b => (b < ii)%nat) (BestSamples s);
  si_top : exists hb, BestSamples s !! highest_index s = Some hb /\
                      rtt_of samples hb = highest_rtt s;
  si_max : forall b, b ∈ BestSamples s -> rtt_of samples b <= highest_rtt s;
  si_out : forall i, (i < ii)%nat -> i ∉ BestSamples s ->
                     highest_rtt s <= rtt_of samples i
}.

Lemma rescan_spec samples best jj hr hi :
  let r := rescan samples best jj hr hi in
  hr <= fst r /\
  (forall b, b ∈ best -> rtt_of samples b <= fst r) /\
  ((fst r = hr /\ snd r = hi) \/
   (exists k b, snd r = (jj + k)%nat /\ best !! k = Some b /\
                rtt_of samples b = fst r)).
Proof.
  revert jj hr hi. induction best as [| b rest IH]; intros jj hr hi; cbn [rescan].
  - cbn. split; [lia |]. split; [| auto]. intros b B. inversion B.
  - fold (rtt_of samples b).
    destruct (Z.gtb_spec (rtt_of samples b) hr) as [G | G].
    + destruct (IH (S jj) (rtt_of samples b) jj) as (H1 & H2 & H3).
      split; [lia |]. split.
      * intros x Hx. apply elem_of_cons in Hx as [-> | Hx]; [exact H1 | auto].
      * right. destruct H3 as [(E1 & E2) | (k & x & E1 & E2 & E3)].
        -- exists 0%nat, b. rewrite E1, E2. split; [lia |]. split; reflexivity.
        -- exists (S k), x. split; [lia |]. split; assumption.
    + destruct (IH (S jj) hr hi) as (H1 & H2 & H3).
      split; [exact H1 |]. split.
      * intros x Hx. apply elem_of_cons in Hx as [-> | Hx]; [lia | auto].
      * destruct H3 as [E | (k & x & E1 & E2 & E3)]; [left; exact E | right].
        exists (S k), x. split; [lia |]. split; assumption.
Qed.

Lemma NoDup_list_insert (l : list nat) i n :
  NoDup l -> n ∉ l -> NoDup (<[i := n]> l).
Proof.
  intros D N. apply NoDup_alt. intros j1 j2 x H1 H2.
  apply list_lookup_insert_Some in H1 as [(<- & <- & L1) | (N1 & H1)];
    apply list_lookup_insert_Some in H2 as [(<- & E2 & L2) | (N2 & H2)].
  - reflexivity.
  - exfalso. apply N. apply list_elem_of_lookup. eauto.
  - subst x. exfalso. apply N. apply list_elem_of_lookup. eauto.
  - exact (proj1 (NoDup_alt l) D _ _ _ H1 H2).
Qed.

Lemma replaced_by_insert (l : list nat) i n x :
  x ∈ l -> x ∉ <[i := n]> l -> l !! i = Some x.
Proof.
  intros H N. apply list_elem_of_lookup in H as (j & H).
  destruct (Nat.eq_dec i j) as [-> | D]; [exact H |].
  exfalso. apply N. apply list_elem_of_lookup. exists j.
  rewrite list_lookup_insert_ne by exact D. exact H.
Qed.

(** One pass of the second loop. *)
Lemma fight_step_inv samples (n : nat) s :
  sel_inv samples n s ->
  let sample_rtt := rtt_of samples n in
  let s' :=
    if sample_rtt <? highest_rtt s then
      let best := <[highest_index s := n]> (BestSamples s) in
      let '(hr, hi) := rescan samples best 0 sample_rtt (highest_index s) in
      mkSel best hr hi
    else s in
  sel_inv samples (S n) s' /\ length (BestSamples s') = length (BestSamples s).
Proof.
  intros [D B (hb & T1 & T2) M O]. cbv zeta.
  assert (Fresh : n ∉ BestSamples s).
  { intros H. apply (proj1 (Forall_forall _ _) B) in H. lia. }
  destruct (Z.ltb_spec (rtt_of samples n) (highest_rtt s)) as [Lt | Ge].
  - pose proof (rescan_spec samples (<[highest_index s := n]> (BestSamples s)) 0
                  (rtt_of samples n) (highest_index s)) as R.
    destruct (rescan samples _ 0 _ (highest_index s)) as [hr hi].
    cbn [fst snd] in R. destruct R as (R1 & R2 & R3).
    assert (Lh : (highest_index s < length (BestSamples s))%nat)
      by exact (lookup_lt_Some _ _ _ T1).
    assert (Top : hr <= highest_rtt s).
    { destruct R3 as [(-> & _) | (k & b & _ & Eb & <-)]; [lia |].
      apply list_lookup_insert_Some in Eb as [(_ & <- & _) | (_ & Eb)]; [lia |].
      apply M. apply list_elem_of_lookup. eauto. }
    split; [| cbn [BestSamples]; apply length_insert].
    constructor; cbn [BestSamples highest_rtt highest_index].
    + apply NoDup_list_insert; assumption.
    + apply Forall_insert; [| lia].
      eapply Forall_impl; [exact B |]. cbn. lia.
    + destruct R3 as [(-> & ->) | (k & b & -> & Eb & <-)].
      * exists n. split; [apply list_lookup_insert_eq, Lh | reflexivity].
      * exists b. split; [exact Eb | reflexivity].
    + exact R2.
    + intros i Hi Ni.
      destruct (Nat.eq_dec i n) as [-> | Dn].
      { exfalso. apply Ni. apply list_elem_of_insert, Lh. }
      destruct (decide (i ∈ BestSamples s)) as [In | Out].
      * pose proof (replaced_by_insert _ _ _ _ In Ni) as E.
        rewrite T1 in E. injection E as <-. lia.
      * specialize (O i ltac:(lia) Out). lia.
  - split; [| reflexivity]. constructor.
    + exact D.
    + eapply Forall_impl; [exact B |]. cbn. lia.
    + eauto.
    + exact M.
    + intros i Hi Ni. destruct (Nat.eq_dec i n) as [-> | Dn]; [lia |].
      apply O; [lia | exact Ni].
Qed.

Lemma fight_over_spots_sel fuel samples count :
  forall ii s,
    0 <= ii <= count -> count - ii <= Z.of_nat fuel ->
    sel_inv samples (Z.to_nat ii) s ->
    sel_inv samples (Z.to_nat count) (fight_over_spots fuel samples count ii s) /\
    length (BestSamples (fight_over_spots fuel samples count ii s))
      = length (BestSamples s).
Proof.
  induction fuel as [| fuel IH]; intros ii s Hi Hf I; cbn [fight_over_spots].
  - replace count with ii by lia. auto.
  - destruct (Z.ltb_spec ii count) as [Lt | Ge].
    + pose proof (fight_step_inv samples (Z.to_nat ii) s I) as St.
      cbv zeta in St. unfold rtt_of in St.
      match goal with
      | |- context [fight_over_spots fuel samples count (ii + 1) ?s1] =>
          set (s' := s1) in *
      end.
      destruct St as (I' & L').
      replace (S (Z.to_nat ii)) with (Z.to_nat (ii + 1)) in I' by lia.
      destruct (IH (ii + 1) s' ltac:(lia) ltac:(lia) I') as (I'' & L'').
      split; [exact I'' | congruence].
    + replace count with ii by lia. auto.
Qed.

(** The first loop takes the samples in order. *)
Lemma fill_spots_sel fuel samples count num_samples :
  forall ii s ii' s',
    1 <= ii ->
    fill_spots fuel samples count num_samples ii s = (ii', s') ->
    BestSamples s = seq 0 (Z.to_nat ii) ->
    (exists hb, BestSamples s !! highest_index s = Some hb /\
                rtt_of samples hb = highest_rtt s) ->
    (forall b, b ∈ BestSamples s -> rtt_of samples b <= highest_rtt s) ->
    BestSamples s' = seq 0 (Z.to_nat ii') /\
    (exists hb, BestSamples s' !! highest_index s' = Some hb /\
                rtt_of samples hb = highest_rtt s') /\
    (forall b, b ∈ BestSamples s' -> rtt_of samples b <= highest_rtt s') /\
    ii <= ii' /\
    best_count s' <= Z.max (best_count s) num_samples /\
    (count - ii <= Z.of_nat fuel ->
     count <= ii' \/ num_samples <= best_count s').
Proof.
  induction fuel as [| fuel IH]; intros ii s ii' s' Hi E Hs Ht Hm;
    cbn [fill_spots] in E.
  - injection E as <- <-. repeat split; try assumption; [lia | lia |].
    intros Hf. left. lia.
  - destruct ((ii <? count) && (best_count s <? num_samples)) eqn:C.
    + apply andb_prop in C as [_ C2]. apply Z.ltb_lt in C2.
      apply IH in E; [| lia | | |]; cbn [BestSamples highest_rtt highest_index].
      * destruct E as (E1 & E2 & E3 & E4 & E6 & E5).
        rewrite best_count_app in E6.
        repeat split; try assumption; [lia | lia |]. intros Hf. apply E5. lia.
      * rewrite Hs. replace (Z.to_nat (ii + 1)) with (S (Z.to_nat ii)) by lia.
        rewrite seq_S. reflexivity.
      * fold (rtt_of samples (Z.to_nat ii)).
        destruct (Z.gtb_spec (rtt_of samples (Z.to_nat ii)) (highest_rtt s)).
        -- exists (Z.to_nat ii). split; [| reflexivity].
           rewrite Hs. rewrite lookup_app_r by (rewrite length_seq; lia).
           rewrite length_seq, Nat.sub_diag. reflexivity.
        -- destruct Ht as (hb & T1 & T2). exists hb. split; [| exact T2].
           apply lookup_app_l_Some. exact T1.
      * fold (rtt_of samples (Z.to_nat ii)). intros b Hb.
        apply elem_of_app in Hb as [Hb | Hb].
        -- specialize (Hm b Hb).
           destruct (Z.gtb_spec (rtt_of samples (Z.to_nat ii)) (highest_rtt s)); lia.
        -- apply list_elem_of_singleton in Hb. subst b.
           destruct (Z.gtb_spec (rtt_of samples (Z.to_nat ii)) (highest_rtt s)); lia.
    + injection E as <- <-. repeat split; try assumption; [lia | lia |].
      intros _. apply andb_false_iff in C as [C | C].
      * apply Z.ltb_ge in C. left. exact C.
      * apply Z.ltb_ge in C. right. exact C.
Qed.

(** The selection [UpdateTimeSynch] makes among the first [count] samples
    of the ring: distinct samples, as many as the quarter of [count] (at
    least [MIN_TS_SAMPLES], at most [count]), and the fastest ones: no
    sample left out has a shorter round trip than a sample taken. *)
Theorem select_best_keeps_the_lowest_rtt
        (samples : list TimesPingSample) (count : Z) :
  1 < count ->
  let best := BestSamples (select_best samples count) in
  let num_samples :=
    if count / 4 <? MIN_TS_SAMPLES then MIN_TS_SAMPLES else count / 4 in
  NoDup best /\
  Forall (fun b => (b < Z.to_nat count)%nat) best /\
  Z.of_nat (length best) = Z.max 1 (Z.min count num_samples) /\
  (forall b i, b ∈ best -> (i < Z.to_nat count)%nat -> i ∉ best ->
               rtt (sample_at samples b) <= rtt (sample_at samples i)).
Proof.
  intros Hc best num_samples. subst best. unfold select_best. fold num_samples.
  destruct (fill_spots _ samples count num_samples 1 _) as [ii s1] eqn:E.
  pose proof E as E'.
  apply fill_spots_inv in E'; [| lia | simpl; apply Forall_singleton; lia].
  destruct E' as (_ & B1 & _ & B3).
  apply (fill_spots_sel _ samples) in E; [| lia | reflexivity | |];
    cbn [BestSamples highest_rtt highest_index] in *.
  2:{ exists 0%nat. split; reflexivity. }
  2:{ intros b Hb. apply list_elem_of_singleton in Hb. subst b.
      unfold rtt_of. lia. }
  destruct E as (Es & Et & Em & Ei & Eb & Ex).
  specialize (Ex ltac:(lia)).
  assert (I1 : sel_inv samples (Z.to_nat ii) s1).
  { constructor; try assumption.
    - rewrite Es. apply NoDup_seq.
    - rewrite Es. apply Forall_forall. intros b Hb.
      apply elem_of_seq in Hb. lia.
    - intros i Hi Ni. exfalso. apply Ni. rewrite Es. apply elem_of_seq. lia. }
  destruct (fight_over_spots_sel (Z.to_nat count) samples count ii s1
              ltac:(lia) ltac:(lia) I1) as ([D B T M O] & L).
  split; [exact D |]. split; [exact B |]. split.
  - rewrite L. unfold best_count in *. cbn [length] in B1, Eb.
    rewrite Es, length_seq in *. lia.
  - intros b i Hb Hi Ni. specialize (M b Hb). specialize (O i Hi Ni).
    unfold rtt_of in *. lia.
Qed.
(** **** The ring of samples *)

(** The ring part of [UpdateTimeSynch] does not depend on the estimate. *)
Lemma UpdateTimeSynch_ring pong_time rtt_ delta_ ts :
  let ts' := UpdateTimeSynch pong_time rtt_ delta_ ts in
  _ts_sample_count ts' = count_after ts /\
  _ts_next_index ts' = u32 (_ts_next_index ts + 1) mod MAX_TS_SAMPLES /\
  _ts_samples ts' = samples_after pong_time rtt_ delta_ ts.
Proof.
  unfold UpdateTimeSynch. fold (count_after ts).
  fold (samples_after pong_time rtt_ delta_ ts). cbv zeta.
  destruct (count_after ts <=? 1); [auto |].
  destruct (_ <? MIN_DRIFT_SAMPLES); [auto |].
  destruct (regression_sums _ _ _) as [sum_when sum_delta].
  destruct (regression_terms _ _ _ _ _ _) as [num den].
  destruct (den <=? 0); auto.
Qed.

(** The pongs that arrive, one after the other. *)
Definition feed (xs : list TimesPingSample) (ts : ClockSync) : ClockSync :=
  fold_left (fun ts x => UpdateTimeSynch (when x) (rtt x) (delta x) ts) xs ts.

Lemma ring_slots_differ (i n : nat) (M : Z) :
  0 < M -> (i < n)%nat -> Z.of_nat n - Z.of_nat i < M ->
  Z.to_nat (Z.of_nat n mod M) <> Z.to_nat (Z.of_nat i mod M).
Proof.
  intros HM Hi Hd E.
  pose proof (Z.mod_pos_bound (Z.of_nat n) M HM).
  pose proof (Z.mod_pos_bound (Z.of_nat i) M HM).
  assert (E' : Z.of_nat n mod M = Z.of_nat i mod M) by lia.
  pose proof (Z.div_mod (Z.of_nat n) M ltac:(lia)).
  pose proof (Z.div_mod (Z.of_nat i) M ltac:(lia)).
  assert (Q : Z.of_nat n - Z.of_nat i = M * (Z.of_nat n / M - Z.of_nat i / M)) by lia.
  assert (0 < Z.of_nat n / M - Z.of_nat i / M) by nia.
  nia.
Qed.

(** The ring is a ring: fed to a new clock, the samples fill the array in
    order and then overwrite the oldest; the count stops at
    [MAX_TS_SAMPLES], the write index stays inside the array, and the array
    holds the latest [MAX_TS_SAMPLES] samples, sample [i] in slot
    [i mod MAX_TS_SAMPLES]. *)
Theorem ring_keeps_the_latest_samples
        (xs : list TimesPingSample) (ts : ClockSync) :
  0 < MAX_TS_SAMPLES < 2^32 ->
  _ts_sample_count ts = 0 -> _ts_next_index ts = 0 ->
  length (_ts_samples ts) = Z.to_nat MAX_TS_SAMPLES ->
  let ts' := feed xs ts in
  _ts_sample_count ts' = Z.min (Z.of_nat (length xs)) MAX_TS_SAMPLES /\
  _ts_next_index ts' = Z.of_nat (length xs) mod MAX_TS_SAMPLES /\
  length (_ts_samples ts') = Z.to_nat MAX_TS_SAMPLES /\
  (forall i x,
     xs !! i = Some x ->
     Z.of_nat (length xs) - Z.of_nat i <= MAX_TS_SAMPLES ->
     _ts_samples ts' !! Z.to_nat (Z.of_nat i mod MAX_TS_SAMPLES) = Some x).
Proof.
  intros HM Hc Hi Hl. cbv zeta.
  induction xs as [| x xs IH] using rev_ind.
  - cbn. rewrite Hc, Hi, Z.mod_0_l by lia. repeat split; try lia.
    intros i x H. rewrite lookup_nil in H. discriminate.
  - destruct IH as (Ic & Ii & Il & Is).
    unfold feed in *. rewrite fold_left_app. cbn [fold_left].
    set (t := fold_left _ xs ts) in *.
    destruct (UpdateTimeSynch_ring (when x) (rtt x) (delta x) t) as (Rc & Ri & Rs).
    rewrite Rc, Ri, Rs. unfold count_after, samples_after.
    rewrite Ic, Ii, length_app. cbn [length].
    pose proof (Z.mod_pos_bound (Z.of_nat (length xs)) MAX_TS_SAMPLES (proj1 HM)) as Hb.
    split; [| split; [| split]].
    + destruct (Z.ltb_spec (Z.min (Z.of_nat (length xs)) MAX_TS_SAMPLES)
                           MAX_TS_SAMPLES).
      * rewrite u32_id by (unfold in_u32; lia). lia.
      * lia.
    + rewrite u32_id by (unfold in_u32; lia).
      rewrite Z.add_mod_idemp_l by lia. f_equal. lia.
    + rewrite length_insert. exact Il.
    + intros i y H Hd. destruct x as [w r d]. cbn [when rtt delta].
      apply lookup_app_Some in H as [H | (Hge & H)].
      * pose proof (lookup_lt_Some _ _ _ H) as Lt.
        rewrite list_lookup_insert_ne.
        -- apply Is; [exact H | lia].
        -- apply ring_slots_differ; lia.
      * apply list_lookup_singleton_Some in H as (E & <-).
        replace i with (length xs) by lia.
        apply list_lookup_insert_eq. rewrite Il. lia.
Qed.
(** **** Few samples: the mean *)

Lemma sum_best_delta_exact samples best :
  Forall (fun b => in_s32 (delta (sample_at samples b))) best ->
  forall acc k,
    0 <= k -> k + Z.of_nat (length best) < 2^32 ->
    - (k * 2^31) <= acc <= k * (2^31 - 1) ->
    let sum :=
      fold_left (fun acc b => s64 (acc + delta (sample_at samples b))) best acc in
    sum = acc + fold_right Z.add 0 (map (fun b => delta (sample_at samples b)) best) /\
    - ((k + Z.of_nat (length best)) * 2^31) <= sum
      <= (k + Z.of_nat (length best)) * (2^31 - 1).
Proof.
  intros F. induction F as [| b best Hb F IH]; intros acc k Hk Hl Ha; cbv zeta.
  - cbn. split; [lia |]. cbn in Hl. lia.
  - cbn [fold_left map fold_right length] in *. unfold in_s32 in Hb.
    rewrite s64_id by (unfold in_s64; change (2^63) with (2^32 * 2^31);
                       change (2^32) with 4294967296 in *;
                       change (2^31) with 2147483648 in *; nia).
    destruct (IH (acc + delta (sample_at samples b)) (k + 1)) as (E & B);
      [lia | lia | change (2^31) with 2147483648 in *; nia |].
    split; [rewrite E; lia |].
    replace (k + Z.of_nat (S (length best))) with (k + 1 + Z.of_nat (length best))
      by lia.
    exact B.
Qed.

Lemma quot_mean_in_s32 sum n :
  0 < n -> - (n * 2^31) <= sum <= n * (2^31 - 1) -> in_s32 (Z.quot sum n).
Proof.
  intros Hn Hs. unfold in_s32. change (2^31) with 2147483648 in *.
  pose proof (Z.quot_rem' sum n) as E.
  destruct (Z.le_gt_cases 0 sum) as [P | N].
  - pose proof (Z.rem_bound_pos sum n P Hn). nia.
  - pose proof (Z.rem_bound_pos_neg sum n Hn ltac:(lia)). nia.
Qed.

(** With more than one sample in the ring and fewer than
    [MIN_DRIFT_SAMPLES] selected, no drift is published and [B1] is the
    mean of the selected deltas, their exact sum divided by their number
    and truncated toward zero: neither the [s64] sum nor the conversions
    through [u32] and [s32] change it. *)
Theorem few_samples_publish_the_mean
        (pong_time rtt_ delta_ : Z) (ts : ClockSync) :
  0 <= _ts_sample_count ts < 2^32 ->
  1 < count_after ts ->
  Z.of_nat (length (selected pong_time rtt_ delta_ ts)) < MIN_DRIFT_SAMPLES ->
  Forall in_s32 (selected_deltas pong_time rtt_ delta_ ts) ->
  _ts_B0 (UpdateTimeSynch pong_time rtt_ delta_ ts) = 0%Q /\
  _ts_B1 (UpdateTimeSynch pong_time rtt_ delta_ ts)
    = Z.quot (fold_right Z.add 0 (selected_deltas pong_time rtt_ delta_ ts))
             (Z.of_nat (length (selected pong_time rtt_ delta_ ts))) /\
  _ts_base (UpdateTimeSynch pong_time rtt_ delta_ ts) = _ts_base ts.
Proof.
  intros Hc H1 H2 Hd.
  pose proof (selected_length pong_time rtt_ delta_ ts Hc H1) as Hn.
  pose proof (UpdateTimeSynch_published pong_time rtt_ delta_ ts) as P.
  cbv zeta in P.
  destruct (Z.leb_spec (count_after ts) 1); [lia |].
  destruct (Z.ltb_spec (Z.of_nat (length (selected pong_time rtt_ delta_ ts)))
                       MIN_DRIFT_SAMPLES); [| lia].
  injection P as -> -> ->. split; [reflexivity |]. split; [| reflexivity].
  unfold mean_delta, sum_best_delta, selected_deltas in *.
  rewrite List.Forall_map in Hd.
  destruct (sum_best_delta_exact (samples_after pong_time rtt_ delta_ ts)
              (selected pong_time rtt_ delta_ ts) Hd 0 0) as (E & B);
    [lia | lia | lia |].
  cbv zeta in E, B. rewrite E, Z.add_0_l in *.
  rewrite s32_u32. apply s32_id. apply quot_mean_in_s32; lia.
Qed.
(** *** Once connected *)

(** The two members that say which peer the client talks to. *)
Definition peer (c : Client) : bool * NetAddr := (_connected c, _server_addr c).

Lemma peer_ConnectFail err c : peer (ConnectFail err c) = peer c.
Proof. unfold ConnectFail, Atomic_Set_destroyed. simpl. now break_match. Qed.

Lemma peer_Disconnect reason notify c : peer (Disconnect reason notify c) = peer c.
Proof.
  unfold Disconnect, Atomic_Set_destroyed. simpl. break_match; [| reflexivity].
  now destruct notify.
Qed.

Lemma peer_OnRead_connected e src data c :
  _connected c = true -> peer (OnRead e src data c) = peer c.
Proof.
  intros E. unfold OnRead. rewrite E.
  repeat (break_match; simpl; try reflexivity).
Qed.

Lemma peer_OnUnreachable src c : peer (OnUnreachable src c) = peer c.
Proof. unfold OnUnreachable. break_match; [apply peer_ConnectFail | reflexivity]. Qed.

Lemma peer_PostPacket e buffer c : peer (snd (PostPacket e buffer c)) = peer c.
Proof. unfold PostPacket. repeat (break_match; simpl; try reflexivity). Qed.

Lemma peer_session_tick e l c : peer (snd (session_tick e l c)) = peer c.
Proof.
  unfold session_tick, post_probe_pair, PostTimePing.
  repeat (break_match; simpl in *; rewrite ?peer_Disconnect; try reflexivity);
    repeat match goal with
           | H : (_, _) = (_, _) |- _ => injection H as <- <-
           end; simpl; rewrite ?peer_Disconnect; reflexivity.
Qed.

Lemma peer_OnInternal e data c : peer (OnInternal e data c) = peer c.
Proof.
  unfold OnInternal.
  repeat (break_match; simpl in *; rewrite ?peer_Disconnect; try reflexivity).
Qed.

Lemma peer_session_call call l c :
  _connected c = true -> peer (snd (session_call call (l, c))) = peer c.
Proof.
  intros E. destruct call as [e src data | src | e data | e buffer | e | e | t]; simpl.
  - apply peer_OnRead_connected, E.
  - apply peer_OnUnreachable.
  - apply peer_OnInternal.
  - apply peer_PostPacket.
  - reflexivity.
  - pose proof (peer_session_tick e l c) as P.
    destruct (session_tick e l c) as [[r l'] c']. exact P.
  - destruct t; [apply peer_Disconnect | apply peer_ConnectFail].
Qed.

(** Once the client is connected, nothing that reaches it afterwards --
    datagrams from any address, ICMP errors, internal messages, outgoing
    packets, passes of the session loop, [Disconnect] or [ConnectFail] --
    changes [_connected] or the server address; in particular the flag is
    not cleared by a disconnect, and [PostHello] stays refused. *)
Theorem connected_peer_is_latched
        (calls : list SessionCall) (l : SessionLoop) (c : Client) :
  _connected c = true ->
  let c' := snd (session_calls calls (l, c)) in
  _connected c' = true /\ _server_addr c' = _server_addr c /\
  forall e, PostHello e c' = (false, c').
Proof.
  intros E. cbv zeta.
  assert (P : peer (snd (session_calls calls (l, c))) = peer c).
  { unfold session_calls. revert l c E.
    induction calls as [| call calls IH]; intros l c E; cbn [fold_left]; [reflexivity |].
    pose proof (peer_session_call call l c E) as P1.
    destruct (session_call call (l, c)) as [l1 c1]. cbn [snd] in P1.
    rewrite IH; [exact P1 |]. unfold peer in P1. congruence. }
  unfold peer in P. injection P as P1 P2.
  split; [congruence |]. split; [exact P2 |].
  intros e. unfold PostHello. rewrite P1, E. reflexivity.
Qed.

(** *** The cookie and the challenge *)

(** A cookie packet from the server, before the connection: the client
    answers with one packet to the server, which starts with
    [C2S_CHALLENGE] and the protocol magic, repeats the four cookie bytes
    it was sent, and ends with the cached challenge; it has started to
    ignore ICMP errors before.  If no buffer can be had the connection
    fails with [ERR_CLIENT_OUT_OF_MEMORY], if the post fails with
    [ERR_CLIENT_BROKEN_PIPE]. *)
Theorem OnRead_cookie_posts_the_challenge
        (e : Env) (src : NetAddr) (data : list Z) (c : Client) :
  _connected c = false ->
  src = _server_addr c ->
  Z.of_nat (length data) = S2C_COOKIE_LEN ->
  byte_at data 0 = S2C_COOKIE ->
  (Z.to_nat CHALLENGE_BYTES <= length (_cached_challenge c))%nat ->
  let pkt := challenge_packet data c in
  OnRead e src data c =
    (if negb (acquire_ok e) then ConnectFail ERR_CLIENT_OUT_OF_MEMORY c
     else if post_ok e
          then emit (Post (_server_addr c) pkt) (emit IgnoreUnreachable c)
          else ConnectFail ERR_CLIENT_BROKEN_PIPE (emit IgnoreUnreachable c)) /\
  Z.of_nat (length pkt) = 1 + 4 + 4 + CHALLENGE_BYTES /\
  byte_at pkt 0 = C2S_CHALLENGE /\
  le_decode (slice pkt 1 4) = PROTOCOL_MAGIC /\
  slice pkt 5 4 = slice data 1 4 /\
  slice pkt 9 (Z.to_nat CHALLENGE_BYTES)
    = firstn (Z.to_nat CHALLENGE_BYTES) (_cached_challenge c).
Proof.
  intros Hc -> Hl H0 Hch pkt.
  assert (L5 : length data = 5%nat) by (unfold S2C_COOKIE_LEN in Hl; lia).
  split.
  - unfold OnRead. rewrite NetAddr_eqb_refl, Hc, Hl, H0, !Z.eqb_refl.
    cbn [negb andb]. destruct (acquire_ok e); [| reflexivity].
    cbn [negb]. destruct (post_ok e); reflexivity.
  - destruct data as [| d0 [| d1 [| d2 [| d3 [| d4 [| ? ?]]]]]]; try discriminate.
    subst pkt. unfold challenge_packet, slice, byte_at.
    change (skipn 1 [d0; d1; d2; d3; d4]) with [d1; d2; d3; d4].
    change (firstn 4 [d1; d2; d3; d4]) with [d1; d2; d3; d4].
    change (le_bytes 4 PROTOCOL_MAGIC) with [1; 0; 125; 196].
    cbn [app nth skipn firstn].
    split.
    { cbn [length]. rewrite length_firstn. unfold CHALLENGE_BYTES, PUBLIC_KEY_BYTES in *. lia. }
    split; [reflexivity |]. split; [reflexivity |]. split; [reflexivity |].
    apply firstn_all2. rewrite length_firstn. lia.
Qed.
(** *** The session loop: silence and probes *)

Lemma u32_s32 z : u32 (s32 z) = u32 z.
Proof.
  unfold u32, s32, signed. destruct (z mod 2 ^ 32 <? 2 ^ (32 - 1)).
  - apply Z.mod_mod. lia.
  - rewrite Zminus_mod, Z.mod_same, Z.sub_0_r, !Z.mod_mod by lia. reflexivity.
Qed.

(** The part of [session_tick] before the silence test changes neither the
    kill flag, nor [_destroyed], nor the last receive time, and only adds
    to the trace. *)
Definition before_silence_test (e : Env) (l : SessionLoop) (c : Client)
  : SessionLoop * Client :=
  let now := msec e in
  let c := emit (TickTransport now) c in
  let '(l, c) :=
    if s32 (now - next_sync_time l) >=? 0 then
      let c := PostTimePing e c in
      if sync_attempts l >=? TIME_SYNC_FAST_COUNT then
        (mkSessionLoop (mtu_discovery_time l) (mtu_discovery_attempts l)
                       (u32 (now + TIME_SYNC_INTERVAL)) (sync_attempts l), c)
      else
        (mkSessionLoop (mtu_discovery_time l) (mtu_discovery_attempts l)
                       (u32 (now + TIME_SYNC_FAST)) (u32 (sync_attempts l + 1)), c)
    else (l, c) in
  if (mtu_discovery_attempts l >? 0)
     && (u32 (now - mtu_discovery_time l) >=? MTU_PROBE_INTERVAL) then
    if _max_payload_bytes c >=? u32 (MAXIMUM_MTU - _overhead_bytes c) then
      (mkSessionLoop (mtu_discovery_time l) 0 (next_sync_time l) (sync_attempts l),
       emit (DontFragment false) c)
    else if mtu_discovery_attempts l >? 1 then
      (mkSessionLoop now (mtu_discovery_attempts l - 1)
                     (next_sync_time l) (sync_attempts l),
       post_probe_pair e (MAXIMUM_MTU - _overhead_bytes c)
                       (MEDIUM_MTU - _overhead_bytes c) c)
    else
      (mkSessionLoop (mtu_discovery_time l) 0 (next_sync_time l) (sync_attempts l),
       emit (DontFragment false) c)
  else (l, c).

Lemma session_tick_split e l c :
  _kill_flag c = false ->
  session_tick e l c =
    let '(l1, c1) := before_silence_test e l c in
    let now := msec e in
    if u32 (s32 (now - _last_recv_tsc c1)) >=? TIMEOUT_DISCONNECT then
      (Returns true, l1, Disconnect DISCO_TIMEOUT true c1)
    else
      let c2 := emit (OnTick now) c1 in
      if s32 (now - _last_send_mstsc c2) >=? SILENCE_LIMIT then
        (Continues,
         mkSessionLoop (mtu_discovery_time l1) (mtu_discovery_attempts l1)
                       (u32 (now + TIME_SYNC_INTERVAL)) (sync_attempts l1),
         PostTimePing e c2)
      else (Continues, l1, c2).
Proof.
  intros Hk. unfold session_tick, before_silence_test. rewrite Hk. cbv zeta.
  repeat (break_match; simpl in *; try reflexivity; try congruence).
Qed.

Lemma before_silence_test_keeps e l c :
  let c1 := snd (before_silence_test e l c) in
  _last_recv_tsc c1 = _last_recv_tsc c /\ _destroyed c1 = _destroyed c /\
  _kill_flag c1 = _kill_flag c /\ exists evs, trace c1 = trace c ++ evs.
Proof.
  unfold before_silence_test, post_probe_pair, PostTimePing. cbv zeta.
  repeat (break_match; simpl in *);
    repeat match goal with
           | H : (_, _) = (_, _) |- _ => injection H as <- <-
           end; simpl;
    (split; [reflexivity |]; split; [reflexivity |]; split; [reflexivity |]);
    rewrite <- ?app_assoc; eexists; reflexivity.
Qed.

(** A pass of the session loop ends the session exactly when the last
    datagram was received [TIMEOUT_DISCONNECT] milliseconds ago or more, the
    difference being taken modulo [2^32]: the cast to [s32] changes nothing,
    so a receive time one millisecond ahead of the clock reading also ends
    it.  The pass then disconnects with [DISCO_TIMEOUT], notifying the
    server first, and the thread function returns. *)
Theorem session_tick_times_out (e : Env) (l : SessionLoop) (c : Client) :
  _kill_flag c = false ->
  let out := session_tick e l c in
  (fst (fst out) = Returns true <->
   TIMEOUT_DISCONNECT <= u32 (msec e - _last_recv_tsc c)) /\
  (fst (fst out) = Returns true \/ fst (fst out) = Continues) /\
  (fst (fst out) = Returns true -> _destroyed c = 0 ->
   _destroyed (snd out) = 1 /\ _kill_flag (snd out) = true /\
   exists evs,
     trace (snd out) =
       trace c ++ evs ++ [PostDisconnect DISCO_TIMEOUT; TransportDisconnected;
                          OnDisconnect DISCO_TIMEOUT; Close]) /\
  (s32 (msec e - _last_recv_tsc c) < 0 -> fst (fst out) = Returns true).
Proof.
  intros Hk out. subst out. rewrite (session_tick_split e l c Hk).
  pose proof (before_silence_test_keeps e l c) as B. cbv zeta in B.
  destruct (before_silence_test e l c) as [l1 c1]. cbn [snd] in B.
  destruct B as (Er & Ed & Ek & evs & Et). cbv zeta.
  rewrite Er, u32_s32.
  assert (Neg : s32 (msec e - _last_recv_tsc c) < 0 ->
                TIMEOUT_DISCONNECT <= u32 (msec e - _last_recv_tsc c)).
  { unfold s32, signed, u32, TIMEOUT_DISCONNECT.
    destruct (Z.ltb_spec ((msec e - _last_recv_tsc c) mod 2 ^ 32) (2 ^ (32 - 1)));
      [| change (2 ^ (32 - 1)) with 2147483648 in *; lia].
    pose proof (Z.mod_pos_bound (msec e - _last_recv_tsc c) (2 ^ 32) ltac:(lia)).
    lia. }
  destruct (Z.geb_spec (u32 (msec e - _last_recv_tsc c)) TIMEOUT_DISCONNECT) as [G | G].
  - cbn [fst snd]. split; [tauto |]. split; [auto |]. split; [| auto].
    intros _ Hd. unfold Disconnect, Atomic_Set_destroyed. cbn.
    rewrite Ed, Hd. cbn. split; [reflexivity |]. split; [reflexivity |].
    exists evs. rewrite Et, <- !app_assoc. reflexivity.
  - assert (R : forall (r : LoopStep * SessionLoop * Client),
              fst (fst r) = Continues ->
              (fst (fst r) = Returns true <->
               TIMEOUT_DISCONNECT <= u32 (msec e - _last_recv_tsc c)) /\
              (fst (fst r) = Returns true \/ fst (fst r) = Continues) /\
              (fst (fst r) = Returns true -> _destroyed c = 0 ->
               _destroyed (snd r) = 1 /\ _kill_flag (snd r) = true /\
               exists evs0,
                 trace (snd r) =
                   trace c ++ evs0 ++ [PostDisconnect DISCO_TIMEOUT;
                                       TransportDisconnected;
                                       OnDisconnect DISCO_TIMEOUT; Close]) /\
              (s32 (msec e - _last_recv_tsc c) < 0 -> fst (fst r) = Returns true)).
    { intros r Hr. rewrite Hr. split; [split; [discriminate | lia] |].
      split; [auto |]. split; [discriminate |]. intros N. specialize (Neg N). lia. }
    destruct (s32 (msec e - _last_send_mstsc (emit (OnTick (msec e)) c1)) >=? SILENCE_LIMIT);
      apply R; reflexivity.
Qed.

(** The MTU probes posted so far. *)
Definition is_probe (ev : Event) : bool :=
  match ev with PostMTUProbe _ => true | _ => false end.

Definition probes (c : Client) : Z :=
  Z.of_nat (length (filter (fun ev => is_probe ev = true) (trace c))).

(** The probes still to come: two for each attempt but the last. *)
Definition probes_to_come (l : SessionLoop) : Z :=
  2 * Z.max 0 (mtu_discovery_attempts l - 1).

Lemma probes_emit ev c :
  probes (emit ev c) = probes c + (if is_probe ev then 1 else 0).
Proof.
  unfold probes. simpl. rewrite filter_app, length_app, Nat2Z.inj_add. f_equal.
  destruct ev; reflexivity.
Qed.

Lemma probes_set_last_recv_tsc t c : probes (set_last_recv_tsc t c) = probes c.
Proof. reflexivity. Qed.

Lemma probes_Disconnect reason notify c :
  probes (Disconnect reason notify c) = probes c.
Proof.
  unfold Disconnect, Atomic_Set_destroyed. simpl.
  destruct (_destroyed c =? 0); [| reflexivity].
  destruct notify; unfold probes; simpl;
    rewrite <- !app_assoc, filter_app; simpl; rewrite app_nil_r; reflexivity.
Qed.

Lemma probes_ConnectFail err c : probes (ConnectFail err c) = probes c.
Proof.
  unfold ConnectFail, Atomic_Set_destroyed. simpl.
  destruct (_destroyed c =? 0); [| reflexivity].
  unfold probes; simpl.
  rewrite <- !app_assoc, filter_app; simpl; rewrite app_nil_r; reflexivity.
Qed.

Lemma probes_post_probe_pair e hi lo c :
  probes c < probes (post_probe_pair e hi lo c) <= probes c + 2.
Proof.
  unfold post_probe_pair. destruct (probe_ok e); rewrite !probes_emit; cbn; lia.
Qed.

Lemma probes_before_silence_test e l c :
  let '(l1, c1) := before_silence_test e l c in
  probes c1 + probes_to_come l1 <= probes c + probes_to_come l /\
  probes c <= probes c1.
Proof.
  unfold before_silence_test, PostTimePing, probes_to_come. cbv zeta.
  repeat (break_match; cbn [mtu_discovery_attempts] in *);
    repeat match goal with
           | H : (_, _) = (_, _) |- _ => injection H as <- <-
           | H : _ && _ = true |- _ => apply andb_prop in H as [? ?]
           | H : (_ >? _) = true |- _ => apply Z.gtb_lt in H
           end;
    cbn [mtu_discovery_attempts];
    try match goal with
        | |- context [post_probe_pair ?e ?hi ?lo ?c] =>
            pose proof (probes_post_probe_pair e hi lo c)
        end;
    rewrite ?probes_emit in *; cbn [is_probe] in *; lia.
Qed.

Lemma probes_session_tick e l c :
  let out := session_tick e l c in
  probes (snd out) + probes_to_come (snd (fst out))
    <= probes c + probes_to_come l /\
  probes c <= probes (snd out).
Proof.
  cbv zeta. destruct (_kill_flag c) eqn:Hk.
  - unfold session_tick. rewrite Hk. cbn. lia.
  - rewrite (session_tick_split e l c Hk).
    pose proof (probes_before_silence_test e l c) as B.
    destruct (before_silence_test e l c) as [l1 c1]. cbv zeta.
    unfold PostTimePing, probes_to_come in *.
    repeat (break_match; cbn [fst snd mtu_discovery_attempts]);
      rewrite ?probes_Disconnect, ?probes_emit; cbn [is_probe]; lia.
Qed.

Ltac probes_same :=
  rewrite ?probes_ConnectFail, ?probes_Disconnect;
  unfold probes; simpl; rewrite ?filter_app, ?length_app; simpl;
  try reflexivity; try lia.

Lemma probes_OnRead e src data c : probes (OnRead e src data c) = probes c.
Proof. unfold OnRead. repeat break_match; probes_same. Qed.

Lemma probes_OnInternal e data c : probes (OnInternal e data c) = probes c.
Proof. unfold OnInternal. repeat break_match; probes_same. Qed.

Lemma probes_PostPacket e buffer c :
  probes (snd (PostPacket e buffer c)) = probes c.
Proof. unfold PostPacket. repeat break_match; probes_same. Qed.

Lemma probes_session_call call l c :
  let out := session_call call (l, c) in
  probes (snd out) + probes_to_come (fst out) <= probes c + probes_to_come l /\
  probes c <= probes (snd out).
Proof.
  cbv zeta.
  destruct call as [e src data | src | e data | e buffer | e | e | t];
    cbn [session_call fst snd].
  - rewrite probes_OnRead. lia.
  - assert (E : probes (OnUnreachable src c) = probes c); [| lia].
    unfold OnUnreachable. break_match; [apply probes_ConnectFail | reflexivity].
  - rewrite probes_OnInternal. lia.
  - rewrite probes_PostPacket. lia.
  - unfold PostTimePing. rewrite probes_emit. cbn [is_probe]. lia.
  - pose proof (probes_session_tick e l c) as T. cbv zeta in T.
    destruct (session_tick e l c) as [[r l'] c']. exact T.
  - assert (E : probes (teardown t c) = probes c); [| lia].
    destruct t; [apply probes_Disconnect | apply probes_ConnectFail].
Qed.

(** From the end of the handshake on, whatever reaches the client and
    however long the session lasts, at most four MTU probes are posted: the
    pair at the start of the session and one more pair. *)
Theorem at_most_four_mtu_probes
        (e : Env) (c : Client) (calls : list SessionCall) :
  let c' := snd (session_calls calls (session_start e c)) in
  probes c <= probes c' <= probes c + 4.
Proof.
  cbv zeta.
  assert (S0 : probes c <= probes (snd (session_start e c)) /\
               probes (snd (session_start e c))
                 + probes_to_come (fst (session_start e c)) <= probes c + 4).
  { unfold session_start, probes_to_come.
    destruct (dont_fragment_ok e); cbn [negb fst snd mtu_discovery_attempts].
    - pose proof (probes_post_probe_pair e MAXIMUM_MTU MEDIUM_MTU
                    (emit (DontFragment true) c)) as P.
      rewrite probes_emit in P. cbn [is_probe] in P.
      rewrite probes_set_last_recv_tsc. lia.
    - rewrite probes_set_last_recv_tsc, probes_emit. cbn [is_probe]. lia. }
  destruct (session_start e c) as [l0 c0]. cbn [fst snd] in S0.
  assert (G : forall calls l1 c1,
            probes c1 <= probes (snd (session_calls calls (l1, c1))) /\
            probes (snd (session_calls calls (l1, c1)))
              <= probes c1 + probes_to_come l1).
  { clear. unfold session_calls.
    induction calls as [| call calls IH]; intros l1 c1; cbn [fold_left].
    - cbn [snd]. unfold probes_to_come. lia.
    - pose proof (probes_session_call call l1 c1) as S1. cbv zeta in S1.
      destruct (session_call call (l1, c1)) as [l2 c2]. cbn [fst snd] in S1.
      specialize (IH l2 c2). lia. }
  specialize (G calls l0 c0). lia.
Qed.
(** *** Starting a connection *)

Definition is_close (ev : Event) : bool :=
  match ev with Close => true | _ => false end.

(** The events a call added to the trace. *)
Definition added (c c' : Client) (evs : list Event) : Prop :=
  trace c' = trace c ++ evs.

Definition closes (c : Client) : nat :=
  length (filter (fun ev => is_close ev = true) (trace c)).

Lemma closes_added c c' evs :
  added c c' evs ->
  closes c' = (closes c + length (filter (fun ev => is_close ev = true) evs))%nat.
Proof. unfold added, closes. intros ->. rewrite filter_app, length_app. reflexivity. Qed.

Definition converts (converted : option NetAddr) : bool :=
  match converted with Some _ => true | None => false end.

(** What [Connect] does, case by case. *)
Lemma Connect_cases ce addr c :
  GetPort addr <> 0 ->
  let out := Connect ce addr c in
  let converted := Convert ce (Is6 ce) addr in
  let hello_ok :=
    negb (_connected c) && acquire_ok (hello_env ce) && post_ok (hello_env ce) in
  fst out = bind_ok ce && converts converted && hello_ok
            && start_thread_ok ce /\
  (forall a, bind_ok ce = true -> converted = Some a ->
     _server_addr (snd out) = a /\
     _max_payload_bytes (snd out) = InitializePayloadBytes ce (Is6 ce)) /\
  added c (snd out)
    ((if bind_ok ce && converts converted && hello_ok
      then [Post (default addr converted) (hello_packet c)] else [])
     ++ (if bind_ok ce && negb (fst out) then [Close] else [])).
Proof.
  intros Hp. cbv zeta. unfold Connect, added.
  destruct (Z.eqb_spec (GetPort addr) 0) as [? | _]; [contradiction |].
  cbn [_server_addr set_server_addr].
  destruct (bind_ok ce); cbn [negb andb].
  2:{ cbn [fst snd]. split; [reflexivity |]. split; [discriminate |].
      cbn. symmetry. apply app_nil_r. }
  destruct (Convert ce (Is6 ce) addr) as [a |]; cbn [andb default converts].
  2:{ cbn [fst snd]. split; [reflexivity |]. split; [discriminate |]. reflexivity. }
  unfold PostHello. cbn [_connected set_max_payload_bytes set_server_addr].
  destruct (_connected c); cbn [negb andb].
  { cbn [fst snd]. split; [reflexivity |]. split; [| reflexivity].
    intros ? _ [= <-]. split; reflexivity. }
  destruct (acquire_ok (hello_env ce)); cbn [negb andb].
  2:{ cbn [fst snd]. split; [reflexivity |]. split; [| reflexivity].
      intros ? _ [= <-]. split; reflexivity. }
  destruct (post_ok (hello_env ce)); cbn [negb andb].
  2:{ cbn [fst snd]. split; [reflexivity |]. split; [| reflexivity].
      intros ? _ [= <-]. split; reflexivity. }
  destruct (start_thread_ok ce); cbn [negb andb fst snd].
  - split; [reflexivity |]. split; [intros ? _ [= <-]; split; reflexivity |].
    cbn. reflexivity.
  - split; [reflexivity |]. split; [intros ? _ [= <-]; split; reflexivity |].
    cbn. rewrite <- app_assoc. reflexivity.
Qed.

(** [Connect] succeeds exactly when the bind, the address conversion, the
    hello post and the thread start all succeed and the client is not
    connected already; it then has posted one hello, to the converted
    address, and has not closed the socket.  When it fails it has closed
    the socket exactly when the bind had succeeded, and that is the last
    thing it did; a hello is out already if only the thread start failed. *)
Theorem Connect_succeeds_or_closes
        (ce : ConnectEnv) (addr : NetAddr) (c : Client) :
  GetPort addr <> 0 ->
  let out := Connect ce addr c in
  let converted := Convert ce (Is6 ce) addr in
  (fst out = true <->
   bind_ok ce = true /\ is_Some converted /\ _connected c = false /\
   acquire_ok (hello_env ce) = true /\ post_ok (hello_env ce) = true /\
   start_thread_ok ce = true) /\
  (fst out = true ->
   exists a, converted = Some a /\ _server_addr (snd out) = a /\
     added c (snd out) [Post a (hello_packet c)] /\
     closes (snd out) = closes c) /\
  (fst out = false ->
   closes (snd out) = (closes c + if bind_ok ce then 1 else 0)%nat /\
   (bind_ok ce = true -> exists evs, added c (snd out) (evs ++ [Close])) /\
   (posts (snd out) <> posts c -> start_thread_ok ce = false)).
Proof.
  intros Hp. cbv zeta.
  destruct (Connect_cases ce addr c Hp) as (R & A & T). cbv zeta in R, A, T.
  split; [| split].
  - rewrite R. unfold converts.
    destruct (bind_ok ce), (Convert ce (Is6 ce) addr), (_connected c),
      (acquire_ok (hello_env ce)), (post_ok (hello_env ce)), (start_thread_ok ce);
      cbn; split; try discriminate; try (intros _; repeat split; eauto; fail);
      try (intros (? & ? & ? & ? & ? & ?); discriminate);
      intros (_ & S & _); destruct S; discriminate.
  - intros E. rewrite E in T. rewrite R in E.
    destruct (bind_ok ce) eqn:Eb; [| discriminate].
    destruct (Convert ce (Is6 ce) addr) as [a |] eqn:Ec; [| discriminate].
    cbn [andb converts] in E. apply andb_prop in E as [E _]. rewrite E in T.
    cbn [andb negb default app converts] in T. exists a. split; [reflexivity |].
    split; [exact (proj1 (A a eq_refl eq_refl)) |]. split; [exact T |].
    rewrite (closes_added _ _ _ T). simpl. lia.
  - intros E. rewrite E in T. cbn [negb andb] in T. rewrite andb_true_r in T.
    split; [| split].
    + rewrite (closes_added _ _ _ T), filter_app, length_app.
      destruct (bind_ok ce); cbn [andb].
      * destruct (Convert ce (Is6 ce) addr); cbn [andb converts];
          [destruct (_connected c), (acquire_ok (hello_env ce)),
             (post_ok (hello_env ce)) |]; simpl; lia.
      * simpl. lia.
    + intros Eb. rewrite Eb in T. eexists. exact T.
    + intros Np. rewrite R in E.
      destruct (bind_ok ce); cbn [andb] in *.
      * destruct (Convert ce (Is6 ce) addr); cbn [andb converts] in *.
        -- destruct (negb (_connected c) && acquire_ok (hello_env ce)
                     && post_ok (hello_env ce)); cbn [andb] in *; [exact E |].
           exfalso. apply Np. unfold posts. rewrite T, filter_app. cbn.
           rewrite app_nil_r. reflexivity.
        -- exfalso. apply Np. unfold posts. rewrite T, filter_app. cbn.
           rewrite app_nil_r. reflexivity.
      * exfalso. apply Np. unfold posts. rewrite T. cbn. rewrite app_nil_r. reflexivity.
Qed.

(** [OnResolve] answers [true] whatever happens.  If nothing was resolved,
    or the port set beforehand is 0, or the bind fails, it closes the
    socket once; if [Connect] fails after a successful bind the socket is
    closed twice, by [Connect] and by [OnResolve]; if [Connect] succeeds the
    client is as [Connect] left it. *)
Theorem OnResolve_closes_after_Connect
        (ce : ConnectEnv) (array : list NetAddr) (c : Client) :
  let out := OnResolve ce array c in
  let addr := SetPort (GetPort (_server_addr c)) (List.hd (_server_addr c) array) in
  let connected := fst (Connect ce addr c) in
  fst out = true /\
  (array <> [] -> connected = true -> snd out = snd (Connect ce addr c)) /\
  (array = [] \/ connected = false ->
   closes (snd out) =
     (closes c + if negb (bool_decide (array = []))
                    && negb (GetPort (_server_addr c) =? 0)%Z && bind_ok ce
                 then 2 else 1)%nat).
Proof.
  cbv zeta. unfold OnResolve. destruct array as [| first rest]; cbn [List.hd].
  - split; [reflexivity |]. split; [intros N; contradiction |]. intros _.
    cbn [fst snd]. rewrite (closes_added c (emit Close c) [Close] eq_refl).
    simpl. lia.
  - set (addr := SetPort (GetPort (_server_addr c)) first).
    rewrite bool_decide_eq_false_2 by discriminate. cbn [negb andb].
    destruct (Connect ce addr c) as [connected c1] eqn:E. cbn [fst].
    destruct connected; cbn [negb fst snd].
    + split; [reflexivity |]. split; [reflexivity |]. intros [? | ?]; discriminate.
    + split; [reflexivity |]. split; [discriminate |]. intros _.
      rewrite (closes_added c1 (emit Close c1) [Close] eq_refl).
      destruct (Z.eqb_spec (GetPort (_server_addr c)) 0) as [P0 | P0]; cbn [negb andb].
      * unfold Connect in E. change (GetPort addr) with (GetPort (_server_addr c)) in E.
        rewrite P0 in E. cbn in E. injection E as <-. simpl. lia.
      * destruct (Connect_cases ce addr c P0) as (R & _ & T). cbv zeta in R, T.
        rewrite E in T. cbn [fst snd negb] in T. rewrite andb_true_r in T.
        rewrite (closes_added _ _ _ T), filter_app, length_app.
        destruct (bind_ok ce), (Convert ce (Is6 ce) addr), (_connected c),
          (acquire_ok (hello_env ce)), (post_ok (hello_env ce)); simpl; lia.
Qed.

End ClientFacts.

(** *** The properties above at concrete inputs *)

Lemma teardown_upcall_fires_once_witness :
  @_destroyed sample_collaborators sample_client = 0 /\
  teardown_upcalls
    (teardowns (X := sample_collaborators)
       [CallConnectFail 2; CallDisconnect 7 true; CallConnectFail 3] sample_client)
  = [OnConnectFail 2].
Proof.
  assert (H : @_destroyed sample_collaborators sample_client = 0) by reflexivity.
  split; [exact H |].
  destruct (teardown_upcall_fires_once (X := sample_collaborators) sample_client
              (CallConnectFail 2) [CallDisconnect 7 true; CallConnectFail 3] H)
    as (_ & _ & _ & _ & U & _).
  exact U.
Defined.

(** The server's address and two packets from it: an answer that advertises
    session port 22001, and the error report with code 0, which is
    [ERR_SERVER_FULL] in the handshake-error enumeration of the transport
    header. *)
Definition sample_server : NetAddr := mkAddr 167772161 22000.
Definition sample_error : list Z := [S2C_ERROR; ERR_SERVER_FULL].






(** C2 as stated fails: the S2C_ERROR packet that reports code 0 comes from
    the server, has the right length and reaches a client that is neither
    connected nor torn down; the client ignores it and makes no upcall. *)
Lemma server_full_report_is_ignored :
  @_connected sample_collaborators sample_client = false /\
  @_destroyed sample_collaborators sample_client = 0 /\
  Z.of_nat (length sample_error) = S2C_ERROR_LEN /\
  byte_at sample_error 0 = S2C_ERROR /\
  OnRead (K := sample_constants) sample_env sample_server sample_error sample_client
    = sample_client /\
  teardown_upcalls (OnRead (K := sample_constants) sample_env sample_server
                           sample_error sample_client) = [].
Proof. repeat split; reflexivity. Qed.

Lemma OnRead_error_witness :
  @_connected sample_collaborators sample_client = false /\
  Z.of_nat (length [S2C_ERROR; 166]) = S2C_ERROR_LEN /\
  byte_at [S2C_ERROR; 166] 0 = S2C_ERROR /\
  trace (OnRead (K := sample_constants) sample_env sample_server
                [S2C_ERROR; 166] sample_client)
  = trace sample_client ++ [TransportDisconnected; OnConnectFail 166; Close].
Proof.
  assert (H1 : @_connected sample_collaborators sample_client = false) by reflexivity.
  assert (H2 : Z.of_nat (length [S2C_ERROR; 166]) = S2C_ERROR_LEN) by reflexivity.
  assert (H3 : byte_at [S2C_ERROR; 166] 0 = S2C_ERROR) by reflexivity.
  split; [exact H1 |]. split; [exact H2 |]. split; [exact H3 |].
  apply (OnRead_error (K := sample_constants) sample_env sample_server
           [S2C_ERROR; 166] sample_client H1 H2 H3); [reflexivity | vm_compute; reflexivity | reflexivity].
Defined.

(** The handshake loop started at time 1000, and its pass at time 1200,
    when the first repost is due: once with a socket that accepts the
    packet, once with a socket that refuses it. *)
Definition sample_hello_loop : HelloLoop :=
  hello_loop_start (K := sample_constants) 1000.
Definition tick_1200 : Env := mkEnv 1200 true true true true.
Definition tick_1200_post_fails : Env := mkEnv 1200 true false true true.

Lemma handshake_tick_spec_witness :
  @_kill_flag sample_collaborators sample_client = false /\
  @_connected sample_collaborators sample_client = false /\
  @_destroyed sample_collaborators sample_client = 0 /\
  fst (handshake_tick (K := sample_constants) tick_1200 sample_hello_loop sample_client)
  = (Continues, mkHelloLoop 1000 1200 400).
Proof.
  assert (H1 : @_kill_flag sample_collaborators sample_client = false) by reflexivity.
  assert (H2 : @_connected sample_collaborators sample_client = false) by reflexivity.
  assert (H3 : @_destroyed sample_collaborators sample_client = 0) by reflexivity.
  split; [exact H1 |]. split; [exact H2 |]. split; [exact H3 |].
  destruct (handshake_tick_spec (K := sample_constants) tick_1200 sample_hello_loop
              sample_client H1 H2 H3) as (_ & Hpost & _).
  destruct Hpost as (E & _).
  - apply Z.lt_nge. vm_compute. reflexivity.
  - vm_compute. discriminate.
  - reflexivity.
  - rewrite E. reflexivity.
Defined.

(** C8 as stated fails: the connection has not timed out, the repost is due,
    and the pass neither reposts the hello packet nor doubles the interval;
    the socket refused the packet, and the client fails with the broken-pipe
    error. *)
Lemma failed_repost_is_not_a_repost :
  @_kill_flag sample_collaborators sample_client = false /\
  @_connected sample_collaborators sample_client = false /\
  u32 (msec tick_1200_post_fails - first_hello_post sample_hello_loop)
    < CONNECT_TIMEOUT (ClientConstants := sample_constants) /\
  hello_post_interval sample_hello_loop
    <= u32 (msec tick_1200_post_fails - last_hello_post sample_hello_loop) /\
  fst (handshake_tick (K := sample_constants) tick_1200_post_fails sample_hello_loop
                      sample_client)
  = (Returns false, mkHelloLoop 1000 1000 200) /\
  trace (snd (handshake_tick (K := sample_constants) tick_1200_post_fails
                             sample_hello_loop sample_client))
  = trace sample_client ++ [TransportDisconnected; OnConnectFail 1; Close].
Proof.
  repeat split; try reflexivity; vm_compute; discriminate.
Qed.

(** Fifteen pongs received at the same millisecond 5000, each with round-trip
    time 10 and delta 100; the sixteenth arrives at that millisecond too,
    with delta 200. *)
Definition ring_of_15 : ClockSync :=
  Nat.iter 15 (UpdateTimeSynch (K := sample_constants) 5000 10 100) fresh_clock_sync.

Lemma UpdateTimeSynch_denominator_not_positive_witness :
  1 < count_after (K := sample_constants) ring_of_15 /\
  MIN_DRIFT_SAMPLES (ClientConstants := sample_constants)
    <= Z.of_nat (length (selected (K := sample_constants) 5000 10 200 ring_of_15)) /\
  B0_denominator_of (K := sample_constants) 5000 10 200 ring_of_15 <= 0 /\
  _ts_B0 (UpdateTimeSynch (K := sample_constants) 5000 10 200 ring_of_15) = 0%Q /\
  _ts_B1 (UpdateTimeSynch (K := sample_constants) 5000 10 200 ring_of_15) = 200 /\
  _ts_base (UpdateTimeSynch (K := sample_constants) 5000 10 200 ring_of_15)
    = _ts_base ring_of_15.
Proof.
  assert (H1 : 1 < count_after (K := sample_constants) ring_of_15)
    by (vm_compute; reflexivity).
  assert (H2 : MIN_DRIFT_SAMPLES (ClientConstants := sample_constants)
               <= Z.of_nat (length (selected (K := sample_constants) 5000 10 200 ring_of_15)))
    by (vm_compute; discriminate).
  assert (H3 : B0_denominator_of (K := sample_constants) 5000 10 200 ring_of_15 <= 0)
    by (vm_compute; discriminate).
  split; [exact H1 |]. split; [exact H2 |]. split; [exact H3 |].
  exact (UpdateTimeSynch_denominator_not_positive (K := sample_constants)
           5000 10 200 ring_of_15 H1 H2 H3).
Defined.

(** C6 as stated fails: the regression is reached with a denominator that is
    not positive, the four selected samples all carry delta 100, so the mean
    of the subset is 100, and the published offset is 200. *)
Lemma fallback_is_the_latest_delta_not_the_mean :
  1 < count_after (K := sample_constants) ring_of_15 /\
  MIN_DRIFT_SAMPLES (ClientConstants := sample_constants)
    <= Z.of_nat (length (selected (K := sample_constants) 5000 10 200 ring_of_15)) /\
  B0_denominator_of (K := sample_constants) 5000 10 200 ring_of_15 = 0 /\
  selected_deltas (K := sample_constants) 5000 10 200 ring_of_15 = [100; 100; 100; 100] /\
  mean_delta (K := sample_constants) 5000 10 200 ring_of_15 = 100 /\
  _ts_B0 (UpdateTimeSynch (K := sample_constants) 5000 10 200 ring_of_15) = 0%Q /\
  _ts_B1 (UpdateTimeSynch (K := sample_constants) 5000 10 200 ring_of_15) = 200.
Proof.
  repeat split; try (vm_compute; reflexivity); vm_compute; discriminate.
Qed.

(** Fifteen pongs five seconds apart, the later ones with the smaller
    round-trip times, each with delta 77; the sixteenth follows suit. *)
Definition ring_of_15_constant : ClockSync :=
  fold_left
    (fun ts i => UpdateTimeSynch (K := sample_constants)
                   (5000 * Z.of_nat i) (30 - Z.of_nat i) 77 ts)
    (seq 0 15) fresh_clock_sync.

Lemma UpdateTimeSynch_constant_delta_no_drift_witness :
  in_s32 77 /\
  0 <= _ts_sample_count ring_of_15_constant < 2^32 /\
  1 < count_after (K := sample_constants) ring_of_15_constant /\
  MIN_DRIFT_SAMPLES (ClientConstants := sample_constants)
    <= Z.of_nat (length (selected (K := sample_constants) 75000 15 77 ring_of_15_constant)) /\
  Forall (fun b => delta (sample_at (samples_after 75000 15 77 ring_of_15_constant) b) = 77)
         (selected (K := sample_constants) 75000 15 77 ring_of_15_constant) /\
  map (fun b => when (sample_at (samples_after 75000 15 77 ring_of_15_constant) b))
      (selected (K := sample_constants) 75000 15 77 ring_of_15_constant)
    = [60000; 65000; 70000; 75000] /\
  0 < B0_denominator_of (K := sample_constants) 75000 15 77 ring_of_15_constant /\
  _ts_B0 (UpdateTimeSynch (K := sample_constants) 75000 15 77 ring_of_15_constant) = 0%Q /\
  _ts_B1 (UpdateTimeSynch (K := sample_constants) 75000 15 77 ring_of_15_constant) = 77 /\
  _ts_base (UpdateTimeSynch (K := sample_constants) 75000 15 77 ring_of_15_constant)
    = base_time_of (K := sample_constants) 75000.
Proof.
  assert (Hd : in_s32 77) by (unfold in_s32; lia).
  assert (Hc : 0 <= _ts_sample_count ring_of_15_constant < 2^32)
    by (vm_compute; split; discriminate || reflexivity).
  assert (H1 : 1 < count_after (K := sample_constants) ring_of_15_constant)
    by (vm_compute; reflexivity).
  assert (H2 : MIN_DRIFT_SAMPLES (ClientConstants := sample_constants)
               <= Z.of_nat (length (selected (K := sample_constants)
                                      75000 15 77 ring_of_15_constant)))
    by (vm_compute; discriminate).
  assert (Fd : Forall (fun b => delta (sample_at (samples_after 75000 15 77
                                                    ring_of_15_constant) b) = 77)
                      (selected (K := sample_constants) 75000 15 77 ring_of_15_constant)).
  { apply (bool_decide_unpack _). vm_compute. exact I. }
  assert (Hden : 0 < B0_denominator_of (K := sample_constants) 75000 15 77
                       ring_of_15_constant) by (vm_compute; reflexivity).
  destruct (UpdateTimeSynch_constant_delta_no_drift (K := sample_constants)
              75000 15 77 77 ring_of_15_constant Hd Hc H1 H2 Fd) as (_ & B0 & Reg & _ & _).
  destruct (Reg Hden) as [B1 Base].
  repeat apply conj; try assumption; try apply Hc.
  vm_compute. reflexivity.
Defined.

(** Eight samples; the three shortest round trips are those of samples 5, 1
    and 7. *)
Definition sample_ring_of_8 : list TimesPingSample :=
  [mkSample 0 50 0; mkSample 0 10 0; mkSample 0 40 0; mkSample 0 20 0;
   mkSample 0 30 0; mkSample 0 5 0; mkSample 0 60 0; mkSample 0 15 0].

Lemma select_best_keeps_the_lowest_rtt_witness :
  1 < 8 /\
  BestSamples (select_best (K := sample_constants) sample_ring_of_8 8) = [7; 1; 5]%nat /\
  forall b i,
    b ∈ BestSamples (select_best (K := sample_constants) sample_ring_of_8 8) ->
    (i < 8)%nat ->
    i ∉ BestSamples (select_best (K := sample_constants) sample_ring_of_8 8) ->
    rtt (sample_at sample_ring_of_8 b) <= rtt (sample_at sample_ring_of_8 i).
Proof.
  assert (H : 1 < 8) by lia.
  split; [exact H |]. split; [vm_compute; reflexivity |].
  exact (proj2 (proj2 (proj2
    (select_best_keeps_the_lowest_rtt (K := sample_constants)
       sample_ring_of_8 8 H)))).
Defined.

Definition three_pongs : list TimesPingSample :=
  [mkSample 1000 30 5; mkSample 6000 28 6; mkSample 11000 35 4].

Lemma ring_keeps_the_latest_samples_witness :
  0 < @MAX_TS_SAMPLES sample_constants < 2^32 /\
  _ts_sample_count (feed (K := sample_constants) three_pongs fresh_clock_sync) = 3 /\
  _ts_next_index (feed (K := sample_constants) three_pongs fresh_clock_sync) = 3 /\
  _ts_samples (feed (K := sample_constants) three_pongs fresh_clock_sync) !! 2%nat
    = Some (mkSample 11000 35 4).
Proof.
  assert (H : 0 < @MAX_TS_SAMPLES sample_constants < 2^32) by (cbn; lia).
  split; [exact H |].
  destruct (ring_keeps_the_latest_samples (K := sample_constants)
              three_pongs fresh_clock_sync H eq_refl eq_refl eq_refl)
    as (C & I & _ & S).
  split; [exact C |]. split; [exact I |].
  exact (S 2%nat (mkSample 11000 35 4) eq_refl ltac:(cbn; lia)).
Defined.

(** A clock that holds one sample. *)
Definition clock_with_one_sample : ClockSync :=
  mkClockSync 0 0%Q 10 1 1
    (<[0%nat := mkSample 1000 30 10]> (replicate 64 (mkSample 0 0 0))) 0 0.

Lemma few_samples_publish_the_mean_witness :
  1 < count_after (K := sample_constants) clock_with_one_sample /\
  selected_deltas (K := sample_constants) 6000 28 21 clock_with_one_sample = [10; 21] /\
  _ts_B1 (UpdateTimeSynch (K := sample_constants) 6000 28 21 clock_with_one_sample) = 15.
Proof.
  assert (H1 : 1 < count_after (K := sample_constants) clock_with_one_sample)
    by (vm_compute; reflexivity).
  assert (E : selected_deltas (K := sample_constants) 6000 28 21 clock_with_one_sample
              = [10; 21]) by (vm_compute; reflexivity).
  split; [exact H1 |]. split; [exact E |].
  destruct (few_samples_publish_the_mean (K := sample_constants)
              6000 28 21 clock_with_one_sample) as (_ & B1 & _).
  - cbn. lia.
  - exact H1.
  - vm_compute. reflexivity.
  - rewrite E. repeat constructor; unfold in_s32; lia.
  - rewrite B1, E. reflexivity.
Defined.

(** The sample client once connected, and things that reach it then: a
    datagram from elsewhere, an error packet from the server, a
    disconnect. *)
Definition connected_client : @Client sample_collaborators :=
  set_connected true sample_client.

Definition later_calls : list SessionCall :=
  [CallOnRead sample_env (mkAddr 3232235777 4000) [S2C_ANSWER; 0; 0];
   CallOnRead sample_env (mkAddr 167772161 22000) [S2C_ERROR; 9];
   CallTeardown (CallDisconnect 1 true);
   CallOnUnreachable (mkAddr 167772161 22000)].

Lemma connected_peer_is_latched_witness :
  _connected connected_client = true /\
  _connected (snd (session_calls (K := sample_constants) later_calls
                     (mkSessionLoop 0 0 0 0, connected_client))) = true /\
  _server_addr (snd (session_calls (K := sample_constants) later_calls
                       (mkSessionLoop 0 0 0 0, connected_client)))
    = mkAddr 167772161 22000.
Proof.
  assert (H : _connected connected_client = true) by reflexivity.
  split; [exact H |].
  destruct (connected_peer_is_latched (K := sample_constants) later_calls
              (mkSessionLoop 0 0 0 0) connected_client H) as (C & A & _).
  split; [exact C | exact A].
Defined.

Definition sample_cookie : list Z := [S2C_COOKIE; 7; 8; 9; 10].

Lemma OnRead_cookie_posts_the_challenge_witness :
  @_connected sample_collaborators sample_client = false /\
  Z.of_nat (length sample_cookie) = S2C_COOKIE_LEN /\
  OnRead (K := sample_constants) sample_env (_server_addr sample_client)
         sample_cookie sample_client
    = emit (Post (_server_addr sample_client)
                 ([C2S_CHALLENGE; 1; 0; 125; 196; 7; 8; 9; 10] ++ replicate 64 5))
           (emit IgnoreUnreachable sample_client).
Proof.
  assert (H1 : @_connected sample_collaborators sample_client = false) by reflexivity.
  assert (H2 : Z.of_nat (length sample_cookie) = S2C_COOKIE_LEN) by reflexivity.
  split; [exact H1 |]. split; [exact H2 |].
  destruct (OnRead_cookie_posts_the_challenge (K := sample_constants) sample_env
              (_server_addr sample_client) sample_cookie sample_client
              H1 eq_refl H2 eq_refl
              ltac:(apply Nat.leb_le; reflexivity)) as (E & _).
  rewrite E. reflexivity.
Defined.

(** A pass of the session loop 16 seconds after the last datagram. *)
Definition late_tick : Env := mkEnv 16000 true true true true.

Lemma session_tick_times_out_witness :
  @_kill_flag sample_collaborators sample_client = false /\
  fst (fst (session_tick (K := sample_constants) late_tick
                         (mkSessionLoop 0 0 0 0) sample_client)) = Returns true.
Proof.
  assert (H : @_kill_flag sample_collaborators sample_client = false) by reflexivity.
  split; [exact H |].
  destruct (session_tick_times_out (K := sample_constants) late_tick
              (mkSessionLoop 0 0 0 0) sample_client H) as (T & _).
  apply T. vm_compute. discriminate.
Defined.

(** An environment in which every step of [Connect] succeeds. *)
Definition sample_connect_env : ConnectEnv :=
  mkConnectEnv true false (fun _ a => Some a) (fun _ => 1400) sample_env true.

Lemma Connect_succeeds_or_closes_witness :
  GetPort (mkAddr 167772161 22000) <> 0 /\
  fst (Connect sample_connect_env
               (mkAddr 167772161 22000) sample_client) = true.
Proof.
  assert (H : GetPort (mkAddr 167772161 22000) <> 0) by discriminate.
  split; [exact H |].
  destruct (Connect_succeeds_or_closes sample_connect_env
              (mkAddr 167772161 22000) sample_client H) as (T & _).
  apply T. repeat split; eauto.
Defined.

End SphynxFacts.
